(** * dbmate (primary / replica fork): the migration-file parser, the
    migration-file store and the orchestrator, embedded in Rocq.

    Source files embedded here:
      - pkg/dbmate/migration.go  (parser, wildcard substitution)
      - pkg/dbmate/db.go         (wait, Drop, migrate, Rollback, file store,
                                  and the other commands)
      - pkg/dbmate/driver.go     (the Driver interface)

    Go strings are byte sequences; they are modelled as [string] (sequences
    of 8-bit [ascii]).  Go [int] indices are modelled as [Z].

    The file has the model first (packages [strings] and [regexp] as far as
    the code uses them, the parser, the store, the orchestrator), then the
    notions and the sample inputs the statements speak of, then the lemmas,
    then one theorem for each claim, and at the end further properties of
    the code with their lemmas. *)

From Stdlib Require Import ZArith Ascii String List Lia Bool.
From stdpp Require Import base strings gmap list sorting pretty.

Local Open Scope Z_scope.

(* ===================================================================== *)
(** ** Go strings: the operations of package [strings] used by the code  *)
(* ===================================================================== *)

Module GoStrings.

Definition LF : ascii := "010"%char.
Definition NL : string := String LF "".

Fixpoint take (n : nat) (s : string) : string :=
  match n, s with
  | S n', String c s' => String c (take n' s')
  | _, _ => ""
  end.

Fixpoint drop (n : nat) (s : string) : string :=
  match n, s with
  | S n', String _ s' => drop n' s'
  | _, _ => s
  end.

(** [s[b:e]].  Go panics unless [0 <= b <= e <= len(s)]; on such indices
    the model returns the clamped slice, and the lemmas below show that the
    parser only ever slices in range. *)
Definition slice (s : string) (b e : Z) : string :=
  take (Z.to_nat e - Z.to_nat b) (drop (Z.to_nat b) s).

Definition len (s : string) : Z := Z.of_nat (String.length s).

(** [strings.HasPrefix(s, p)]. *)
Fixpoint HasPrefix (s p : string) {struct p} : bool :=
  match p, s with
  | "", _ => true
  | String a p', String b s' => if Ascii.eqb a b then HasPrefix s' p' else false
  | String _ _, "" => false
  end.

(** [strings.Split(s, sep)] for a one-byte separator: the pieces between
    the separators, in order; a text without separator is one piece. *)
Fixpoint Split1 (sep : ascii) (s : string) : list string :=
  match s with
  | "" => [""]
  | String c s' =>
      if Ascii.eqb c sep then "" :: Split1 sep s'
      else match Split1 sep s' with
           | p :: ps => String c p :: ps
           | [] => [String c ""]
           end
  end.

(** [strings.ReplaceAll(s, old, new)] for a non-empty [old]: the
    non-overlapping occurrences of [old] are replaced from left to right.
    [skip] counts the bytes of an occurrence still to be passed over. *)
Fixpoint replaceFrom (old new : string) (skip : nat) (s : string) : string :=
  match s with
  | "" => ""
  | String c s' =>
      match skip with
      | S n => replaceFrom old new n s'
      | O =>
          if HasPrefix s old
          then new +:+ replaceFrom old new (String.length old - 1) s'
          else String c (replaceFrom old new 0 s')
      end
  end.

Definition ReplaceAll (s old new : string) : string := replaceFrom old new 0 s.

(** [strings.TrimSpace]: leading and trailing Unicode white space is cut
    off.  The white-space code points, in UTF-8: the six ASCII ones
    (tab, LF, VT, FF, CR, space), U+0085, U+00A0, U+1680, U+2000..U+200A,
    U+2028, U+2029, U+202F, U+205F and U+3000. *)
Definition asciiSpace (c : ascii) : bool :=
  match c with
  | "009" | "010" | "011" | "012" | "013" | " " => true
  | _ => false
  end%char.

Definition inRange (lo hi : N) (c : ascii) : bool :=
  (N.leb lo (N_of_ascii c) && N.leb (N_of_ascii c) hi)%bool.

(** Length in bytes of the white-space code point a text starts with
    ([0] when it starts with none). *)
Definition spaceWidth (s : string) : nat :=
  match s with
  | String c0 r0 =>
      if asciiSpace c0 then 1%nat else
      match r0 with
      | String c1 r1 =>
          if (N.eqb (N_of_ascii c0) 194 &&
              (N.eqb (N_of_ascii c1) 133 || N.eqb (N_of_ascii c1) 160))%bool
          then 2%nat else
          match r1 with
          | String c2 _ =>
              let b0 := N_of_ascii c0 in
              let b1 := N_of_ascii c1 in
              let b2 := N_of_ascii c2 in
              if ((N.eqb b0 225 && N.eqb b1 154 && N.eqb b2 128)
                  || (N.eqb b0 226 && N.eqb b1 128 &&
                      (inRange 128 138 c2 || N.eqb b2 168 || N.eqb b2 169
                       || N.eqb b2 175))
                  || (N.eqb b0 226 && N.eqb b1 129 && N.eqb b2 159)
                  || (N.eqb b0 227 && N.eqb b1 128 && N.eqb b2 128))%bool
              then 3%nat else 0%nat
          | "" => 0%nat
          end
      | "" => 0%nat
      end
  | "" => 0%nat
  end.

Fixpoint trimLeft (fuel : nat) (s : string) : string :=
  match fuel with
  | O => s
  | S f =>
      match spaceWidth s with
      | O => s
      | w => trimLeft f (drop w s)
      end
  end.

(** Trailing white space: the text is cut after the last byte that does
    not belong to a trailing run of white-space code points. *)
Fixpoint allSpace (fuel : nat) (s : string) : bool :=
  match fuel with
  | O => match s with "" => true | _ => false end
  | S f =>
      match s with
      | "" => true
      | _ => match spaceWidth s with
             | O => false
             | w => allSpace f (drop w s)
             end
      end
  end.

Fixpoint trimRight (s : string) : string :=
  match s with
  | "" => ""
  | String c s' =>
      if allSpace (String.length s) s then "" else String c (trimRight s')
  end.

Definition TrimSpace (s : string) : string :=
  trimRight (trimLeft (String.length s) s).

End GoStrings.

(* ===================================================================== *)
(** ** Package [regexp]: the fragment of the syntax the code uses        *)
(* ===================================================================== *)

Module Regexp.
Import GoStrings.

(** Repetition is only ever applied to a character class in this program
    ([\s*], [\s+], [\S+], [\d+], [.*]).

    Go matches code points of UTF-8 text where this matcher matches bytes.
    For the expressions of the program the two agree: their literals and
    the classes [\s] and [\d] are ASCII, and every byte of a longer code
    point (or of an invalid encoding) is, like the code point itself, in
    [\S] and in [.]. *)
Inductive regex : Type :=
| Eps                                  (* the empty expression *)
| Lit (c : ascii)                      (* a literal byte *)
| Class (p : ascii -> bool)            (* \s, \S, \d, . *)
| Cat (r1 r2 : regex)                  (* r1 r2 *)
| Alt (r1 r2 : regex)                  (* r1|r2, r1 preferred *)
| Star (p : ascii -> bool)             (* c*, greedy *)
| BeginLine                            (* ^ under (?m) *)
| EndLine                              (* $ under (?m) *)
| BeginText                            (* ^ without (?m) *)
| EndText.                             (* $ without (?m) *)

Definition Plus (p : ascii -> bool) : regex := Cat (Class p) (Star p).
Definition Opt (r : regex) : regex := Alt r Eps.

Fixpoint Str (s : string) : regex :=
  match s with
  | "" => Eps
  | String c s' => Cat (Lit c) (Str s')
  end.

(** Perl character classes, as Go defines them (ASCII only). *)
Definition space (c : ascii) : bool :=
  match c with
  | "009" | "010" | "012" | "013" | " " => true
  | _ => false
  end%char.
Definition nonspace (c : ascii) : bool := negb (space c).
Definition digit (c : ascii) : bool :=
  match c with
  | "0" | "1" | "2" | "3" | "4" | "5" | "6" | "7" | "8" | "9" => true
  | _ => false
  end%char.
Definition anyButLF (c : ascii) : bool := negb (Ascii.eqb c LF).

(** A match continuation receives the byte before the cursor (if any),
    the text from the cursor on and the cursor position, and returns the
    end of the match. *)
Definition cont := option ascii -> string -> nat -> option nat.

Definition atLineStart (prev : option ascii) : bool :=
  match prev with
  | None => true
  | Some c => Ascii.eqb c LF
  end.

Definition atLineEnd (rest : string) : bool :=
  match rest with
  | "" => true
  | String c _ => Ascii.eqb c LF
  end.

(** Greedy repetition of a class: as many bytes as possible first, one
    fewer on failure of the continuation. *)
Fixpoint star (p : ascii -> bool) (k : cont)
    (prev : option ascii) (rest : string) (pos : nat) : option nat :=
  match rest with
  | String c rest' =>
      if p c then
        match star p k (Some c) rest' (S pos) with
        | Some e => Some e
        | None => k prev rest pos
        end
      else k prev rest pos
  | "" => k prev rest pos
  end.

(** Backtracking matcher: the first match in priority order, which is the
    leftmost-first match Go's engine reports. *)
Fixpoint rmatch (r : regex) (k : cont)
    (prev : option ascii) (rest : string) (pos : nat) : option nat :=
  match r with
  | Eps => k prev rest pos
  | Lit a =>
      match rest with
      | String c rest' => if Ascii.eqb c a then k (Some c) rest' (S pos) else None
      | "" => None
      end
  | Class p =>
      match rest with
      | String c rest' => if p c then k (Some c) rest' (S pos) else None
      | "" => None
      end
  | Cat r1 r2 => rmatch r1 (rmatch r2 k) prev rest pos
  | Alt r1 r2 =>
      match rmatch r1 k prev rest pos with
      | Some e => Some e
      | None => rmatch r2 k prev rest pos
      end
  | Star p => star p k prev rest pos
  | BeginLine => if atLineStart prev then k prev rest pos else None
  | EndLine => if atLineEnd rest then k prev rest pos else None
  | BeginText => match prev with None => k prev rest pos | Some _ => None end
  | EndText => match rest with "" => k prev rest pos | _ => None end
  end.

Definition accept : cont := fun _ _ pos => Some pos.

(** The match of [r] that starts exactly at the cursor. *)
Definition matchAt (r : regex) (prev : option ascii) (rest : string)
    (pos : nat) : option nat :=
  rmatch r accept prev rest pos.

(** The leftmost match at or after the cursor. *)
Fixpoint findFrom (r : regex) (prev : option ascii) (rest : string)
    (pos : nat) : option (nat * nat) :=
  match matchAt r prev rest pos with
  | Some e => Some (pos, e)
  | None =>
      match rest with
      | String c rest' => findFrom r (Some c) rest' (S pos)
      | "" => None
      end
  end.

(** All successive matches ([allMatches] of the library): after a match
    the search resumes at its end; an empty match directly after the
    previous match is not reported, and the search then moves on by one
    byte.  [skip] counts the bytes of the last match still to pass;
    [prevEnd] is the end of the last match. *)
Fixpoint allFrom (r : regex) (prev : option ascii) (rest : string)
    (pos : nat) (skip : nat) (prevEnd : option nat) : list (nat * nat) :=
  match skip with
  | S n =>
      match rest with
      | String c rest' => allFrom r (Some c) rest' (S pos) n prevEnd
      | "" => []
      end
  | O =>
      match matchAt r prev rest pos with
      | Some e =>
          let reported :=
            if (Nat.eqb e pos && bool_decide (prevEnd = Some pos))%bool
            then [] else [(pos, e)] in
          reported ++
            match rest with
            | String c rest' =>
                allFrom r (Some c) rest' (S pos) (e - pos - 1) (Some e)
            | "" => []
            end
      | None =>
          match rest with
          | String c rest' => allFrom r (Some c) rest' (S pos) 0 prevEnd
          | "" => []
          end
      end
  end.

Definition toZ (m : nat * nat) : Z * Z := (Z.of_nat m.1, Z.of_nat m.2).

(** [re.FindAllIndex([]byte(s), -1)]. *)
Definition FindAllIndex (r : regex) (s : string) : list (Z * Z) :=
  toZ <$> allFrom r None s 0 0 None.

(** [re.MatchString(s)], and [re.Find([]byte(s)) != nil]. *)
Definition MatchString (r : regex) (s : string) : bool :=
  match findFrom r None s 0 with Some _ => true | None => false end.

(** [re.FindString(s)]: the text of the leftmost match, [""] without one. *)
Definition FindString (r : regex) (s : string) : string :=
  match findFrom r None s 0 with
  | Some (b, e) => slice s (Z.of_nat b) (Z.of_nat e)
  | None => ""
  end.

(** The pieces of [s] outside the matches [ms], from position [beg]. *)
Fixpoint between (s : string) (beg : Z) (ms : list (Z * Z)) : list string :=
  match ms with
  | [] => []
  | m :: ms' =>
      (if m.2 =? 0 then [] else [slice s beg m.1]) ++ between s m.2 ms'
  end.

(** [re.Split(s, -1)]: the empty text gives one empty piece; otherwise the
    pieces between the matches, and the piece after the last match unless
    that match starts at the end of the text. *)
Definition Split (r : regex) (s : string) : list string :=
  if (len s =? 0) then [""] else
  let ms := FindAllIndex r s in
  let beg := default 0 (last (snd <$> ms)) in
  let end_ := default 0 (last (fst <$> ms)) in
  between s 0 ms ++ (if end_ =? len s then [] else [slice s beg (len s)]).

(** [re.ReplaceAllString(s, repl)] for an expression whose matches are not
    empty and a replacement text without [$]: the text outside the
    matches, with [repl] in place of each match. *)
Fixpoint replaceMatches (s repl : string) (beg : Z) (ms : list (Z * Z)) : string :=
  match ms with
  | [] => slice s beg (len s)
  | m :: ms' => slice s beg m.1 +:+ repl +:+ replaceMatches s repl m.2 ms'
  end.

Definition ReplaceAllString (r : regex) (s repl : string) : string :=
  replaceMatches s repl 0 (FindAllIndex r s).

End Regexp.

(* ===================================================================== *)
(** ** Errors                                                            *)
(* ===================================================================== *)

(** The sentinel errors of migration.go and db.go, the errors built from
    them with [fmt.Errorf("%w...")], and the errors that come from a driver
    or from the operating system. *)
Inductive error : Type :=
| ErrParseMissingUp
| ErrParseUnexpectedStmt
| ErrParseDuplicateBlock
| ErrNoMigrationFiles
| ErrInvalidURL
| ErrNoRollback
| ErrNoRollbackSlaves
| ErrCantConnect
| ErrUnsupportedDriver
| ErrNoMigrationName
| ErrMigrationAlreadyExist
| ErrMigrationDirNotFound
| ErrMigrationNotFound
| ErrCreateDirectory
| Wrapped (e : error) (rest : string)
| External (msg : string).

Global Instance error_eq_dec : EqDecision error.
Proof. solve_decision. Defined.

(* ===================================================================== *)
(** ** migration.go: the migration-file parser                           *)
(* ===================================================================== *)

Module Parser.
Import GoStrings Regexp.

(** [type migrationOptions map[string]string] *)
Abbreviation migrationOptions := (gmap string string).

(** [m["transaction"] != "false"]: a missing key reads as [""]. *)
Definition Transaction (m : migrationOptions) : bool :=
  negb (String.eqb (default "" (m !! "transaction")) "false").

Record Migration : Type := {
  Contents : string;
  Options : migrationOptions
}.

Definition NewMigration : Migration := {| Contents := ""; Options := ∅ |}.

(** [ContentsReplaced].  [w] is what [drv.GetWildcards()] returns, as the
    list of the entries of the map in the order the [range] loop visits them
    (an order Go leaves open). *)
Definition replaceWildcard (newContents : string) (e : string * string) : string :=
  ReplaceAll newContents ("{{" +:+ e.1 +:+ "}}") e.2.

Definition ContentsReplaced (m : Migration) (w : list (string * string))
    (doReplacement : bool) : string :=
  if doReplacement then
    if (0 <? length w)%nat then foldl replaceWildcard (Contents m) w
    else Contents m
  else Contents m.

Definition Seq (rs : list regex) : regex := foldr Cat Eps rs.

(** [(\s*$|\s+\S+)] *)
Definition directiveTail : regex :=
  Alt (Cat (Star space) EndLine) (Cat (Plus space) (Plus nonspace)).

(** [(?m)^--\s*migrate:up(\s*$|\s+\S+)] *)
Definition upRegExp : regex :=
  Seq [BeginLine; Str "--"; Star space; Str "migrate:up"; directiveTail].
(** [(?m)^--\s*migrate:down(\s*$|\s+\S+)$] *)
Definition downRegExp : regex :=
  Seq [BeginLine; Str "--"; Star space; Str "migrate:down"; directiveTail; EndLine].
(** [(?m)^--\s*migrate:up:slave(\s*$|\s+\S+)] *)
Definition upSlaveRegExp : regex :=
  Seq [BeginLine; Str "--"; Star space; Str "migrate:up:slave"; directiveTail].
(** [(?m)^--\s*migrate:down:slave(\s*$|\s+\S+)$] *)
Definition downSlaveRegExp : regex :=
  Seq [BeginLine; Str "--"; Star space; Str "migrate:down:slave"; directiveTail; EndLine].
(** [^\s*$] *)
Definition emptyLineRegExp : regex := Seq [BeginText; Star space; EndText].
(** [^\s*--] *)
Definition commentLineRegExp : regex := Seq [BeginText; Star space; Str "--"].
(** [\s+] *)
Definition whitespaceRegExp : regex := Plus space.
(** [:] *)
Definition optionSeparatorRegExp : regex := Lit ":".
(** [^--\s*migrate:(up|down)(:slave)?] *)
Definition blockDirectiveRegExp : regex :=
  Seq [BeginText; Str "--"; Star space; Str "migrate:";
       Alt (Str "up") (Str "down"); Opt (Str ":slave")].
(** The expression compiled inside [parseMigrationContents]:
    [(?m)^--\s*migrate\:(?:up|down)(?:\:slave)?( |\n)] *)
Definition scanRegExp : regex :=
  Seq [BeginLine; Str "--"; Star space; Str "migrate:";
       Alt (Str "up") (Str "down"); Opt (Str ":slave");
       Alt (Lit " ") (Lit LF)].

Definition isEmptyLine (s : string) : bool := MatchString emptyLineRegExp s.
Definition isCommentLine (s : string) : bool := MatchString commentLineRegExp s.

Definition substring (s : string) (begin end_ : Z) : string :=
  if ((begin =? -1) || (end_ =? -1))%bool then "" else slice s begin end_.

(** One option pair: stored when the token splits into exactly two parts. *)
Definition storePair (options : migrationOptions) (stringPair : string)
    : migrationOptions :=
  match Split optionSeparatorRegExp stringPair with
  | [k; v] => <[k := v]> options
  | _ => options
  end.

Definition parseMigrationOptions (contents : string) : migrationOptions :=
  let contents := ReplaceAllString blockDirectiveRegExp contents "" in
  let contents := TrimSpace contents in
  if String.eqb contents "" then ∅
  else foldl storePair ∅ (Split whitespaceRegExp contents).

Definition statementsPrecedeMigrateBlocks (contents : string)
    (firstBlockStart : Z) : bool :=
  let lines := Split1 LF (slice contents 0 firstBlockStart) in
  existsb (fun line => negb (isEmptyLine line || isCommentLine line)) lines.

(** The first loop of [parseMigrationContents]: one block per directive,
    from its start to the end of the text, and the end of the block before
    it moved to one position before this directive. *)
Definition scanStep (contents : string) (idx : nat) (reFind : Z * Z)
    (st : list (Z * Z) * Z) : list (Z * Z) * Z :=
  let '(blocks, firstBlockCharacter) := st in
  let thisBlock := (reFind.1, len contents) in
  let firstBlockCharacter :=
    if firstBlockCharacter <? 0 then reFind.1 else firstBlockCharacter in
  let blocks :=
    if (0 <? idx)%nat
    then alter (fun b : Z * Z => (b.1, reFind.1 - 1)) (idx - 1)%nat blocks
    else blocks in
  (blocks ++ [thisBlock], firstBlockCharacter).

Fixpoint scanLoop (contents : string) (idx : nat) (reFinds : list (Z * Z))
    (st : list (Z * Z) * Z) : list (Z * Z) * Z :=
  match reFinds with
  | [] => st
  | reFind :: rest =>
      scanLoop contents (S idx) rest (scanStep contents idx reFind st)
  end.

Definition scanBlocks (contents : string) : list (Z * Z) * Z :=
  scanLoop contents 0 (FindAllIndex scanRegExp contents) ([], -1).

(** The four results of [parseMigrationContents]. *)
Record Parsed : Type := {
  up : Migration;
  down : Migration;
  upSlave : Migration;
  downSlave : Migration
}.

Definition setUp (m : Migration) (p : Parsed) : Parsed :=
  {| up := m; down := down p; upSlave := upSlave p; downSlave := downSlave p |}.
Definition setDown (m : Migration) (p : Parsed) : Parsed :=
  {| up := up p; down := m; upSlave := upSlave p; downSlave := downSlave p |}.
Definition setUpSlave (m : Migration) (p : Parsed) : Parsed :=
  {| up := up p; down := down p; upSlave := m; downSlave := downSlave p |}.
Definition setDownSlave (m : Migration) (p : Parsed) : Parsed :=
  {| up := up p; down := down p; upSlave := upSlave p; downSlave := m |}.

(** One of the four [if re.Find([]byte(s)) != nil { ... }] of the second
    loop: [inl] is the early return with [ErrParseDuplicateBlock]. *)
Definition assign (re : regex) (get : Parsed -> Migration)
    (set : Migration -> Parsed -> Parsed) (s : string) (p : Parsed)
    : Parsed + Parsed :=
  if MatchString re s then
    if negb (String.eqb (Contents (get p)) "") then inl p
    else inr (set {| Contents := s; Options := parseMigrationOptions s |} p)
  else inr p.

Definition andThen (x : Parsed + Parsed) (f : Parsed -> Parsed + Parsed)
    : Parsed + Parsed :=
  match x with
  | inl p => inl p
  | inr p => f p
  end.

Definition classify (contents : string) (b : Z * Z) (p : Parsed)
    : Parsed + Parsed :=
  let s := substring contents b.1 b.2 in
  andThen (andThen (andThen (assign upRegExp up setUp s p)
    (assign downRegExp down setDown s))
    (assign upSlaveRegExp upSlave setUpSlave s))
    (assign downSlaveRegExp downSlave setDownSlave s).

Fixpoint classifyAll (contents : string) (blocks : list (Z * Z)) (p : Parsed)
    : Parsed + Parsed :=
  match blocks with
  | [] => inr p
  | b :: rest => andThen (classify contents b p) (classifyAll contents rest)
  end.

Definition noBlocks : Parsed :=
  {| up := NewMigration; down := NewMigration;
     upSlave := NewMigration; downSlave := NewMigration |}.

Definition parseMigrationContents (contents : string) : Parsed * option error :=
  let '(blocks, firstBlockCharacter) := scanBlocks contents in
  if (length blocks =? 0)%nat then (noBlocks, Some ErrParseMissingUp)
  else
    match classifyAll contents blocks noBlocks with
    | inl p => (p, Some ErrParseDuplicateBlock)
    | inr p =>
        if String.eqb (Contents (up p)) "" then (p, Some ErrParseMissingUp)
        else if statementsPrecedeMigrateBlocks contents firstBlockCharacter
        then (p, Some ErrParseUnexpectedStmt)
        else (p, None)
    end.

End Parser.

(* ===================================================================== *)
(** ** db.go: the migration-file store                                   *)
(* ===================================================================== *)

Module Store.
Import GoStrings Regexp Parser.

(** An entry of a directory, as [os.ReadDir] reports it. *)
Record DirEntry : Type := {
  Name : string;
  IsDir : bool
}.

(** [migrationFileRegexp]: [^\d.*\.sql$] *)
Definition migrationFileRegexp : regex :=
  Seq [BeginText; Class digit; Star anyButLF; Str ".sql"; EndText].

(** [sort.Strings]: ascending byte-wise order.  The order is total on
    strings, so the sorted list does not depend on the algorithm. *)
Definition sortStrings (l : list string) : list string :=
  merge_sort String.le l.

(** The loop of [findMigrationFiles] over the entries of the directory. *)
Fixpoint matchingNames (re : regex) (files : list DirEntry) : list string :=
  match files with
  | [] => []
  | file :: rest =>
      if IsDir file then matchingNames re rest
      else if negb (MatchString re (Name file)) then matchingNames re rest
      else Name file :: matchingNames re rest
  end.

(** [findMigrationFiles], given the answer of [os.ReadDir(dir)] ([None]
    when it fails). *)
Definition findMigrationFilesIn (entries : option (list DirEntry))
    (dir : string) (re : regex) : list string + error :=
  match entries with
  | None => inr (Wrapped ErrMigrationDirNotFound (" `" +:+ dir +:+ "`"))
  | Some files => inl (sortStrings (matchingNames re files))
  end.

(** [regexp.MustCompile(`^\d+`).FindString(filename)] *)
Definition migrationVersion (filename : string) : string :=
  FindString (Seq [BeginText; Plus digit]) filename.

(** [regexp.QuoteMeta]: a backslash in front of each of [\.+*?()|[]{}^$]. *)
Definition special (c : ascii) : bool :=
  match c with
  | "\" | "." | "+" | "*" | "?" | "(" | ")" | "|" | "[" | "]" | "{" | "}"
  | "^" | "$" => true
  | _ => false
  end%char.

Fixpoint QuoteMeta (s : string) : string :=
  match s with
  | "" => ""
  | String c s' =>
      if special c then String "\"%char (String c (QuoteMeta s'))
      else String c (QuoteMeta s')
  end.

(** The expression [findMigrationFile] compiles from a version:
    [^<quoted version>.*\.sql$], which matches the version literally. *)
Definition versionFileRegexp (ver : string) : regex :=
  Seq [BeginText; Str ver; Star anyButLF; Str ".sql"; EndText].

(** [findMigrationFile], for a version that is not empty (the code panics
    on the empty version; [Rollback] never passes it). *)
Definition findMigrationFileIn (entries : option (list DirEntry))
    (dir : string) (ver : string) : string + error :=
  match findMigrationFilesIn entries dir (versionFileRegexp ver) with
  | inr e => inr e
  | inl [] => inr (Wrapped ErrMigrationNotFound (": " +:+ QuoteMeta ver +:+ "*.sql"))
  | inl (file :: _) => inl file
  end.

End Store.

(* ===================================================================== *)
(** ** driver.go and db.go: drivers, the environment, the orchestrator   *)
(* ===================================================================== *)

Module Orchestrator.
Import GoStrings Regexp Parser Store.

(** [*url.URL]: the code only looks at the scheme. *)
Record URL : Type := {
  Scheme : string;
  Opaque : string
}.

Global Instance URL_eq_dec : EqDecision URL.
Proof. solve_decision. Defined.

(** [DriverConfig]; a driver is the value its constructor makes from the
    configuration, and stands for the database at that URL. *)
Record Driver : Type := {
  CfgDatabaseURL : URL;
  CfgMigrationsTableName : string
}.

Global Instance Driver_eq_dec : EqDecision Driver.
Proof. solve_decision. Defined.

(** [type DB struct].  A [nil] URL or slice is [None].  [Log] is not a
    field here: what is written to it is recorded in the trace. *)
Record DB : Type := {
  AutoDumpSchema : bool;
  DatabaseURL : option URL;
  SlaveDatabases : option (list URL);
  MigrationsDir : string;
  MigrationsTableName : string;
  SchemaFile : string;
  Verbose : bool;
  WaitBefore : bool;
  WaitInterval : Z;
  WaitTimeout : Z
}.

(** The methods of the [Driver] interface and of the handles and
    transactions it hands out. *)
Inductive call : Type :=
| DrvOpen
| DrvDatabaseExists
| DrvCreateDatabase
| DrvDropDatabase
| DrvDumpSchema
| DrvMigrationsTableExists
| DrvCreateMigrationsTable
| DrvSelectMigrations (limit : Z)
| DrvInsertMigration (version : string)
| DrvDeleteMigration (version : string)
| DrvPing
| SqlBegin
| SqlExec (query : string)
| SqlCommit
| SqlRollback
| SqlClose.

Global Instance call_eq_dec : EqDecision call.
Proof. solve_decision. Defined.

(** What a run does to the world outside, in order. *)
Inductive event : Type :=
| Call (d : Driver) (c : call)
| Sleep (d : Z)                          (* time.Sleep *)
| Log (text : string)                    (* written to db.Log *)
| Stdout (text : string)                 (* fmt.Printf, fmt.Println *)
| ReadDir (dir : string)
| ReadFile (path : string)
| MkdirAll (dir : string)
| WriteFile (path : string) (data : string).

Global Instance event_eq_dec : EqDecision event.
Proof. solve_decision. Defined.

(** The result of [Exec]: what [LastInsertId] and [RowsAffected] answer
    ([None] when they fail). *)
Record sqlResult : Type := {
  LastInsertId : option Z;
  RowsAffected : option Z
}.

(** The world outside the program, but for the contents of the files (see
    [readFile] below).  Each answer may depend on everything the run has
    done so far.  [drvError] is the [error] a call returns
    ([None] for [nil]); the other fields are the value returned next to a
    [nil] error.  A [map[string]bool] is given as the list of its entries
    in the order a [range] loop visits them. *)
Record Env : Type := {
  drivers : string -> bool;
  pathJoin : string -> string -> string;
  pathDir : string -> string;
  osReadDir : list event -> string -> option (list DirEntry);
  osMkdirAll : list event -> string -> option error;
  osWriteFile : list event -> string -> string -> option error;
  drvError : list event -> Driver -> call -> option error;
  drvMigrations : list event -> Driver -> Z -> list (string * bool);
  drvSchema : list event -> Driver -> string;
  drvResult : list event -> Driver -> string -> sqlResult
}.

(** [m[key]] on a [map[string]bool]: [false] for a missing key. *)
Fixpoint mapGet (m : list (string * bool)) (key : string) : bool :=
  match m with
  | [] => false
  | (k, v) :: rest => if String.eqb k key then v else mapGet rest key
  end.

(** State of a run: the trace, and the handles the running function has
    deferred the closing of (latest first). *)
Record state : Type := {
  trace : list event;
  deferred : list Driver
}.

(** How a computation ends: a value, a returned error, or no end within
    the given number of loop turns (only the loop of [wait] can do that). *)
Inductive outcome (A : Type) : Type :=
| Done (a : A)
| Fail (e : error)
| Diverged.
Arguments Done {A} a.
Arguments Fail {A} e.
Arguments Diverged {A}.

Definition M (A : Type) : Type := state -> state * outcome A.

Definition ret {A} (a : A) : M A := fun st => (st, Done a).
Definition fail {A} (e : error) : M A := fun st => (st, Fail e).
Definition diverge {A} : M A := fun st => (st, Diverged).

Definition bind {A B} (c : M A) (k : A -> M B) : M B :=
  fun st =>
    match c st with
    | (st', Done a) => k a st'
    | (st', Fail e) => (st', Fail e)
    | (st', Diverged) => (st', Diverged)
    end.

Notation "x <- c1 ;; c2" := (bind c1 (fun x => c2))
  (at level 100, c1 at next level, right associativity).
Notation "c1 ;; c2" := (bind c1 (fun _ => c2))
  (at level 100, right associativity).

(** [if err != nil { return err }] *)
Definition check (err : option error) : M unit :=
  match err with
  | None => ret tt
  | Some e => fail e
  end.

(** The error a computation returns, as a value ([_ = f()], [err := f()]). *)
Definition errorOf (c : M unit) : M (option error) :=
  fun st =>
    match c st with
    | (st', Done _) => (st', Done None)
    | (st', Fail e) => (st', Done (Some e))
    | (st', Diverged) => (st', Diverged)
    end.

Definition emit (e : event) : M unit :=
  fun st => ({| trace := trace st ++ [e]; deferred := deferred st |}, Done tt).

Definition history : M (list event) := fun st => (st, Done (trace st)).

(** [defer dbutil.MustClose(handle)] *)
Definition deferClose (d : Driver) : M unit :=
  fun st => ({| trace := trace st; deferred := d :: deferred st |}, Done tt).

(** A function body with its own deferred calls, run when it returns. *)
Definition function {A} (body : M A) : M A :=
  fun st =>
    match body {| trace := trace st; deferred := [] |} with
    | (st', Diverged) => ({| trace := trace st'; deferred := deferred st |}, Diverged)
    | (st', r) =>
        ({| trace := trace st' ++ ((fun d => Call d SqlClose) <$> deferred st');
            deferred := deferred st |}, r)
    end.

Section Run.
Context (env : Env).
(** The answer of [os.ReadFile]: the contents of a file, or an error.  It is
    kept apart from [Env] because properties below compare runs that differ
    in the contents of files only. *)
Context (readFile : list event -> string -> string + error).
Context (db : DB).

(** A call of a driver method that returns only an error. *)
Definition invoke (d : Driver) (c : call) : M (option error) :=
  h <- history ;; emit (Call d c) ;; ret (drvError env h d c).

Definition logf (text : string) : M unit := emit (Log text).
Definition printf (text : string) : M unit := emit (Stdout text).

(** [err.Error()] *)
Fixpoint errText (e : error) : string :=
  match e with
  | ErrParseMissingUp =>
      "dbmate requires each migration to define an up block with '-- migrate:up'"
  | ErrParseUnexpectedStmt =>
      "dbmate does not support statements defined outside of the '-- migrate:up', '-- migrate:up:slave', '-- migrate:down' or '-- migrate:down:slave' blocks"
  | ErrParseDuplicateBlock =>
      "dbmate does not allow multiple blocks of the same type in the same file"
  | ErrNoMigrationFiles => "no migration files found"
  | ErrInvalidURL =>
      "invalid url, have you set your --url flag or DATABASE_URL environment variable?"
  | ErrNoRollback => "can't rollback: no migrations have been applied"
  | ErrNoRollbackSlaves => "can't rollback: slave(s) are out of sync with master"
  | ErrCantConnect => "unable to connect to database"
  | ErrUnsupportedDriver => "unsupported driver"
  | ErrNoMigrationName => "please specify a name for the new migration"
  | ErrMigrationAlreadyExist => "file already exists"
  | ErrMigrationDirNotFound => "could not find migrations directory"
  | ErrMigrationNotFound => "can't find migration file"
  | ErrCreateDirectory => "unable to create directory"
  | Wrapped e rest => errText e +:+ rest
  | External msg => msg
  end.

Definition newDriver (u : URL) : Driver :=
  {| CfgDatabaseURL := u; CfgMigrationsTableName := MigrationsTableName db |}.

Definition GetDriver : Driver + error :=
  match DatabaseURL db with
  | None => inr ErrInvalidURL
  | Some u =>
      if String.eqb (Scheme u) "" then inr ErrInvalidURL
      else if drivers env (Scheme u) then inl (newDriver u)
      else inr (Wrapped ErrUnsupportedDriver (": " +:+ Scheme u))
  end.

Fixpoint slaveDrivers (slaves : list URL) : list Driver + error :=
  match slaves with
  | [] => inl []
  | slave :: rest =>
      if drivers env (Scheme slave) then
        match slaveDrivers rest with
        | inl d => inl (newDriver slave :: d)
        | inr e => inr e
        end
      else inr (Wrapped ErrUnsupportedDriver (": " +:+ Scheme slave))
  end.

Definition GetSlaveDrivers : list Driver + error :=
  match SlaveDatabases db with
  | None => inl []
  | Some slaves => slaveDrivers slaves
  end.

Definition GetAllDrivers : list Driver + error :=
  match GetDriver with
  | inr e => inr e
  | inl drv =>
      match GetSlaveDrivers with
      | inr e => inr e
      | inl slavesDrv => inl ([drv] ++ slavesDrv)
      end
  end.

Definition lift {A} (x : A + error) : M A :=
  match x with
  | inl a => ret a
  | inr e => fail e
  end.

(** [time.Duration] is a 64-bit integer: [i += db.WaitInterval] wraps. *)
Definition wrap64 (z : Z) : Z := (z + 2 ^ 63) mod 2 ^ 64 - 2 ^ 63.

(** The inner loop of [wait]: [i] is the loop variable, [err] the result of
    the last [Ping], [successful] the flag.  The loop has no [break]: it
    runs until [i] reaches [WaitTimeout]. *)
Fixpoint waitLoop (fuel : nat) (drv : Driver) (i : Z) (err : option error)
    (successful : bool) : M (option error * bool) :=
  if i <? WaitTimeout db then
    match fuel with
    | O => diverge
    | S fuel' =>
        logf "." ;;
        emit (Sleep (WaitInterval db)) ;;
        err <- invoke drv DrvPing ;;
        successful <- match err with
                      | None => logf NL ;; ret true
                      | Some _ => ret successful
                      end ;;
        waitLoop fuel' drv (wrap64 (i + WaitInterval db)) err successful
    end
  else ret (err, successful).

(** One turn of the outer loop of [wait]. *)
Definition waitOne (fuel : nat) (drv : Driver) : M unit :=
  err <- invoke drv DrvPing ;;
  r <- match err with
       | None => ret (err, true)
       | Some _ =>
           logf "Waiting for database" ;;
           waitLoop fuel drv 0 err false
       end ;;
  if negb r.2 then
    logf NL ;;
    fail (Wrapped ErrCantConnect
            (": " +:+ match r.1 with Some e => errText e | None => "%!s(<nil>)" end))
  else ret tt.

Fixpoint wait (fuel : nat) (d : list Driver) : M unit :=
  match d with
  | [] => ret tt
  | drv :: rest => waitOne fuel drv ;; wait fuel rest
  end.

Definition Wait (fuel : nat) : M unit :=
  drv <- lift GetDriver ;; wait fuel [drv].

(** [for _, d := range drvs { if err := f(d); err != nil { return err } }] *)
Fixpoint forEach (drvs : list Driver) (f : Driver -> M (option error)) : M unit :=
  match drvs with
  | [] => ret tt
  | d :: rest => err <- f d ;; check err ;; forEach rest f
  end.

Definition Create (fuel : nat) : M unit :=
  drv <- lift GetDriver ;;
  slavesDrv <- lift GetSlaveDrivers ;;
  let drvs := [drv] ++ slavesDrv in
  (if WaitBefore db then wait fuel drvs else ret tt) ;;
  forEach drvs (fun d => invoke d DrvCreateDatabase).

Definition Drop (fuel : nat) : M unit :=
  drvs <- lift GetAllDrivers ;;
  slavesDrv <- lift GetSlaveDrivers ;;
  let drvs := drvs ++ slavesDrv in
  (if WaitBefore db then wait fuel drvs else ret tt) ;;
  forEach drvs (fun drv => invoke drv DrvDropDatabase).

(** [ensureDir] *)
Definition ensureDir (dir : string) : M unit :=
  h <- history ;;
  emit (MkdirAll dir) ;;
  match osMkdirAll env h dir with
  | Some _ => fail (Wrapped ErrCreateDirectory (" `" +:+ dir +:+ "`"))
  | None => ret tt
  end.

Definition openDatabaseForMigration (drv : Driver) : M unit :=
  err <- invoke drv DrvOpen ;;
  check err ;;
  err <- invoke drv DrvCreateMigrationsTable ;;
  match err with
  | Some e => emit (Call drv SqlClose) ;; fail e
  | None => ret tt
  end.

Definition dumpSchema (fuel : nat) (drv : Driver) : M unit :=
  function (
    (if WaitBefore db then wait fuel [drv] else ret tt) ;;
    openDatabaseForMigration drv ;;
    deferClose drv ;;
    h <- history ;;
    err <- invoke drv DrvDumpSchema ;;
    check err ;;
    let schema := drvSchema env h drv in
    logf ("Writing: " +:+ SchemaFile db +:+ NL) ;;
    ensureDir (pathDir env (SchemaFile db)) ;;
    h <- history ;;
    emit (WriteFile (SchemaFile db) schema) ;;
    check (osWriteFile env h (SchemaFile db) schema)).

Definition DumpSchema (fuel : nat) : M unit :=
  drv <- lift GetDriver ;; dumpSchema fuel drv.

Definition doTransaction (d : Driver) (txFunc : M (option error))
    : M (option error) :=
  err <- invoke d SqlBegin ;;
  match err with
  | Some _ => ret err
  | None =>
      err <- txFunc ;;
      match err with
      | Some _ =>
          err1 <- invoke d SqlRollback ;;
          match err1 with
          | Some _ => ret err1
          | None => ret err
          end
      | None => invoke d SqlCommit
      end
  end.

Definition printVerbose (result : sqlResult) : M unit :=
  match LastInsertId result with
  | Some lastInsertID => logf ("Last insert ID: " +:+ pretty lastInsertID +:+ NL)
  | None => ret tt
  end ;;
  match RowsAffected result with
  | Some rowsAffected => logf ("Rows affected: " +:+ pretty rowsAffected +:+ NL)
  | None => ret tt
  end.

(** [findMigrationFiles] and [findMigrationFile], reading the directory. *)
Definition findMigrationFiles (dir : string) (re : regex) : M (list string) :=
  h <- history ;;
  emit (ReadDir dir) ;;
  lift (findMigrationFilesIn (osReadDir env h dir) dir re).

Definition findMigrationFile (dir : string) (ver : string) : M string :=
  h <- history ;;
  emit (ReadDir dir) ;;
  lift (findMigrationFileIn (osReadDir env h dir) dir ver).

(** [parseMigration]: read the file, then parse its contents. *)
Definition parseMigration (path : string) : M Parsed :=
  h <- history ;;
  emit (ReadFile path) ;;
  match readFile h path with
  | inr e => fail e
  | inl data =>
      match parseMigrationContents data with
      | (_, Some e) => fail e
      | (p, None) => ret p
      end
  end.

Definition selectMigrations (drv : Driver) (limit : Z)
    : M (list (string * bool)) :=
  h <- history ;;
  err <- invoke drv (DrvSelectMigrations limit) ;;
  check err ;;
  ret (drvMigrations env h drv limit).

(** The loop that opens the replicas and reads what each has applied.
    [onEach] is the check [Rollback] makes on each answer. *)
Fixpoint openSlaves (slavesDrv : list Driver) (limit : Z)
    (onEach : list (string * bool) -> M unit) : M (list (list (string * bool))) :=
  match slavesDrv with
  | [] => ret []
  | slaveDrv :: rest =>
      openDatabaseForMigration slaveDrv ;;
      deferClose slaveDrv ;;
      m <- selectMigrations slaveDrv limit ;;
      onEach m ;;
      ms <- openSlaves rest limit onEach ;;
      ret (m :: ms)
  end.

(** The closure [getExecMigration(d, m)] of [migrate]: run the block, then
    record the version. *)
Definition execUp (ver : string) (d : Driver) (m : Migration) : M (option error) :=
  h <- history ;;
  err <- invoke d (SqlExec (Contents m)) ;;
  match err with
  | Some _ => ret err
  | None =>
      (if Verbose db then printVerbose (drvResult env h d (Contents m)) else ret tt) ;;
      invoke d (DrvInsertMigration ver)
  end.

(** The closure [getExecMigration(d, m)] of [Rollback]: run the block, then
    remove the version. *)
Definition execDown (latest : string) (d : Driver) (m : Migration) : M (option error) :=
  h <- history ;;
  err <- invoke d (SqlExec (Contents m)) ;;
  match err with
  | Some _ => ret err
  | None =>
      (if Verbose db then printVerbose (drvResult env h d (Contents m)) else ret tt) ;;
      invoke d (DrvDeleteMigration latest)
  end.

(** Run a block on a handle, in a transaction when its option says so. *)
Definition runBlock (d : Driver) (m : Migration) (tx : M (option error))
    : M (option error) :=
  if Transaction (Options m) then doTransaction d tx else tx.

(** The indices of the replicas that have not applied [ver]. *)
Fixpoint slavesWithout (idx : nat) (appliedSlaves : list (list (string * bool)))
    (ver : string) : list nat :=
  match appliedSlaves with
  | [] => []
  | m :: rest =>
      if negb (mapGet m ver) then idx :: slavesWithout (S idx) rest ver
      else slavesWithout (S idx) rest ver
  end.

(** [for idx, slaveDrv := range slavesDrv { ... }] of [migrate]. *)
Fixpoint applySlaves (ver : string) (upSlave : Migration) (idx : nat)
    (slavesDrv : list Driver) : M unit :=
  match slavesDrv with
  | [] => ret tt
  | slaveDrv :: rest =>
      err <- runBlock slaveDrv upSlave (execUp ver slaveDrv upSlave) ;;
      match err with
      | Some e =>
          printf ("- Failed on slave #" +:+ pretty (idx + 1)%nat +:+ ": " +:+ errText e) ;;
          fail e
      | None =>
          printf ("- Applied to slave #" +:+ pretty (idx + 1)%nat +:+ NL) ;;
          applySlaves ver upSlave (S idx) rest
      end
  end.

Definition showBool (b : bool) : string := if b then "true" else "false".

(** The body of the loop of [migrate] over the files. *)
Definition migrateFile (drv : Driver) (slavesDrv : list Driver)
    (applied : list (string * bool))
    (appliedSlaves : list (list (string * bool))) (filename : string) : M unit :=
  let ver := migrationVersion filename in
  let applyToMaster := negb (mapGet applied ver) in
  let applyToSlaves := slavesWithout 0 appliedSlaves ver in
  if (negb applyToMaster && (length applyToSlaves =? 0)%nat)%bool then ret tt
  else
    logf ("Applying: " +:+ filename +:+ " (master: " +:+ showBool applyToMaster
          +:+ ", slaves: " +:+ pretty (length applyToSlaves) +:+ ")" +:+ NL) ;;
    p <- parseMigration (pathJoin env (MigrationsDir db) filename) ;;
    applySlaves ver (upSlave p) 0 slavesDrv ;;
    if applyToMaster then
      err <- runBlock drv (up p) (execUp ver drv (up p)) ;;
      match err with
      | Some e => printf ("- Failed on master: " +:+ errText e) ;; fail e
      | None => printf ("- Applied to master" +:+ NL)
      end
    else ret tt.

Fixpoint migrateFiles (drv : Driver) (slavesDrv : list Driver)
    (applied : list (string * bool))
    (appliedSlaves : list (list (string * bool))) (files : list string) : M unit :=
  match files with
  | [] => ret tt
  | filename :: rest =>
      migrateFile drv slavesDrv applied appliedSlaves filename ;;
      migrateFiles drv slavesDrv applied appliedSlaves rest
  end.

Definition migrate (fuel : nat) (drv : Driver) (slavesDrv : list Driver) : M unit :=
  function (
    files <- findMigrationFiles (MigrationsDir db) migrationFileRegexp ;;
    (if (length files =? 0)%nat then fail ErrNoMigrationFiles else ret tt) ;;
    (if WaitBefore db then wait fuel [drv] ;; wait fuel slavesDrv else ret tt) ;;
    openDatabaseForMigration drv ;;
    deferClose drv ;;
    applied <- selectMigrations drv (-1) ;;
    appliedSlaves <- openSlaves slavesDrv (-1) (fun _ => ret tt) ;;
    migrateFiles drv slavesDrv applied appliedSlaves files ;;
    (if AutoDumpSchema db then errorOf (dumpSchema fuel drv) ;; ret tt else ret tt)).

Definition Migrate (fuel : nat) : M unit :=
  drv <- lift GetDriver ;;
  slavesDrv <- lift GetSlaveDrivers ;;
  migrate fuel drv slavesDrv.

(** [for slaveVer := range appliedSlaves[idx] { if slaveVer != latest ... }] *)
Fixpoint sameLatest (latest : string) (m : list (string * bool)) : M unit :=
  match m with
  | [] => ret tt
  | (slaveVer, _) :: rest =>
      if negb (String.eqb slaveVer latest) then fail ErrNoRollbackSlaves
      else sameLatest latest rest
  end.

(** [for idx, slaveDrv := range slavesDrv { ... }] at the end of [Rollback]. *)
Fixpoint rollbackSlaves (latest : string) (downSlave : Migration) (idx : nat)
    (slavesDrv : list Driver) : M unit :=
  match slavesDrv with
  | [] => ret tt
  | slaveDrv :: rest =>
      err <- runBlock slaveDrv downSlave (execDown latest slaveDrv downSlave) ;;
      match err with
      | Some e =>
          printf ("- Failed on slave #" +:+ pretty (idx + 1)%nat +:+ ": " +:+ errText e) ;;
          fail e
      | None =>
          printf ("- Applied to slave #" +:+ pretty (idx + 1)%nat +:+ NL) ;;
          rollbackSlaves latest downSlave (S idx) rest
      end
  end.

Definition Rollback (fuel : nat) : M unit :=
  function (
    drv <- lift GetDriver ;;
    slavesDrv <- lift GetSlaveDrivers ;;
    (if WaitBefore db then wait fuel [drv] ;; wait fuel slavesDrv else ret tt) ;;
    openDatabaseForMigration drv ;;
    deferClose drv ;;
    applied <- selectMigrations drv 1 ;;
    let latest := default "" (last (fst <$> applied)) in
    (if String.eqb latest "" then fail ErrNoRollback else ret tt) ;;
    filename <- findMigrationFile (MigrationsDir db) latest ;;
    openSlaves slavesDrv 1 (sameLatest latest) ;;
    logf ("Rolling back: " +:+ filename +:+ NL) ;;
    p <- parseMigration (pathJoin env (MigrationsDir db) filename) ;;
    err <- runBlock drv (down p) (execDown latest drv (down p)) ;;
    match err with
    | Some e => printf ("- Failed on master: " +:+ errText e) ;; fail e
    | None => printf ("- Applied to master" +:+ NL)
    end ;;
    rollbackSlaves latest (downSlave p) 0 slavesDrv ;;
    (if AutoDumpSchema db then errorOf (dumpSchema fuel drv) ;; ret tt else ret tt)).

End Run.
End Orchestrator.

(* ===================================================================== *)
(** ** Notions used in the statements                                    *)
(* ===================================================================== *)

Module Notions.
Import GoStrings Regexp Parser Store Orchestrator.

(** Every byte of [s] is in the class [p]. *)
Fixpoint allBytes (p : ascii -> bool) (s : string) : bool :=
  match s with
  | "" => true
  | String c s' => p c && allBytes p s'
  end.

(** The longest prefix of [s] made of bytes of the class [p]. *)
Fixpoint leadingRun (p : ascii -> bool) (s : string) : string :=
  match s with
  | String c s' => if p c then String c (leadingRun p s') else ""
  | "" => ""
  end.

(** The byte before the cursor after the cursor has passed [a]. *)
Fixpoint prevAfter (prev : option ascii) (a : string) : option ascii :=
  match a with
  | "" => prev
  | String c a' => prevAfter (Some c) a'
  end.

(** A continuation is in range for a text of [n] bytes when, called at a
    cursor of that text, it can only answer with a position between the
    cursor and the end of the text. *)
Definition inRangeCont (n : nat) (k : cont) : Prop :=
  forall prev rest pos e,
    (pos + String.length rest = n)%nat ->
    k prev rest pos = Some e -> (pos <= e <= n)%nat.

(** The last byte of a text, and the byte at a position. *)
Fixpoint lastByte (s : string) : option ascii :=
  match s with
  | "" => None
  | String c "" => Some c
  | String _ s' => lastByte s'
  end.

Definition byteAt (s : string) (i : nat) : option ascii :=
  match drop i s with
  | String c _ => Some c
  | "" => None
  end.

(** The matches of a scan: in order, one after the end of the other, each
    at the start of a line and inside the text. *)
Fixpoint lineMatches (s : string) (lo : nat) (ms : list (nat * nat)) : Prop :=
  match ms with
  | [] => True
  | m :: ms' =>
      (lo <= m.1 < m.2)%nat /\ (m.2 <= String.length s)%nat /\
      (m.1 = 0%nat \/ byteAt s (m.1 - 1) = Some LF) /\
      lineMatches s m.2 ms'
  end.

(** The ranges the first loop leaves behind, in closed form: a block runs
    from its directive to one position before the next directive, the last
    block to the end of the text. *)
Fixpoint blocksOf (n : Z) (starts : list Z) : list (Z * Z) :=
  match starts with
  | [] => []
  | p :: rest =>
      (p, match rest with [] => n | q :: _ => q - 1 end) :: blocksOf n rest
  end.

(** The content of a block: the slice the parser takes for it. *)
Definition blockText (contents : string) (b : Z * Z) : string :=
  substring contents b.1 b.2.


(** [pat] occurs in [s]. *)
Definition occurs (pat s : string) : Prop :=
  exists a b, s = a +:+ pat +:+ b.

(** Identifiers: texts without braces. *)
Definition brace (c : ascii) : bool :=
  (Ascii.eqb c "{" || Ascii.eqb c "}")%bool.
Definition noBrace (s : string) : bool := allBytes (fun c => negb (brace c)) s.

(** The wildcard token of an identifier. *)
Definition token (k : string) : string := "{{" +:+ k +:+ "}}".

(** The state after some more events. *)
Definition after (st : state) (evs : list event) (ds : list Driver) : state :=
  {| trace := trace st ++ evs; deferred := ds ++ deferred st |}.

(** The events that execute a block or delete a version. *)
Definition writes (e : event) : bool :=
  match e with
  | Call _ (SqlExec _) | Call _ (DrvDeleteMigration _) => true
  | _ => false
  end.

End Notions.

(* ===================================================================== *)
(** ** Scenarios                                                         *)
(* ===================================================================== *)

Module Scenario.
Import GoStrings Regexp Parser Store Orchestrator.

Definition url (host : string) : URL :=
  {| Scheme := "postgres"; Opaque := host |}.

Definition primary : Driver :=
  {| CfgDatabaseURL := url "master"; CfgMigrationsTableName := "schema_migrations" |}.
Definition replica0 : Driver :=
  {| CfgDatabaseURL := url "slave0"; CfgMigrationsTableName := "schema_migrations" |}.
Definition replica1 : Driver :=
  {| CfgDatabaseURL := url "slave1"; CfgMigrationsTableName := "schema_migrations" |}.

(** A database with the primary and [slaves] as replicas, set up as [New]
    does, with a wait of three intervals of one second. *)
Definition newDB (slaves : list URL) : DB :=
  {| AutoDumpSchema := true;
     DatabaseURL := Some (url "master");
     SlaveDatabases := Some slaves;
     MigrationsDir := "./db/migrations";
     MigrationsTableName := "schema_migrations";
     SchemaFile := "./db/schema.sql";
     Verbose := false;
     WaitBefore := false;
     WaitInterval := 1000000000;
     WaitTimeout := 3000000000 |}.

(** The migration of testdata/db/migrations. *)
Definition testMigrationName : string := "20151129054053_test_migration.sql".
Definition testMigration : string :=
"-- migrate:up
create table users (
  id integer,
  name varchar(255)
);
insert into users (id, name) values (1, 'alice');

-- migrate:down
drop table users;

-- migrate:up:slave

create table users (
  id integer,
  name varchar(255)
);

-- migrate:down:slave

drop table users;
".

(** A world in which the migrations directory holds the test migration,
    each database has the ledger [ledger] gives, and the calls fail as
    [errors] says. *)
Definition world (ledger : Driver -> list (string * bool))
    (errors : list event -> Driver -> call -> option error) : Env :=
  {| drivers := fun _ => true;
     pathJoin := fun dir name => dir +:+ "/" +:+ name;
     pathDir := fun _ => "db";
     osReadDir := fun _ _ => Some [{| Name := testMigrationName; IsDir := false |}];
     osMkdirAll := fun _ _ => None;
     osWriteFile := fun _ _ _ => None;
     drvError := errors;
     drvMigrations := fun _ d _ => ledger d;
     drvSchema := fun _ _ => "";
     drvResult := fun _ _ _ => {| LastInsertId := None; RowsAffected := None |} |}.

(** Every call succeeds. *)
Definition calm (ledger : Driver -> list (string * bool)) : Env :=
  world ledger (fun _ _ _ => None).

(** The first [Ping] of a database fails, every later one succeeds. *)
Definition refusedOnce : list event -> Driver -> call -> option error :=
  fun h d c =>
    match c with
    | DrvPing =>
        if bool_decide (Call d DrvPing ∈ h) then None
        else Some (External "connection refused")
    | _ => None
    end.

Definition testFiles : list event -> string -> string + error :=
  fun _ _ => inl testMigration.

Definition testParsed : Parsed := (parseMigrationContents testMigration).1.

Definition testVersion : string := "20151129054053".

(** The ledger of a database that has applied the test migration. *)
Definition appliedTest : list (string * bool) := [(testVersion, true)].

Definition start : state := {| trace := []; deferred := [] |}.

(** The calls a run has made on one database. *)
Definition callsOn (d : Driver) (tr : list event) : list call :=
  omap (fun e => match e with
                 | Call d' c => if bool_decide (d' = d) then Some c else None
                 | _ => None
                 end) tr.

(** The input of the test "Typical use case". *)
Definition typicalUseCase : string :=
"-- migrate:up
create table users (id serial, name text);
-- migrate:down
drop table users;".

(** A statement, then a [down] block only. *)
Definition onlyDown : string :=
"CREATE TYPE status_type AS ENUM ('active', 'inactive');
-- migrate:down
drop table users;
".

(** A statement, then two [up] blocks. *)
Definition twoUps : string :=
"CREATE TYPE status_type AS ENUM ('active', 'inactive');
-- migrate:up
create table users (id serial);
-- migrate:up
create table users (id serial);
".

(** The input of the test "does *not* allow arbitrary statements preceding
    the migrate blocks". *)
Definition statementFirst : string :=
"
-- create status_type
CREATE TYPE status_type AS ENUM ('active', 'inactive');

-- migrate:up
ALTER TABLE users
ADD COLUMN status status_type DEFAULT 'active';

-- migrate:down
ALTER TABLE users
DROP COLUMN status;
".

(** A text that is no migration. *)
Definition garbage : string := "drop everything".

(** The files of the test directory, the test migration replaced by a text
    that is no migration. *)
Definition brokenFiles : list event -> string -> string + error :=
  fun h path =>
    if String.eqb path ("./db/migrations/" +:+ testMigrationName)
    then inl garbage else testFiles h path.

(** What a test case of [TestParseMigrationContents] looks at: the four
    contents, the four [Transaction()] answers and the error. *)
Definition observe (contents : string) :=
  let r := parseMigrationContents contents in
  ((Contents (up r.1), Contents (down r.1),
    Contents (upSlave r.1), Contents (downSlave r.1)),
   (Transaction (Options (up r.1)), Transaction (Options (down r.1)),
    Transaction (Options (upSlave r.1)), Transaction (Options (downSlave r.1))),
   r.2).

(** The input of "Test all wildcards" in [TestParseMigrationContentsReplaced],
    and the mapping the test expects of the driver. *)
Definition allWildcards : string :=
"-- migrate:up
-- DB_NAME: {{DB_NAME}}
-- DB_USER: {{DB_USER}}
-- DB_PASS: {{DB_PASS}}
-- DB_SCHEMA: {{DB_SCHEMA}}
".

Definition testWildcards : list (string * string) :=
  [("DB_NAME", "dbmate_slave"); ("DB_USER", "replicant");
   ("DB_PASS", "abc123"); ("DB_SCHEMA", "public")].

End Scenario.

(* ===================================================================== *)
(** ** The pieces of a text between the occurrences of another           *)
(* ===================================================================== *)

Module ReplaceNotions.
Import GoStrings Regexp Parser Store Orchestrator Notions Scenario.

(** No occurrence of [old] begins inside [p] when [old] follows [p]: the
    leftmost occurrence of [old] in [p ++ old ++ ...] is the one after [p]. *)
Definition firstAt (old p : string) : Prop :=
  forall a b, p +:+ old = a +:+ old +:+ b -> (String.length p <= String.length a)%nat.

(** The pieces of a text between the non-overlapping occurrences of [old],
    taken from left to right, each occurrence being the leftmost one in what
    is left of the text. *)
Inductive cutAt (old : string) : string -> list string -> Prop :=
| cut_last (p : string) : ~ occurs old p -> cutAt old p [p]
| cut_more (p rest : string) (ps : list string) :
    firstAt old p -> cutAt old rest ps -> cutAt old (p +:+ old +:+ rest) (p :: ps).

(** The pieces put together again with [sep] between them. *)
Fixpoint joinWith (sep : string) (ps : list string) : string :=
  match ps with
  | [] => ""
  | p :: rest =>
      match rest with
      | [] => p
      | _ => p +:+ sep +:+ joinWith sep rest
      end
  end.

End ReplaceNotions.

(* ===================================================================== *)
(** ** db.go: the other commands                                         *)
(* ===================================================================== *)

Module Commands.
Import GoStrings Regexp Parser Store Orchestrator Notions Scenario.

Definition DefaultMigrationsDir : string := "./db/migrations".
Definition DefaultMigrationsTableName : string := "schema_migrations".
Definition DefaultSchemaFile : string := "./db/schema.sql".
(** [time.Second]: a [time.Duration] counts nanoseconds. *)
Definition Second : Z := 1000000000.
Definition DefaultWaitInterval : Z := Second.
Definition DefaultWaitTimeout : Z := 60 * Second.

(** [New]; [Verbose] is not set and has the zero value. *)
Definition New (databaseURL : option URL) (slaveDatabases : option (list URL)) : DB :=
  {| AutoDumpSchema := true;
     DatabaseURL := databaseURL;
     SlaveDatabases := slaveDatabases;
     MigrationsDir := DefaultMigrationsDir;
     MigrationsTableName := DefaultMigrationsTableName;
     SchemaFile := DefaultSchemaFile;
     Verbose := false;
     WaitBefore := false;
     WaitInterval := DefaultWaitInterval;
     WaitTimeout := DefaultWaitTimeout |}.

(** [type StatusResult struct] *)
Record StatusResult : Type := {
  Filename : string;
  Applied : bool
}.

Section Run.
Context (env : Env).
(** The value [DatabaseExists] and [MigrationsTableExists] return next to
    their error. *)
Context (drvExists : list event -> Driver -> bool).
Context (drvTableExists : list event -> Driver -> bool).
Context (readFile : list event -> string -> string + error).
Context (db : DB).

(** [exists, err := drv.DatabaseExists()
     if err == nil && !exists { if err := drv.CreateDatabase(); ... }] *)
Definition createIfMissing (drv : Driver) : M unit :=
  h <- history ;;
  err <- invoke env drv DrvDatabaseExists ;;
  let exists_ := drvExists h drv in
  if (bool_decide (err = None) && negb exists_)%bool then
    err <- invoke env drv DrvCreateDatabase ;;
    check err
  else ret tt.

Fixpoint createMissing (slavesDrv : list Driver) : M unit :=
  match slavesDrv with
  | [] => ret tt
  | slaveDrv :: rest => createIfMissing slaveDrv ;; createMissing rest
  end.

Definition CreateAndMigrate (fuel : nat) : M unit :=
  drv <- lift (GetDriver env db) ;;
  slavesDrv <- lift (GetSlaveDrivers env db) ;;
  (if WaitBefore db then wait env db fuel ([drv] ++ slavesDrv) else ret tt) ;;
  createIfMissing drv ;;
  createMissing slavesDrv ;;
  migrate env readFile db fuel drv slavesDrv.

Definition statusOf (applied : list (string * bool)) (filename : string)
    : StatusResult :=
  {| Filename := filename;
     Applied := mapGet applied (migrationVersion filename) |}.

Definition CheckMigrationsStatus (drv : Driver) : M (list StatusResult) :=
  function (
    files <- findMigrationFiles env (MigrationsDir db) migrationFileRegexp ;;
    (if (length files =? 0)%nat then fail ErrNoMigrationFiles else ret tt) ;;
    err <- invoke env drv DrvOpen ;;
    check err ;;
    deferClose drv ;;
    h <- history ;;
    err <- invoke env drv DrvMigrationsTableExists ;;
    check err ;;
    let migrationsTableExists := drvTableExists h drv in
    applied <- (if migrationsTableExists then selectMigrations env drv (-1)
                else ret []) ;;
    ret (statusOf applied <$> files)).

(** The loop of [Status] over the results. *)
Fixpoint statusLoop (quiet : bool) (results : list StatusResult)
    (totalApplied : Z) : M Z :=
  match results with
  | [] => ret totalApplied
  | res :: rest =>
      let line := if Applied res then "[X] " +:+ Filename res
                  else "[ ] " +:+ Filename res in
      let totalApplied := if Applied res then totalApplied + 1 else totalApplied in
      (if negb quiet then logf (line +:+ NL) else ret tt) ;;
      statusLoop quiet rest totalApplied
  end.

(** [Status]: the number of pending migrations; a returned error (which the
    code pairs with [-1]) is the failure of the computation. *)
Definition Status (quiet : bool) : M Z :=
  drv <- lift (GetDriver env db) ;;
  results <- CheckMigrationsStatus drv ;;
  totalApplied <- statusLoop quiet results 0 ;;
  let totalPending := Z.of_nat (length results) - totalApplied in
  (if negb quiet then
     logf NL ;;
     logf ("Applied: " +:+ pretty totalApplied +:+ NL) ;;
     logf ("Pending: " +:+ pretty totalPending +:+ NL)
   else ret tt) ;;
  ret totalPending.

End Run.

(** [const migrationTemplate] *)
Definition migrationTemplate : string :=
"-- migrate:up


-- migrate:down

".

(** [NewMigration] works on the clock and on files only.  The answer of
    [os.Stat]: no error, an error for which [os.IsNotExist] holds, another
    error. *)
Inductive statAnswer : Type :=
| StatFound
| StatNotExist
| StatError (e : error).

Record Files : Type := {
  clock : string;            (* time.Now().UTC().Format("20060102150405") *)
  fsJoin : string -> string -> string;
  fsMkdirAll : string -> option error;
  fsStat : string -> statAnswer;
  fsCreate : string -> option error;
  fsWriteString : string -> string -> option error
}.

Inductive fileEvent : Type :=
| FMkdirAll (dir : string)
| FLog (text : string)
| FStat (path : string)
| FCreate (path : string)
| FWriteString (path : string) (data : string)
| FClose (path : string).

(** [func (db *DB) NewMigration(name string) error]: what it does, in order,
    and the error it returns.  The deferred [dbutil.MustClose(file)] runs
    after [WriteString]; as for the handles of the databases, closing is
    recorded and taken to succeed. *)
Definition NewMigration (fs : Files) (db : DB) (name : string)
    : list fileEvent * option error :=
  let timestamp := clock fs in
  if String.eqb name "" then ([], Some ErrNoMigrationName) else
  let name := timestamp +:+ "_" +:+ name +:+ ".sql" in
  match fsMkdirAll fs (MigrationsDir db) with
  | Some _ =>
      ([FMkdirAll (MigrationsDir db)],
       Some (Wrapped ErrCreateDirectory (" `" +:+ MigrationsDir db +:+ "`")))
  | None =>
      let path := fsJoin fs (MigrationsDir db) name in
      let sofar := [FMkdirAll (MigrationsDir db);
                    FLog ("Creating migration: " +:+ path +:+ NL);
                    FStat path] in
      match fsStat fs path with
      | StatNotExist =>
          match fsCreate fs path with
          | Some e => (sofar ++ [FCreate path], Some e)
          | None =>
              (sofar ++ [FCreate path; FWriteString path migrationTemplate;
                         FClose path],
               fsWriteString fs path migrationTemplate)
          end
      | _ => (sofar, Some ErrMigrationAlreadyExist)
      end
  end.

End Commands.

(* ===================================================================== *)
(** ** What a command may do                                             *)
(* ===================================================================== *)

Module Behaviour.
Import GoStrings Regexp Parser Store Orchestrator Notions Scenario.
Import Commands.

(** A computation that, from every state, does only events in [P], defers
    the closing of handles in [Q] only, and ends in an outcome in [R]. *)
Definition does {A} (P : event -> Prop) (Q : Driver -> Prop)
    (R : outcome A -> Prop) (c : M A) : Prop :=
  forall st, exists evs ds,
    (c st).1 = after st evs ds /\ Forall P evs /\ Forall Q ds /\ R (c st).2.

Definition any {A} : A -> Prop := fun _ => True.
Definition notDone {A} (o : outcome A) : Prop := forall a, o <> Done a.

(** The databases of a [DB]: the primary, then the replicas. *)
Definition allDrivers (env : Env) (db : DB) : list Driver :=
  match GetAllDrivers env db with
  | inl ds => ds
  | inr _ => []
  end.

(** Events within the reach of a command: calls in [allowed] on the
    databases of the [DB], pauses of [WaitInterval], reads of the migrations
    directory and of files in it, the schema file and its directory written,
    and output. *)
Definition footprint (env : Env) (db : DB) (allowed : call -> bool)
    (e : event) : Prop :=
  match e with
  | Call d c => d ∈ allDrivers env db /\ allowed c = true
  | Sleep z => z = WaitInterval db
  | ReadDir dir => dir = MigrationsDir db
  | ReadFile path => exists filename, path = pathJoin env (MigrationsDir db) filename
  | MkdirAll dir => dir = pathDir env (SchemaFile db)
  | WriteFile path _ => path = SchemaFile db
  | Log _ | Stdout _ => True
  end.

(** The driver calls of [Migrate], of [Rollback] and of [Status]. *)
Definition migrateCalls (c : call) : bool :=
  match c with
  | DrvPing | DrvOpen | DrvCreateMigrationsTable | DrvSelectMigrations _
  | SqlBegin | SqlExec _ | DrvInsertMigration _ | SqlCommit | SqlRollback
  | DrvDumpSchema | SqlClose => true
  | _ => false
  end.

Definition rollbackCalls (c : call) : bool :=
  match c with
  | DrvPing | DrvOpen | DrvCreateMigrationsTable | DrvSelectMigrations _
  | SqlBegin | SqlExec _ | DrvDeleteMigration _ | SqlCommit | SqlRollback
  | DrvDumpSchema | SqlClose => true
  | _ => false
  end.

Definition statusCalls (c : call) : bool :=
  match c with
  | DrvOpen | DrvMigrationsTableExists | DrvSelectMigrations _ | SqlClose => true
  | _ => false
  end.

(** Events within the reach of [Status]: calls that read, on the primary;
    the migrations directory read; output to the log. *)
Definition statusMay (env : Env) (db : DB) (e : event) : Prop :=
  match e with
  | Call d c => GetDriver env db = inl d /\ statusCalls c = true
  | ReadDir dir => dir = MigrationsDir db
  | Log _ => True
  | _ => False
  end.

End Behaviour.

(* ===================================================================== *)
(** ** The loop of [wait]                                                *)
(* ===================================================================== *)

Module WaitNotions.
Import GoStrings Regexp Parser Store Orchestrator Notions Scenario.
Import Commands.

(** The number of turns the loop of [wait] takes from [i] on, when
    [WaitInterval] is positive: the least [n] with
    [i + n * WaitInterval >= WaitTimeout]. *)
Definition turnsFrom (db : DB) (i : Z) : nat :=
  Z.to_nat ((WaitTimeout db - i + WaitInterval db - 1) / WaitInterval db).
Definition turns (db : DB) : nat := turnsFrom db 0.

Definition isSleep (e : event) : bool :=
  match e with
  | Sleep _ => true
  | _ => false
  end.

(** One turn of the loop on a database that does not answer. *)
Definition failedTurn (db : DB) (drv : Driver) : list event :=
  [Log "."; Sleep (WaitInterval db); Call drv DrvPing].
End WaitNotions.

(* ===================================================================== *)
(** ** Runs with and without the schema dump                             *)
(* ===================================================================== *)

Module DumpNotions.
Import GoStrings Regexp Parser Store Orchestrator Notions Scenario.
Import Commands.

(** A [DB] with another [AutoDumpSchema]. *)
Definition setAutoDumpSchema (b : bool) (db : DB) : DB :=
  {| AutoDumpSchema := b;
     DatabaseURL := DatabaseURL db;
     SlaveDatabases := SlaveDatabases db;
     MigrationsDir := MigrationsDir db;
     MigrationsTableName := MigrationsTableName db;
     SchemaFile := SchemaFile db;
     Verbose := Verbose db;
     WaitBefore := WaitBefore db;
     WaitInterval := WaitInterval db;
     WaitTimeout := WaitTimeout db |}.

(** Two runs with the same outcome, of which the first did [extra] events
    more just before its end. *)
Definition sameBut {A} (extra : list event) (r1 r2 : state * outcome A) : Prop :=
  r1.2 = r2.2 /\ deferred r1.1 = deferred r2.1 /\
  trace r1.1 = trace r2.1 ++ extra.
End DumpNotions.

(* ===================================================================== *)
(** ** The calls of a run in which every call succeeds                   *)
(* ===================================================================== *)

Module CalmNotions.
Import GoStrings Regexp Parser Store Orchestrator Notions Scenario.
Import Commands.

(** The calls that run a block [m] on a database and then record the
    version with the call [record]: inside a transaction unless the block
    says [transaction:false]. *)
Definition blockCalls (m : Migration) (record : call) : list call :=
  let body := [SqlExec (Contents m); record] in
  if Transaction (Options m) then [SqlBegin] ++ body ++ [SqlCommit] else body.

(** The calls of the schema dump on the primary. *)
Definition dumpCalls (db : DB) : list call :=
  if AutoDumpSchema db
  then [DrvOpen; DrvCreateMigrationsTable; DrvDumpSchema; SqlClose]
  else [].

(** The calls of [migrate] on the primary for one file, whose contents
    [contentOf] gives. *)
Definition upCalls (contentOf : string -> string) (filename : string) : list call :=
  blockCalls (up (parseMigrationContents (contentOf filename)).1)
    (DrvInsertMigration (migrationVersion filename)).

(** A file whose version is not in the ledger [applied]. *)
Definition pending (applied : list (string * bool)) (filename : string) : bool :=
  negb (mapGet applied (migrationVersion filename)).

(** An event that is no call on the database [d]. *)
Definition apartFrom (d : Driver) (e : event) : Prop :=
  match e with
  | Call d' _ => d' <> d
  | _ => True
  end.

End CalmNotions.

(* ===================================================================== *)
(** ** The output of [Status]                                            *)
(* ===================================================================== *)

Module StatusNotions.
Import GoStrings Regexp Parser Store Orchestrator Notions Scenario.
Import Commands.

(** The line [Status] prints for a result. *)
Definition statusLine (res : StatusResult) : string :=
  (if Applied res then "[X] " +:+ Filename res else "[ ] " +:+ Filename res) +:+ NL.

(** What a run has written to the log. *)
Definition logged (e : event) : option string :=
  match e with
  | Log text => Some text
  | _ => None
  end.

End StatusNotions.

(* ===================================================================== *)
(** ** The files of a version                                            *)
(* ===================================================================== *)

Module StoreNotions.
Import GoStrings Regexp Parser Store Orchestrator Notions Scenario.
Import Commands.

(** A file of a directory that [findMigrationFile] takes for a file of the
    version [ver]: no directory, and named [ver], then bytes other than line
    feeds, then [.sql]. *)
Definition candidate (files : list DirEntry) (ver : string) (name : string) : Prop :=
  exists entry, entry ∈ files /\ Name entry = name /\ IsDir entry = false /\
    exists mid, name = ver +:+ mid +:+ ".sql" /\ allBytes anyButLF mid = true.

End StoreNotions.

(* ===================================================================== *)
(** ** The blocks of a migration file                                    *)
(* ===================================================================== *)

Module BlockNotions.
Import GoStrings Regexp Parser Store Orchestrator Notions Scenario.
Import Commands.

(** The four kinds of block, with the expression that recognises a block of
    the kind and the result that receives it. *)
Inductive kind : Type := KUp | KDown | KUpSlave | KDownSlave.

Definition kindRegExp (k : kind) : regex :=
  match k with
  | KUp => upRegExp
  | KDown => downRegExp
  | KUpSlave => upSlaveRegExp
  | KDownSlave => downSlaveRegExp
  end.

Definition slot (k : kind) (p : Parsed) : Migration :=
  match k with
  | KUp => up p
  | KDown => down p
  | KUpSlave => upSlave p
  | KDownSlave => downSlave p
  end.

(** The blocks of a text that are recognised as blocks of the kind [k]. *)
Definition blocksOfKind (contents : string) (k : kind) (blocks : list (Z * Z))
    : list (Z * Z) :=
  List.filter (fun b => MatchString (kindRegExp k) (blockText contents b)) blocks.

(** A directive: [--], white space, [migrate:], [up] or [down], and
    [:slave] or nothing. *)
Definition directive (d : string) : Prop :=
  exists ws dir slave,
    d = "--" +:+ ws +:+ "migrate:" +:+ dir +:+ slave /\
    allBytes space ws = true /\
    (dir = "up" \/ dir = "down") /\ (slave = "" \/ slave = ":slave").

(** A match of the scan: a directive and its separator, at its position. *)
Definition found (s : string) (m : nat * nat) : Prop :=
  exists d sep tail,
    drop m.1 s = d +:+ String sep tail /\ directive d /\
    (sep = " "%char \/ sep = LF) /\ m.2 = (m.1 + String.length d + 1)%nat.

(** A block that holds the text [s]. *)
Definition filled (s : string) : Migration :=
  {| Contents := s; Options := parseMigrationOptions s |}.

End BlockNotions.

(* ===================================================================== *)
(** ** The options of a block                                            *)
(* ===================================================================== *)

Module OptionNotions.
Import GoStrings Regexp Parser Store Orchestrator Notions Scenario.
Import Commands.

(** A byte other than [c]. *)
Definition isNot (c : ascii) (x : ascii) : bool := negb (Ascii.eqb x c).

(** What is left to split from [beg] on, given the matches from the
    cursor on. *)
Definition pieces (s : string) (beg : Z) (ms : list (Z * Z)) : list string :=
  between s beg ms ++ [slice s (default beg (last (snd <$> ms))) (len s)].

End OptionNotions.

(* ===================================================================== *)
(** ** Running one block                                                 *)
(* ===================================================================== *)

Module BlockRunNotions.
Import GoStrings Regexp Parser Store Orchestrator Notions Scenario.
Import Commands.

(** The calls that the events [evs], done after the history [h], make on
    the database [d], each with the error it returned ([None] when it
    succeeded). *)
Fixpoint answered (env : Env) (h : list event) (evs : list event) (d : Driver)
    : list (call * option error) :=
  match evs with
  | [] => []
  | e :: rest =>
      match e with
      | Call d' c => if bool_decide (d' = d) then [(c, drvError env h d c)] else []
      | _ => []
      end ++ answered env (h ++ [e]) rest d
  end.

(** What is returned when a block has failed with [e] and the [Rollback] of
    the transaction has answered [r]: the error of the [Rollback] if it has
    failed too, else [e]. *)
Definition afterRollback (e : error) (r : option error) : option error :=
  match r with
  | Some e1 => Some e1
  | None => Some e
  end.

(** What running a block [m] and recording it with [record] comes to: the
    calls made on the database with their answers, [answers], and the error
    returned, [err].  In a transaction: [Begin] fails; or the statement
    fails and the transaction is rolled back; or the record fails and the
    transaction is rolled back; or both succeed and the transaction is
    committed.  Without: the statement fails; or it succeeds and the record
    is made. *)
Definition blockRun (m : Migration) (record : call)
    (answers : list (call * option error)) (err : option error) : Prop :=
  if Transaction (Options m) then
    (exists e, answers = [(SqlBegin, Some e)] /\ err = Some e) \/
    (exists e r,
       answers = [(SqlBegin, None); (SqlExec (Contents m), Some e); (SqlRollback, r)] /\
       err = afterRollback e r) \/
    (exists e r,
       answers = [(SqlBegin, None); (SqlExec (Contents m), None); (record, Some e);
                  (SqlRollback, r)] /\
       err = afterRollback e r) \/
    answers = [(SqlBegin, None); (SqlExec (Contents m), None); (record, None);
               (SqlCommit, err)]
  else
    (exists e, answers = [(SqlExec (Contents m), Some e)] /\ err = Some e) \/
    answers = [(SqlExec (Contents m), None); (record, err)].

(** A call on the database [d], or a line of the log. *)
Definition callOrLog (d : Driver) (e : event) : Prop :=
  match e with
  | Call d' _ => d' = d
  | Log _ => True
  | _ => False
  end.

End BlockRunNotions.

(* ===================================================================== *)
(** ** One call on each database                                         *)
(* ===================================================================== *)

Module EachNotions.
Import GoStrings Regexp Parser Store Orchestrator Notions Scenario.
Import Commands.



End EachNotions.

(* ===================================================================== *)
(** ** Handles opened and closed                                         *)
(* ===================================================================== *)

Module HandleNotions.
Import GoStrings Regexp Parser Store Orchestrator Notions Scenario.
Import Commands.

(** The number of handles of the database [d] that the events [evs], done
    after the history [h], have opened: an [Open] counts when it succeeds. *)
Fixpoint opened (env : Env) (h : list event) (evs : list event) (d : Driver) : nat :=
  match evs with
  | [] => 0
  | e :: rest =>
      (if bool_decide (e = Call d DrvOpen)
       then match drvError env h d DrvOpen with None => 1 | Some _ => 0 end
       else 0)
      + opened env (h ++ [e]) rest d
  end%nat.

(** The number of handles of [d] that [evs] have closed. *)
Definition closed (evs : list event) (d : Driver) : nat :=
  length (List.filter (fun e => bool_decide (e = Call d SqlClose)) evs).

(** The number of times [d] is in the list [ds] of deferred handles. *)
Definition held (ds : list Driver) (d : Driver) : nat :=
  length (List.filter (fun x => bool_decide (x = d)) ds).

(** A computation that, unless it goes on for ever, has closed or deferred
    the closing of every handle it has opened. *)
Definition balanced {A} (env : Env) (c : M A) : Prop :=
  forall st, exists evs ds,
    (c st).1 = after st evs ds /\
    ((c st).2 <> Diverged ->
     forall d, opened env (trace st) evs d = (closed evs d + held ds d)%nat).

(** A computation that, unless it goes on for ever, has closed every handle
    it has opened, and leaves the deferred handles as they were. *)
Definition settled {A} (env : Env) (c : M A) : Prop :=
  forall st, exists evs,
    (c st).1 = after st evs [] /\
    ((c st).2 <> Diverged ->
     forall d, opened env (trace st) evs d = closed evs d).

(** An event that opens and closes nothing. *)
Definition quiet (e : event) : Prop :=
  match e with
  | Call _ DrvOpen | Call _ SqlClose => False
  | _ => True
  end.

End HandleNotions.

(* ===================================================================== *)
(** ** The commands                                                      *)
(* ===================================================================== *)

Module DriverNotions.
Import GoStrings Regexp Parser Store Orchestrator Notions Scenario.
Import Commands.

Import Commands.

(** The commands that need the primary's driver, and those among them that
    need the replicas' drivers too, as computations that return nothing. *)
Definition commands (env : Env) (drvExists drvTableExists : list event -> Driver -> bool)
    (rf : list event -> string -> string + error) (db : DB) (fuel : nat)
    (quiet : bool) : list (M unit) :=
  [Wait env db fuel; DumpSchema env db fuel;
   (Status env drvTableExists db quiet ;; ret tt)]
  ++ [Create env db fuel; Drop env db fuel; Migrate env rf db fuel;
      Rollback env rf db fuel; CreateAndMigrate env drvExists rf db fuel].

Definition replicaCommands (env : Env) (drvExists : list event -> Driver -> bool)
    (rf : list event -> string -> string + error) (db : DB) (fuel : nat)
    : list (M unit) :=
  [Create env db fuel; Drop env db fuel; Migrate env rf db fuel;
   Rollback env rf db fuel; CreateAndMigrate env drvExists rf db fuel].

End DriverNotions.

(* ===================================================================== *)
(** ** More sample inputs                                                *)
(* ===================================================================== *)

Module Cases.
Import GoStrings Regexp Parser Store Orchestrator Notions Scenario.
Import Commands.

(** A database that never answers [Ping]. *)
Definition unreachable : list event -> Driver -> call -> option error :=
  fun _ _ c =>
    match c with
    | DrvPing => Some (External "connection refused")
    | _ => None
    end.

(** [newDB] with a wait interval of zero. *)
Definition noPause : DB :=
  {| AutoDumpSchema := true;
     DatabaseURL := Some (url "master");
     SlaveDatabases := Some [];
     MigrationsDir := "./db/migrations";
     MigrationsTableName := "schema_migrations";
     SchemaFile := "./db/schema.sql";
     Verbose := false;
     WaitBefore := false;
     WaitInterval := 0;
     WaitTimeout := 3000000000 |}.

(** A database server on which [CreateDatabase] is refused. *)
Definition createDenied : list event -> Driver -> call -> option error :=
  fun _ _ c =>
    match c with
    | DrvCreateDatabase => Some (External "permission denied")
    | _ => None
    end.

(** A database on which every statement fails. *)
Definition execDenied : list event -> Driver -> call -> option error :=
  fun _ _ c =>
    match c with
    | SqlExec _ => Some (External "syntax error")
    | _ => None
    end.

(** The world of [calm] with another answer of the directory read. *)
Definition withDir (entries : option (list DirEntry)) : Env :=
  {| drivers := fun _ => true;
     pathJoin := fun dir name => dir +:+ "/" +:+ name;
     pathDir := fun _ => "db";
     osReadDir := fun _ _ => entries;
     osMkdirAll := fun _ _ => None;
     osWriteFile := fun _ _ _ => None;
     drvError := fun _ _ _ => None;
     drvMigrations := fun _ _ _ => [];
     drvSchema := fun _ _ => "";
     drvResult := fun _ _ _ => {| LastInsertId := None; RowsAffected := None |} |}.

(** Two files whose names begin with [2015]. *)
Definition twoFiles : list DirEntry :=
  [{| Name := "2015_a.sql"; IsDir := false |};
   {| Name := "20151_b.sql"; IsDir := false |}].

(** A world in which only the [postgres] driver is registered. *)
Definition onlyPostgres : Env :=
  {| drivers := fun scheme => String.eqb scheme "postgres";
     pathJoin := fun dir name => dir +:+ "/" +:+ name;
     pathDir := fun _ => "db";
     osReadDir := fun _ _ => None;
     osMkdirAll := fun _ _ => None;
     osWriteFile := fun _ _ _ => None;
     drvError := fun _ _ _ => None;
     drvMigrations := fun _ _ _ => [];
     drvSchema := fun _ _ => "";
     drvResult := fun _ _ _ => {| LastInsertId := None; RowsAffected := None |} |}.

Definition oracle : URL := {| Scheme := "oracle"; Opaque := "slave1" |}.

(** A clock and a file system on which every operation succeeds and no
    file exists yet. *)
Definition freshFiles : Files :=
  {| clock := "20151129054053";
     fsJoin := fun dir name => dir +:+ "/" +:+ name;
     fsMkdirAll := fun _ => None;
     fsStat := fun _ => StatNotExist;
     fsCreate := fun _ => None;
     fsWriteString := fun _ _ => None |}.

(** A ledger that differs on the replica. *)
Definition otherOnReplica (d : Driver) : list (string * bool) :=
  if bool_decide (d = replica0) then [("20140101000000", true)] else appliedTest.

End Cases.

(* ===================================================================== *)
(** ** Facts about Go strings                                            *)
(* ===================================================================== *)

Module StringFacts.
Import GoStrings.

Lemma str_app_nil_l (s : string) : "" +:+ s = s.
Proof. reflexivity. Qed.

Lemma str_app_cons (c : ascii) (a b : string) :
  String c a +:+ b = String c (a +:+ b).
Proof. reflexivity. Qed.

Lemma str_app_nil_r (s : string) : s +:+ "" = s.
Proof.
  induction s as [|c s IH]; [reflexivity | by rewrite str_app_cons, IH].
Qed.

Lemma str_app_assoc (a b c : string) : (a +:+ b) +:+ c = a +:+ (b +:+ c).
Proof.
  induction a as [|x a IH]; [reflexivity | by rewrite !str_app_cons, IH].
Qed.

Lemma str_length_app (a b : string) :
  String.length (a +:+ b) = (String.length a + String.length b)%nat.
Proof.
  induction a as [|x a IH]; [reflexivity | rewrite str_app_cons; simpl; by rewrite IH].
Qed.

Lemma str_take_drop (n : nat) (s : string) : take n s +:+ drop n s = s.
Proof.
  revert s; induction n as [|n IH]; intros [|c s]; simpl; try reflexivity.
  by rewrite str_app_cons, IH.
Qed.

Lemma str_drop_0 (s : string) : drop 0 s = s.
Proof. by destruct s. Qed.

Lemma str_take_0 (s : string) : take 0 s = "".
Proof. by destruct s. Qed.

Lemma str_drop_drop (a b : nat) (s : string) : drop a (drop b s) = drop (b + a) s.
Proof.
  revert s; induction b as [|b IH]; intros s; simpl.
  - reflexivity.
  - destruct s as [|c s]; [by destruct a | apply IH].
Qed.

Lemma str_take_all (n : nat) (s : string) :
  (String.length s <= n)%nat -> take n s = s.
Proof.
  revert s; induction n as [|n IH]; intros [|c s] H; simpl in *;
    try reflexivity; try lia.
  rewrite IH; [reflexivity | lia].
Qed.

Lemma str_length_drop (n : nat) (s : string) :
  String.length (drop n s) = (String.length s - n)%nat.
Proof.
  revert s; induction n as [|n IH]; intros [|c s]; simpl; try reflexivity.
  apply IH.
Qed.


End StringFacts.

(* ===================================================================== *)
(** ** Facts about the matcher                                           *)
(* ===================================================================== *)

Module RegexpFacts.
Import GoStrings Regexp Notions StringFacts.

Lemma accept_inRange (n : nat) : inRangeCont n accept.
Proof. intros prev rest pos e Hn [= <-]. lia. Qed.

Lemma star_inRange (n : nat) (p : ascii -> bool) (k : cont) :
  inRangeCont n k -> inRangeCont n (star p k).
Proof.
  intros Hk prev rest. revert prev.
  induction rest as [|c rest IH]; intros prev pos e Hn; simpl.
  - apply Hk; assumption.
  - destruct (p c); [|apply Hk; assumption].
    destruct (star p k (Some c) rest (S pos)) as [e'|] eqn:E.
    + intros [= <-]. apply IH in E; simpl in Hn; lia.
    + apply Hk; assumption.
Qed.

Lemma rmatch_inRange (n : nat) (r : regex) (k : cont) :
  inRangeCont n k -> inRangeCont n (rmatch r k).
Proof.
  revert k. induction r as [|a|p|r1 IH1 r2 IH2|r1 IH1 r2 IH2|p| | | |];
    intros k Hk prev rest pos e Hn; simpl.
  - apply Hk; assumption.
  - destruct rest as [|c rest]; [discriminate|].
    destruct (Ascii.eqb c a); [|discriminate].
    intros E. apply Hk in E; simpl in Hn; lia.
  - destruct rest as [|c rest]; [discriminate|].
    destruct (p c); [|discriminate].
    intros E. apply Hk in E; simpl in Hn; lia.
  - apply IH1; [apply IH2|]; assumption.
  - destruct (rmatch r1 k prev rest pos) as [e'|] eqn:E.
    + intros [= <-]. eapply IH1; eassumption.
    + eapply IH2; eassumption.
  - apply star_inRange; assumption.
  - destruct (atLineStart prev); [apply Hk; assumption | discriminate].
  - destruct (atLineEnd rest); [apply Hk; assumption | discriminate].
  - destruct prev; [discriminate | apply Hk; assumption].
  - destruct rest; [apply Hk; assumption | discriminate].
Qed.

Lemma matchAt_range (r : regex) prev rest pos e :
  matchAt r prev rest pos = Some e ->
  (pos <= e <= pos + String.length rest)%nat.
Proof.
  intros H. eapply (rmatch_inRange _ r accept); [apply accept_inRange| |exact H].
  reflexivity.
Qed.

(** *** What the anchored expressions of the program match *)

Lemma prevAfter_cons prev c a :
  prevAfter prev (String c a) = prevAfter (Some c) a.
Proof. reflexivity. Qed.

Lemma star_sound p k prev s pos e :
  star p k prev s pos = Some e ->
  exists a b, s = a +:+ b /\ allBytes p a = true /\
    k (prevAfter prev a) b (pos + String.length a)%nat = Some e.
Proof.
  revert prev pos. induction s as [|c s IH]; intros prev pos; cbn [star].
  - intros H. exists "", "". rewrite Nat.add_0_r. auto.
  - assert (Hk : k prev (String c s) pos = Some e ->
      exists a b, String c s = a +:+ b /\ allBytes p a = true /\
        k (prevAfter prev a) b (pos + String.length a)%nat = Some e).
    { intros H. exists "", (String c s). rewrite Nat.add_0_r. auto. }
    destruct (p c) eqn:Ep; [|exact Hk].
    destruct (star p k (Some c) s (S pos)) as [e'|] eqn:E; [|exact Hk].
    intros [= ->]. apply IH in E as (a & b & -> & Ha & Hk').
    exists (String c a), b. rewrite str_app_cons, prevAfter_cons.
    cbn [allBytes String.length]. rewrite Ep, Ha.
    replace (pos + S (String.length a))%nat with (S pos + String.length a)%nat by lia.
    auto.
Qed.

Lemma star_fallback p k prev s pos e :
  k prev s pos = Some e -> exists e', star p k prev s pos = Some e'.
Proof.
  intros H. destruct s as [|c s]; cbn [star]; [eauto|].
  destruct (p c); [|eauto].
  destruct (star p k (Some c) s (S pos)); eauto.
Qed.

Lemma star_complete p k prev a b pos e :
  allBytes p a = true ->
  k (prevAfter prev a) b (pos + String.length a)%nat = Some e ->
  exists e', star p k prev (a +:+ b) pos = Some e'.
Proof.
  revert prev pos. induction a as [|c a IH]; intros prev pos Ha Hk.
  - rewrite str_app_nil_l. rewrite Nat.add_0_r in Hk.
    eapply star_fallback, Hk.
  - cbn [allBytes] in Ha. apply andb_true_iff in Ha as [Hc Ha].
    rewrite str_app_cons. cbn [star]. rewrite Hc.
    rewrite prevAfter_cons in Hk.
    cbn [String.length] in Hk.
    replace (pos + S (String.length a))%nat with (S pos + String.length a)%nat in Hk by lia.
    destruct (IH (Some c) (S pos) Ha Hk) as [e' ->]. eauto.
Qed.

Lemma rmatch_Str (lit : string) k prev s pos e :
  rmatch (Str lit) k prev s pos = Some e <->
  exists rest, s = lit +:+ rest /\
    k (prevAfter prev lit) rest (pos + String.length lit)%nat = Some e.
Proof.
  revert prev s pos. induction lit as [|c lit IH]; intros prev s pos; cbn [Str rmatch].
  - rewrite Nat.add_0_r. split.
    + intros H. exists s. auto.
    + intros (rest & -> & H). exact H.
  - destruct s as [|x s].
    + split; [discriminate | intros (rest & H & _); discriminate].
    + destruct (Ascii.eqb_spec x c) as [->|Hne].
      * rewrite IH. rewrite prevAfter_cons. cbn [String.length].
        replace (pos + S (String.length lit))%nat
          with (S pos + String.length lit)%nat by lia.
        split; intros (rest & Hs & H); exists rest; split; try exact H.
        -- rewrite str_app_cons, Hs. reflexivity.
        -- rewrite str_app_cons in Hs. by injection Hs.
      * split; [discriminate|].
        intros (rest & Hs & _). rewrite str_app_cons in Hs.
        injection Hs as Hx _. contradiction.
Qed.

(** An expression anchored at the start of the text can only match there. *)
Lemma findFrom_BeginText (r : regex) (c : ascii) (rest : string) (pos : nat) :
  findFrom (Cat BeginText r) (Some c) rest pos = None.
Proof.
  revert c pos. induction rest as [|x rest IH]; intros c pos.
  - reflexivity.
  - cbn [findFrom]. unfold matchAt. cbn [rmatch]. apply IH.
Qed.

Lemma findFrom_anchored (r : regex) (s : string) :
  findFrom (Cat BeginText r) None s 0
  = match matchAt r None s 0 with
    | Some e => Some (0%nat, e)
    | None => None
    end.
Proof.
  destruct s as [|c s]; cbn [findFrom]; unfold matchAt; cbn [rmatch].
  - reflexivity.
  - destruct (rmatch r accept None (String c s) 0); [reflexivity|].
    apply findFrom_BeginText.
Qed.

Lemma MatchString_anchored (r : regex) (s : string) :
  MatchString (Cat BeginText r) s = true <-> exists e, matchAt r None s 0 = Some e.
Proof.
  unfold MatchString. rewrite findFrom_anchored.
  destruct (matchAt r None s 0); split; eauto; try discriminate.
  intros [e H]; discriminate.
Qed.

Lemma star_accept (p : ascii -> bool) prev s pos :
  star p accept prev s pos = Some (pos + String.length (leadingRun p s))%nat.
Proof.
  revert prev pos. induction s as [|c s IH]; intros prev pos; cbn [star leadingRun].
  - unfold accept. f_equal. simpl. lia.
  - destruct (p c).
    + rewrite IH. f_equal. simpl. lia.
    + unfold accept. f_equal. simpl. lia.
Qed.

Lemma leadingRun_split (p : ascii -> bool) (s : string) :
  exists rest, s = leadingRun p s +:+ rest /\
    allBytes p (leadingRun p s) = true /\
    match rest with String c _ => p c = false | "" => True end.
Proof.
  induction s as [|c s (rest & Hs & Ha & Hr)]; cbn [leadingRun].
  - exists "". auto.
  - destruct (p c) eqn:Ep.
    + exists rest. rewrite str_app_cons, <- Hs. cbn [allBytes].
      rewrite Ep, Ha. auto.
    + exists (String c s). auto.
Qed.

Lemma take_leadingRun (p : ascii -> bool) (s : string) :
  take (String.length (leadingRun p s)) s = leadingRun p s.
Proof.
  induction s as [|c s IH]; cbn [leadingRun]; [reflexivity|].
  destruct (p c); [|reflexivity]. cbn [String.length take]. by rewrite IH.
Qed.

End RegexpFacts.

(* ===================================================================== *)
(** ** Facts about [strings.ReplaceAll] on wildcard tokens               *)
(* ===================================================================== *)

Module ReplaceFacts.
Import GoStrings Notions StringFacts RegexpFacts.

Lemma HasPrefix_spec (s p : string) :
  HasPrefix s p = true <-> exists rest, s = p +:+ rest.
Proof.
  revert s. induction p as [|a p IH]; intros s; cbn [HasPrefix].
  - split; [intros _; exists s; reflexivity | reflexivity].
  - destruct s as [|b s].
    + split; [discriminate | intros [rest H]; discriminate].
    + destruct (Ascii.eqb_spec a b) as [->|Hne].
      * rewrite IH. split; intros [rest H]; exists rest.
        -- rewrite str_app_cons, H. reflexivity.
        -- rewrite str_app_cons in H. by injection H.
      * split; [discriminate|]. intros [rest H].
        rewrite str_app_cons in H. injection H as Hb _. congruence.
Qed.

Lemma HasPrefix_app (u w q : string) :
  HasPrefix u q = true -> HasPrefix (u +:+ w) q = true.
Proof.
  rewrite !HasPrefix_spec. intros [rest ->]. exists (rest +:+ w).
  apply str_app_assoc.
Qed.

Lemma HasPrefix_length (u q : string) :
  HasPrefix u q = true -> (String.length q <= String.length u)%nat.
Proof.
  rewrite HasPrefix_spec. intros [rest ->]. rewrite str_length_app. lia.
Qed.

(** Without an occurrence of [old] nothing is replaced. *)
Lemma ReplaceAll_absent (s old new : string) :
  ~ occurs old s -> ReplaceAll s old new = s.
Proof.
  unfold ReplaceAll. induction s as [|c s IH]; intros H; [reflexivity|].
  cbn [replaceFrom].
  destruct (HasPrefix (String c s) old) eqn:E.
  - exfalso. apply H. apply HasPrefix_spec in E as [rest ->].
    exists "", rest. reflexivity.
  - f_equal. apply IH. intros (a & b & ->). apply H.
    exists (String c a), b. reflexivity.
Qed.

Lemma noBrace_cons c k :
  noBrace (String c k) = true -> c <> "{"%char /\ c <> "}"%char /\ noBrace k = true.
Proof.
  unfold noBrace. cbn [allBytes]. intros H.
  apply andb_true_iff in H as [Hc Hk]. unfold brace in Hc.
  apply negb_true_iff, orb_false_iff in Hc as [H1 H2].
  apply Ascii.eqb_neq in H1, H2. auto.
Qed.

(** In [k}}] no byte is an opening brace. *)
Lemma no_open_in_tail (k q0 q : string) (c : ascii) :
  noBrace k = true -> k +:+ "}}" = q0 +:+ String c q -> c <> "{"%char.
Proof.
  revert q0. induction k as [|x k IH]; intros q0 Hk H.
  - rewrite str_app_nil_l in H.
    destruct q0 as [|a [|b [|d q0]]]; rewrite ?str_app_cons, ?str_app_nil_l in H;
      try (injection H as <- _; discriminate);
      try (injection H as _ <- _; discriminate).
  - apply noBrace_cons in Hk as (Hx & _ & Hk). rewrite str_app_cons in H.
    destruct q0 as [|a q0]; rewrite ?str_app_cons, ?str_app_nil_l in H.
    + injection H as <- _. exact Hx.
    + injection H as _ H. eapply IH; eassumption.
Qed.

(** Two identifiers that end at the same closing brace are equal. *)
Lemma same_until_close (k X a b : string) :
  noBrace k = true -> noBrace X = true ->
  k +:+ String "}" a = X +:+ String "}" b -> k = X.
Proof.
  revert X. induction k as [|c k IH]; intros X Hk HX H.
  - destruct X as [|x X]; [reflexivity|].
    apply noBrace_cons in HX as (_ & Hx & _).
    rewrite str_app_nil_l, str_app_cons in H. injection H as <- _. congruence.
  - apply noBrace_cons in Hk as (_ & Hc & Hk).
    destruct X as [|x X].
    + rewrite str_app_nil_l, str_app_cons in H. injection H as -> _. congruence.
    + apply noBrace_cons in HX as (_ & _ & HX).
      rewrite !str_app_cons in H. injection H as -> H.
      f_equal. eapply IH; eassumption.
Qed.

Section Token.
Context (k X : string).
Context (Hk : noBrace k = true) (HX : noBrace X = true) (Hne : k <> X).

(** No part of the token of [k], from some byte to its end, is found where
    the token of [X] starts. *)
Lemma no_match_at_token (post q0 q : string) :
  token k = q0 +:+ q -> q <> "" ->
  HasPrefix (token X +:+ post) q = false.
Proof.
  intros Hq Hnil. destruct (HasPrefix _ q) eqn:E; [|reflexivity]. exfalso.
  apply HasPrefix_spec in E as [rest E].
  destruct q as [|c q]; [by apply Hnil|].
  unfold token in *. rewrite !str_app_cons, !str_app_nil_l in *.
  injection E as <- E.
  destruct q0 as [|a [|b q0]]; rewrite ?str_app_cons, ?str_app_nil_l in Hq.
  - injection Hq as <-. rewrite str_app_cons in E. injection E as E.
    rewrite !str_app_assoc in E. rewrite !str_app_cons in E.
    apply Hne. symmetry. eapply same_until_close; eassumption.
  - injection Hq as _ <-.
    destruct k as [|x k'].
    + rewrite !str_app_nil_l, !str_app_cons in E. discriminate.
    + apply noBrace_cons in Hk as (Hx & _). rewrite !str_app_cons in E.
      injection E as E _. congruence.
  - injection Hq as _ _ Hq.
    eapply (no_open_in_tail k q0 q "{"%char); [exact Hk | exact Hq | reflexivity].
Qed.

(** A match of the token of [k] that starts in [u] ends in [u]. *)
Lemma match_stays_before (u post q0 q : string) :
  token k = q0 +:+ q ->
  HasPrefix (u +:+ token X +:+ post) q = true -> HasPrefix u q = true.
Proof.
  revert q0 q. induction u as [|c u IH]; intros q0 q Hq H.
  - rewrite str_app_nil_l in H. destruct q as [|p q]; [reflexivity|].
    rewrite (no_match_at_token post q0 (String p q) Hq) in H; [discriminate|].
    discriminate.
  - destruct q as [|p q]; [reflexivity|].
    rewrite str_app_cons in H. cbn [HasPrefix] in *.
    destruct (Ascii.eqb p c); [|discriminate].
    apply (IH (q0 +:+ String p "") q); [|exact H].
    rewrite str_app_assoc. exact Hq.
Qed.

(** No match of the token of [k] starts inside the token of [X]. *)
Lemma no_match_inside_token (post t1 t2 : string) :
  token X = t1 +:+ t2 -> t1 <> "" -> t2 <> "" ->
  HasPrefix (t2 +:+ post) (token k) = false.
Proof.
  intros Ht H1 H2. destruct (HasPrefix _ (token k)) eqn:E; [|reflexivity].
  exfalso. apply HasPrefix_spec in E as [rest E].
  destruct t2 as [|c t2]; [by apply H2|].
  unfold token in *. rewrite !str_app_cons, !str_app_nil_l in *.
  injection E as -> E.
  destruct t1 as [|a [|b t1]]; [by apply H1| |];
    rewrite ?str_app_cons, ?str_app_nil_l in Ht.
  - injection Ht as _ <-.
    destruct X as [|x X'].
    + rewrite !str_app_nil_l, !str_app_cons in E. discriminate.
    + apply noBrace_cons in HX as (Hx & _). rewrite !str_app_cons in E.
      injection E as E _. congruence.
  - injection Ht as _ _ Ht.
    eapply (no_open_in_tail X t1 t2 "{"%char); [exact HX | exact Ht | reflexivity].
Qed.

Lemma scan_token (r post t1 t2 : string) :
  token X = t1 +:+ t2 ->
  replaceFrom (token k) r 0 (t2 +:+ post)
  = t2 +:+ replaceFrom (token k) r 0 post.
Proof.
  revert t1. induction t2 as [|c t2 IH]; intros t1 Ht; [reflexivity|].
  rewrite str_app_cons. cbn [replaceFrom].
  assert (E : HasPrefix (String c (t2 +:+ post)) (token k) = false).
  { rewrite <- str_app_cons. destruct t1 as [|a t1].
    - rewrite str_app_nil_l in Ht. rewrite <- Ht.
      apply (no_match_at_token post "" (token k)); [reflexivity | discriminate].
    - apply (no_match_inside_token post (String a t1)); [exact Ht | | ]; discriminate. }
  rewrite E, str_app_cons. f_equal. apply (IH (t1 +:+ String c "")).
  rewrite str_app_assoc. exact Ht.
Qed.

(** Replacing the token of [k] leaves an occurrence of the token of [X]
    where it is, and goes on independently on both sides of it. *)
Lemma replaceFrom_token (r pre post : string) (skip : nat) :
  (skip <= String.length pre)%nat ->
  replaceFrom (token k) r skip (pre +:+ token X +:+ post)
  = replaceFrom (token k) r skip pre +:+ token X
      +:+ replaceFrom (token k) r 0 post.
Proof.
  revert skip. induction pre as [|c pre IH]; intros skip Hskip.
  - cbn [String.length] in Hskip. assert (skip = 0%nat) as -> by lia.
    rewrite !str_app_nil_l.
    apply (scan_token r post "" (token X)). reflexivity.
  - rewrite str_app_cons. cbn [String.length] in Hskip.
    destruct skip as [|n]; cbn [replaceFrom].
    + destruct (HasPrefix (String c (pre +:+ token X +:+ post)) (token k)) eqn:E.
      * rewrite <- str_app_cons in E.
        apply (match_stays_before _ post "" (token k) eq_refl) in E.
        rewrite E. pose proof (HasPrefix_length _ _ E) as Hl.
        cbn [String.length] in Hl.
        rewrite IH by lia. by rewrite !str_app_assoc.
      * destruct (HasPrefix (String c pre) (token k)) eqn:E'.
        -- apply (HasPrefix_app _ (token X +:+ post)) in E'.
           rewrite str_app_cons in E'. congruence.
        -- rewrite IH by lia. reflexivity.
    + apply IH. lia.
Qed.

End Token.

End ReplaceFacts.

(* ===================================================================== *)
(** ** Facts about the pieces of a text                                  *)
(* ===================================================================== *)

Module CutFacts.
Import GoStrings Notions StringFacts RegexpFacts ReplaceFacts ReplaceNotions.

Lemma cutAt_nonempty old s ps : cutAt old s ps -> ps <> [].
Proof. by destruct 1. Qed.

Lemma cutAt_join old s ps : cutAt old s ps -> s = joinWith old ps.
Proof.
  induction 1 as [p Hp|p rest ps Hp Hc IH]; [reflexivity|].
  cbn [joinWith]. apply cutAt_nonempty in Hc.
  destruct ps as [|q ps]; [done|]. by rewrite <- IH.
Qed.

(** A prefix of [x ++ y] that is not longer than [x] is a prefix of [x]. *)
Lemma str_prefix_app (q x y t : string) :
  x +:+ y = q +:+ t -> (String.length q <= String.length x)%nat ->
  exists b, x = q +:+ b.
Proof.
  revert x. induction q as [|c q IH]; intros x H Hl; [by exists x|].
  destruct x as [|d x]; [cbn in Hl; lia|].
  rewrite !str_app_cons in H. injection H as -> H.
  destruct (IH x H) as [b ->]; [cbn in Hl; lia|]. by exists b.
Qed.

Section Replace.
Context (old new : string) (Hold : old <> "").

(** The bytes of an occurrence are passed over. *)
Lemma replaceFrom_skip (u rest : string) :
  replaceFrom old new (String.length u) (u +:+ rest) = replaceFrom old new 0 rest.
Proof.
  induction u as [|c u IH]; [reflexivity|].
  rewrite str_app_cons. cbn [String.length replaceFrom]. exact IH.
Qed.

Lemma replaceFrom_at (rest : string) :
  replaceFrom old new 0 (old +:+ rest) = new +:+ replaceFrom old new 0 rest.
Proof.
  assert (H : HasPrefix (old +:+ rest) old = true)
    by (apply HasPrefix_spec; by exists rest).
  rewrite <- (replaceFrom_skip (drop 1 old) rest).
  destruct old as [|c o]; [done|].
  rewrite str_app_cons in *. cbn [replaceFrom]. rewrite H.
  cbn [String.length drop]. rewrite ?str_drop_0.
  by replace (S (String.length o) - 1)%nat with (String.length o) by lia.
Qed.

Lemma firstAt_tail (c : ascii) (p : string) :
  firstAt old (String c p) -> firstAt old p.
Proof.
  intros H a b Hab.
  specialize (H (String c a) b). rewrite !str_app_cons, Hab in H.
  specialize (H eq_refl). cbn in H. lia.
Qed.

Lemma firstAt_head (c : ascii) (p rest : string) :
  firstAt old (String c p) ->
  HasPrefix (String c (p +:+ old +:+ rest)) old = false.
Proof.
  intros H. destruct (HasPrefix _ old) eqn:E; [|reflexivity]. exfalso.
  apply HasPrefix_spec in E as [t Ht].
  destruct (str_prefix_app old (String c p +:+ old) rest t) as [b Hb].
  - by rewrite str_app_assoc, str_app_cons.
  - rewrite str_length_app. lia.
  - specialize (H "" b). rewrite str_app_nil_l in H. specialize (H Hb).
    cbn in H. lia.
Qed.

Lemma replaceFrom_before (p rest : string) :
  firstAt old p ->
  replaceFrom old new 0 (p +:+ old +:+ rest)
  = p +:+ replaceFrom old new 0 (old +:+ rest).
Proof.
  induction p as [|c p IH]; intros H; [reflexivity|].
  rewrite !str_app_cons. cbn [replaceFrom].
  rewrite (firstAt_head c p rest H). f_equal. apply IH.
  by apply firstAt_tail in H.
Qed.

(** [strings.ReplaceAll] puts [new] between the pieces. *)
Lemma ReplaceAll_cut (s : string) (ps : list string) :
  cutAt old s ps -> ReplaceAll s old new = joinWith new ps.
Proof.
  induction 1 as [p Hp|p rest ps Hp Hc IH].
  - by apply ReplaceAll_absent.
  - unfold ReplaceAll in *. rewrite replaceFrom_before, replaceFrom_at, IH by done.
    cbn [joinWith]. apply cutAt_nonempty in Hc. by destruct ps.
Qed.

(** The leftmost occurrence, if there is one. *)
Lemma leftmost (s : string) :
  ~ occurs old s \/ exists p rest, s = p +:+ old +:+ rest /\ firstAt old p.
Proof.
  induction s as [|c s IH].
  - left. intros (a & b & H). destruct a; [|discriminate].
    rewrite str_app_nil_l in H. destruct old; [done | discriminate].
  - destruct (HasPrefix (String c s) old) eqn:E.
    + right. apply HasPrefix_spec in E as [rest ->]. exists "", rest.
      split; [reflexivity|]. intros a b _. cbn. lia.
    + destruct IH as [Hno|(p & rest & -> & Hp)].
      * left. intros (a & b & H). destruct a as [|x a].
        -- rewrite str_app_nil_l in H.
           assert (HasPrefix (String c s) old = true)
             by (apply HasPrefix_spec; by exists b).
           congruence.
        -- rewrite str_app_cons in H. injection H as _ H. apply Hno. by exists a, b.
      * right. exists (String c p), rest. split; [reflexivity|].
        intros a b Hab. destruct a as [|x a].
        -- exfalso. rewrite str_app_nil_l in Hab.
           assert (HasPrefix (String c (p +:+ old +:+ rest)) old = true).
           { apply HasPrefix_spec. exists (b +:+ rest).
             rewrite <- (str_app_assoc old b rest), <- Hab.
             by rewrite !str_app_cons, str_app_assoc. }
           congruence.
        -- rewrite !str_app_cons in Hab. injection Hab as _ Hab.
           specialize (Hp a b Hab). cbn. lia.
Qed.

(** Every text is cut into pieces. *)
Lemma cut_exists (s : string) : exists ps, cutAt old s ps.
Proof.
  remember (String.length s) as n eqn:Hn. revert s Hn.
  induction (lt_wf n) as [n _ IH]. intros s ->.
  destruct (leftmost s) as [Hno|(p & rest & -> & Hp)].
  - exists [s]. by constructor.
  - destruct (IH (String.length rest)) with (s := rest) as [ps Hps]; [|reflexivity|].
    + rewrite !str_length_app. destruct old; [done|]. cbn. lia.
    + exists (p :: ps). by constructor.
Qed.

End Replace.

Lemma token_nonempty (k : string) : token k <> "".
Proof. discriminate. Qed.

End CutFacts.

(* ===================================================================== *)
(** ** The block ranges computed by [parseMigrationContents]             *)
(* ===================================================================== *)

Module ParserFacts.
Import GoStrings Regexp Parser Store Notions StringFacts RegexpFacts.

Lemma lastByte_snoc (b : string) (c : ascii) :
  lastByte (b +:+ String c "") = Some c.
Proof.
  induction b as [|x b IH]; [reflexivity|].
  rewrite str_app_cons. simpl. rewrite IH.
  destruct (b +:+ String c "") eqn:E; [|reflexivity].
  destruct b; discriminate.
Qed.

Lemma lastByte_None (b : string) : lastByte b = None -> b = "".
Proof.
  induction b as [|x b IH]; [reflexivity|]. simpl.
  destruct b; [discriminate|]. intros H. apply IH in H. discriminate.
Qed.

Lemma byteAt_last (b rest : string) (x : ascii) :
  lastByte b = Some x ->
  byteAt (b +:+ rest) (String.length b - 1) = Some x.
Proof.
  induction b as [|y b IH]; [discriminate|].
  simpl. destruct b as [|z b].
  - intros [= ->]. reflexivity.
  - intros H. specialize (IH H). rewrite str_app_cons.
    simpl in *. rewrite Nat.sub_0_r in IH. exact IH.
Qed.

Lemma byteAt_drop (s : string) (i : nat) (c : ascii) :
  byteAt s i = Some c -> drop i s = String c (drop (S i) s).
Proof.
  unfold byteAt. intros H.
  destruct (drop i s) as [|x t] eqn:E; [discriminate|].
  injection H as ->. f_equal.
  replace (S i) with (i + 1)%nat by lia.
  rewrite <- str_drop_drop, E. reflexivity.
Qed.

(** An expression [(?m)^c...] matches only at the start of a line and never
    the empty text. *)
Lemma anchored_matchAt (a : ascii) (r1 r2 : regex) prev rest pos e :
  matchAt (Cat BeginLine (Cat (Cat (Lit a) r1) r2)) prev rest pos = Some e ->
  atLineStart prev = true /\ (pos < e <= pos + String.length rest)%nat.
Proof.
  intros H. pose proof (matchAt_range _ _ _ _ _ H) as Hr.
  unfold matchAt in H. simpl in H.
  destruct (atLineStart prev); [|discriminate].
  split; [reflexivity|]. split; [|lia].
  destruct rest as [|c rest]; [discriminate|].
  destruct (Ascii.eqb c a); [|discriminate].
  eapply (rmatch_inRange (S pos + String.length rest) r1) in H;
    [lia | | reflexivity].
  apply rmatch_inRange, accept_inRange.
Qed.

(** A directive found by the scan starts a line and is not empty. *)
Lemma scan_matchAt prev rest pos e :
  matchAt scanRegExp prev rest pos = Some e ->
  atLineStart prev = true /\ (pos < e <= pos + String.length rest)%nat.
Proof. apply (anchored_matchAt "-"%char (Str "-")). Qed.

Lemma allFrom_lineMatches (before rest : string) (skip : nat) (prevEnd : option nat) :
  lineMatches (before +:+ rest) (String.length before + skip)
    (allFrom scanRegExp (lastByte before) rest (String.length before) skip prevEnd).
Proof.
  revert before skip prevEnd.
  induction rest as [|c rest IH]; intros before skip prevEnd.
  - destruct skip as [|n]; simpl; [|exact I].
    destruct (matchAt scanRegExp (lastByte before) "" (String.length before))
      as [e|] eqn:E; [|exact I].
    apply scan_matchAt in E as [_ E]. simpl in E. lia.
  - assert (Hstep : forall n pe,
      lineMatches (before +:+ String c rest) (S (String.length before) + n)
        (allFrom scanRegExp (Some c) rest (S (String.length before)) n pe)).
    { intros n pe.
      specialize (IH (before +:+ String c "") n pe).
      rewrite lastByte_snoc, str_length_app, str_app_assoc in IH. simpl in IH.
      rewrite str_app_cons, str_app_nil_l in IH.
      replace (String.length before + 1)%nat with (S (String.length before)) in IH by lia.
      exact IH. }
    destruct skip as [|n]; simpl.
    + destruct (matchAt scanRegExp (lastByte before) (String c rest)
                  (String.length before)) as [e|] eqn:E.
      * apply scan_matchAt in E as [Hl E]. simpl in E.
        replace (e =? String.length before)%nat with false
          by (symmetry; apply Nat.eqb_neq; lia).
        simpl. repeat split; try lia.
        -- rewrite str_length_app. simpl. lia.
        -- unfold atLineStart in Hl.
           destruct (lastByte before) as [x|] eqn:El.
           ++ right. apply Ascii.eqb_eq in Hl as ->.
              by apply byteAt_last.
           ++ left. apply lastByte_None in El as ->. reflexivity.
        -- specialize (Hstep (e - String.length before - 1)%nat (Some e)).
           replace (S (String.length before) + (e - String.length before - 1))%nat
             with e in Hstep by lia.
           exact Hstep.
      * specialize (Hstep 0%nat prevEnd).
        replace (String.length before + 0)%nat with (String.length before) by lia.
        destruct (allFrom scanRegExp (Some c) rest (S (String.length before)) 0 prevEnd)
          as [|m ms]; [exact I|].
        simpl in *. intuition lia.
    + specialize (Hstep n prevEnd).
      replace (String.length before + S n)%nat
        with (S (String.length before) + n)%nat by lia.
      exact Hstep.
Qed.

Lemma scanLoop_snoc (contents : string) (reFinds : list (Z * Z))
    (bs : list (Z * Z)) (p fbc : Z) :
  0 <= fbc ->
  scanLoop contents (length (bs ++ [(p, len contents)])) reFinds
    (bs ++ [(p, len contents)], fbc)
  = (bs ++ blocksOf (len contents) (p :: (fst <$> reFinds)), fbc).
Proof.
  intros Hf. revert bs p.
  induction reFinds as [|[q e] reFinds IH]; intros bs p; [reflexivity|].
  cbn [scanLoop fmap list_fmap blocksOf fst].
  unfold scanStep. cbn [fst snd].
  replace (fbc <? 0) with false by (symmetry; apply Z.ltb_ge; lia).
  rewrite length_app. cbn [length].
  replace (0 <? length bs + 1)%nat with true
    by (symmetry; apply Nat.ltb_lt; lia).
  replace (length bs + 1 - 1)%nat with (length bs + 0)%nat by lia.
  rewrite (alter_app_r (fun b : Z * Z => (b.1, q - 1)) bs [(p, len contents)] 0).
  cbn [alter list_alter fst].
  specialize (IH (bs ++ [(p, q - 1)]) q).
  etrans; [|etrans; [exact IH|]].
  - f_equal. rewrite !length_app. cbn [length]. lia.
  - rewrite <- (assoc_L (++)). reflexivity.
Qed.

Lemma scanLoop_closed (contents : string) (reFinds : list (Z * Z)) :
  Forall (fun m : Z * Z => 0 <= m.1) reFinds ->
  scanLoop contents 0 reFinds ([], -1)
  = (blocksOf (len contents) (fst <$> reFinds),
     match reFinds with [] => -1 | m :: _ => m.1 end).
Proof.
  destruct reFinds as [|[p e] reFinds]; [reflexivity|].
  intros H. apply Forall_cons in H as [Hp _]. cbn [fst] in Hp.
  cbn [scanLoop]. unfold scanStep. cbn [fst snd].
  replace (-1 <? 0) with true by reflexivity.
  replace (0 <? 0)%nat with false by reflexivity.
  apply (scanLoop_snoc contents reFinds [] p p Hp).
Qed.

Lemma FindAllIndex_nonneg (r : regex) (s : string) :
  Forall (fun m : Z * Z => 0 <= m.1) (FindAllIndex r s).
Proof.
  unfold FindAllIndex. apply Forall_fmap, Forall_forall.
  intros [p e] _. unfold toZ; simpl. lia.
Qed.

Lemma scanBlocks_closed (contents : string) :
  scanBlocks contents
  = (blocksOf (len contents) (fst <$> FindAllIndex scanRegExp contents),
     match FindAllIndex scanRegExp contents with [] => -1 | m :: _ => m.1 end).
Proof. apply scanLoop_closed, FindAllIndex_nonneg. Qed.






Lemma scan_lineMatches (contents : string) :
  lineMatches contents 0 (allFrom scanRegExp None contents 0 0 None).
Proof. exact (allFrom_lineMatches "" contents 0 None). Qed.





(** *** Empty lines, comment lines, versions, migration file names *)

Lemma isEmptyLine_spec (s : string) :
  isEmptyLine s = true <-> allBytes space s = true.
Proof.
  unfold isEmptyLine, emptyLineRegExp, Seq. cbn [foldr].
  rewrite MatchString_anchored.
  change (matchAt (Cat (Star space) (Cat EndText Eps)) None s 0)
    with (star space (rmatch (Cat EndText Eps) accept) None s 0).
  split.
  - intros [e H]. apply star_sound in H as (a & b & -> & Ha & Hk).
    cbn [rmatch] in Hk. destruct b; [|discriminate].
    by rewrite str_app_nil_r.
  - intros Ha.
    destruct (star_complete space (rmatch (Cat EndText Eps) accept) None s "" 0
                (String.length s) Ha) as [e He]; [reflexivity|].
    rewrite str_app_nil_r in He. eauto.
Qed.

Lemma isCommentLine_spec (s : string) :
  isCommentLine s = true <->
  exists ws rest, s = ws +:+ "--" +:+ rest /\ allBytes space ws = true.
Proof.
  unfold isCommentLine, commentLineRegExp, Seq. cbn [foldr].
  rewrite MatchString_anchored.
  change (matchAt (Cat (Star space) (Cat (Str "--") Eps)) None s 0)
    with (star space (rmatch (Str "--") accept) None s 0).
  split.
  - intros [e H]. apply star_sound in H as (a & b & -> & Ha & Hk).
    apply rmatch_Str in Hk as (rest & -> & _). eauto.
  - intros (ws & rest & -> & Ha).
    eapply (star_complete space _ None ws ("--" +:+ rest) 0); [exact Ha|].
    apply rmatch_Str. exists rest. split; reflexivity.
Qed.

Lemma migrationVersion_spec (filename : string) :
  migrationVersion filename = leadingRun digit filename.
Proof.
  unfold migrationVersion, FindString, Seq. cbn [foldr].
  rewrite findFrom_anchored.
  change (matchAt (Cat (Plus digit) Eps) None filename 0)
    with (rmatch (Class digit) (star digit accept) None filename 0).
  destruct filename as [|c s]; [reflexivity|].
  cbn [rmatch leadingRun]. destruct (digit c); [|reflexivity].
  rewrite star_accept. unfold slice.
  rewrite !Nat2Z.id. cbn [drop]. rewrite Nat.sub_0_r.
  cbn [Nat.add take]. by rewrite take_leadingRun.
Qed.

Lemma migrationFile_spec (name : string) :
  MatchString migrationFileRegexp name = true <->
  exists d mid, name = String d (mid +:+ ".sql") /\
    digit d = true /\ allBytes anyButLF mid = true.
Proof.
  unfold migrationFileRegexp, Seq. cbn [foldr].
  rewrite MatchString_anchored.
  change (matchAt (Cat (Class digit) (Cat (Star anyButLF)
            (Cat (Str ".sql") (Cat EndText Eps)))) None name 0)
    with (rmatch (Class digit)
            (star anyButLF (rmatch (Str ".sql") (rmatch (Cat EndText Eps) accept)))
            None name 0).
  split.
  - intros [e H]. destruct name as [|d s]; [discriminate|].
    cbn [rmatch] in H. destruct (digit d) eqn:Ed; [|discriminate].
    apply star_sound in H as (a & b & -> & Ha & Hk).
    apply rmatch_Str in Hk as (rest & -> & Hk).
    cbn [rmatch] in Hk. destruct rest; [|discriminate].
    exists d, a. rewrite str_app_nil_r. auto.
  - intros (d & mid & -> & Hd & Hmid). cbn [rmatch]. rewrite Hd.
    eapply (star_complete anyButLF _ (Some d) mid ".sql" 1); [exact Hmid|].
    apply rmatch_Str. exists "". split; reflexivity.
Qed.

End ParserFacts.

(* ===================================================================== *)
(** ** Facts about runs                                                  *)
(* ===================================================================== *)

Module RunFacts.
Import GoStrings Regexp Parser Store Orchestrator Notions.

(** Two continuations that agree after [c] give the same run. *)
Lemma bind_post {A B} (c : M A) (k1 k2 : A -> M B) (st : state) :
  (forall a st', c st = (st', Done a) -> k1 a st' = k2 a st') ->
  bind c k1 st = bind c k2 st.
Proof.
  intros H. unfold bind. destruct (c st) as [st' [a| |]] eqn:E;
    [apply H; reflexivity | reflexivity | reflexivity].
Qed.

Lemma bind_cong {A B} (c : M A) (k1 k2 : A -> M B) (st : state) :
  (forall a st', k1 a st' = k2 a st') -> bind c k1 st = bind c k2 st.
Proof. intros H. apply bind_post. intros a st' _. apply H. Qed.

Lemma bind_head {A B} (c1 c2 : M A) (k : A -> M B) (st : state) :
  c1 st = c2 st -> bind c1 k st = bind c2 k st.
Proof. intros H. unfold bind. rewrite H. reflexivity. Qed.

Lemma function_cong {A} (b1 b2 : M A) (st : state) :
  (forall st', b1 st' = b2 st') -> function b1 st = function b2 st.
Proof. intros H. unfold function. rewrite H. reflexivity. Qed.

(** What [selectMigrations] returns is an answer of the driver. *)
Lemma selectMigrations_post env drv limit st st' m :
  selectMigrations env drv limit st = (st', Done m) ->
  exists h, m = drvMigrations env h drv limit.
Proof.
  unfold selectMigrations, bind, history, invoke, bind, emit, history, ret.
  cbn. destruct (drvError env (trace st) drv (DrvSelectMigrations limit));
    cbn; [discriminate|].
  intros [= _ <-]. eauto.
Qed.

Lemma openSlaves_post env slavesDrv limit onEach st st' ms :
  openSlaves env slavesDrv limit onEach st = (st', Done ms) ->
  Forall (fun m => exists h d, m = drvMigrations env h d limit) ms.
Proof.
  revert st st' ms. induction slavesDrv as [|d rest IH]; intros st st' ms.
  - intros [= _ <-]. constructor.
  - cbn [openSlaves]. unfold bind at 1.
    destruct (openDatabaseForMigration env d st) as [s1 [[]| |]]; try discriminate.
    unfold bind at 1.
    destruct (deferClose d s1) as [s2 [[]| |]]; try discriminate.
    unfold bind at 1.
    destruct (selectMigrations env d limit s2) as [s3 [m| |]] eqn:Esel;
      try discriminate.
    unfold bind at 1.
    destruct (onEach m s3) as [s4 [[]| |]]; try discriminate.
    unfold bind at 1.
    destruct (openSlaves env rest limit onEach s4) as [s5 [ms'| |]] eqn:Erest;
      try discriminate.
    intros [= _ <-]. constructor.
    + apply selectMigrations_post in Esel as [h ->]. eauto.
    + eapply IH. exact Erest.
Qed.

Lemma slavesWithout_nil (idx : nat) (ms : list (list (string * bool))) (ver : string) :
  Forall (fun m => mapGet m ver = true) ms -> slavesWithout idx ms ver = [].
Proof.
  intros H. revert idx. induction H as [|m ms Hm _ IH]; intros idx;
    [reflexivity|].
  cbn [slavesWithout]. rewrite Hm. cbn [negb]. apply IH.
Qed.

(** A file whose version every database has applied: the body of the loop
    does nothing, and in particular does not read the file. *)
Lemma migrateFile_skip env readFile db drv slavesDrv applied appliedSlaves filename :
  mapGet applied (migrationVersion filename) = true ->
  Forall (fun m => mapGet m (migrationVersion filename) = true) appliedSlaves ->
  migrateFile env readFile db drv slavesDrv applied appliedSlaves filename = ret tt.
Proof.
  intros Hp Hs. unfold migrateFile.
  rewrite Hp, (slavesWithout_nil _ _ _ Hs). reflexivity.
Qed.

Lemma parseMigration_agree (rf rf' : list event -> string -> string + error)
    (path : string) (st : state) :
  (forall h, rf' h path = rf h path) ->
  parseMigration rf' path st = parseMigration rf path st.
Proof.
  intros H. unfold parseMigration, bind, history, emit. cbn.
  rewrite H. reflexivity.
Qed.

Lemma migrateFile_agree env (rf rf' : list event -> string -> string + error)
    db drv slavesDrv applied appliedSlaves filename st :
  (forall h, rf' h (pathJoin env (MigrationsDir db) filename)
             = rf h (pathJoin env (MigrationsDir db) filename)) ->
  migrateFile env rf' db drv slavesDrv applied appliedSlaves filename st
  = migrateFile env rf db drv slavesDrv applied appliedSlaves filename st.
Proof.
  intros H. unfold migrateFile.
  destruct (_ && _)%bool; [reflexivity|].
  apply bind_cong. intros _ st'. apply bind_head.
  apply parseMigration_agree, H.
Qed.

Lemma migrateFiles_agree env (rf rf' : list event -> string -> string + error)
    db drv slavesDrv applied appliedSlaves (v : string) files st :
  mapGet applied v = true ->
  Forall (fun m => mapGet m v = true) appliedSlaves ->
  (forall h filename, migrationVersion filename <> v ->
     rf' h (pathJoin env (MigrationsDir db) filename)
     = rf h (pathJoin env (MigrationsDir db) filename)) ->
  migrateFiles env rf db drv slavesDrv applied appliedSlaves files st
  = migrateFiles env rf' db drv slavesDrv applied appliedSlaves files st.
Proof.
  intros Hp Hs Hrf. revert st.
  induction files as [|f files IH]; intros st; [reflexivity|].
  cbn [migrateFiles].
  destruct (decide (migrationVersion f = v)) as [E|E].
  - rewrite !migrateFile_skip by (rewrite E; assumption).
    apply IH.
  - etrans; [apply bind_head; symmetry; apply migrateFile_agree;
             intros h; apply Hrf, E|].
    apply bind_cong. intros _ st'. apply IH.
Qed.

(** *** [Rollback] and a replica whose latest version differs *)

Lemma bind_done {A B} (c : M A) (k : A -> M B) st st' a :
  c st = (st', Done a) -> bind c k st = k a st'.
Proof. intros H. unfold bind. by rewrite H. Qed.

Lemma bind_fail {A B} (c : M A) (k : A -> M B) st st' e :
  c st = (st', Fail e) -> bind c k st = (st', Fail e).
Proof. intros H. unfold bind. by rewrite H. Qed.

Lemma after_after st evs ds evs' ds' :
  after (after st evs ds) evs' ds' = after st (evs ++ evs') (ds' ++ ds).
Proof. unfold after. cbn. by rewrite !(assoc_L (++)). Qed.

Lemma bind_ret {A B} (a : A) (k : A -> M B) st : bind (ret a) k st = k a st.
Proof. reflexivity. Qed.

Lemma bind_assoc {A B C} (c : M A) (k1 : A -> M B) (k2 : B -> M C) st :
  bind (bind c k1) k2 st = bind c (fun a => bind (k1 a) k2) st.
Proof. unfold bind. by destruct (c st) as [st' [a| |]]. Qed.

Lemma bind_history {B} (k : list event -> M B) st :
  bind history k st = k (trace st) st.
Proof. reflexivity. Qed.

Lemma bind_emit {B} (e : event) (k : unit -> M B) st :
  bind (emit e) k st = k tt (after st [e] []).
Proof. reflexivity. Qed.

Lemma bind_deferClose {B} (d : Driver) (k : unit -> M B) st :
  bind (deferClose d) k st = k tt (after st [] [d]).
Proof. unfold after. by rewrite app_nil_r. Qed.

(** One step of a run whose first computation is known. *)
Ltac run_step :=
  match goal with
  | |- context [bind (bind ?c ?k1) ?k2 ?s] => rewrite (bind_assoc c k1 k2 s)
  | |- context [bind (ret ?a) ?k ?s] => rewrite (bind_ret a k s)
  | |- context [bind history ?k ?s] => rewrite (bind_history k s)
  | |- context [bind (emit ?e) ?k ?s] => rewrite (bind_emit e k s)
  | |- context [bind (deferClose ?d) ?k ?s] => rewrite (bind_deferClose d k s)
  end; cbv beta iota.

Section Calm.
Context (env : Env).
Context (Hcalm : forall h d c, drvError env h d c = None).

Lemma invoke_calm d c st :
  invoke env d c st = (after st [Call d c] [], Done None).
Proof.
  unfold invoke, bind, history, emit, ret, after. cbn. by rewrite Hcalm.
Qed.

Lemma openDatabaseForMigration_calm d st :
  openDatabaseForMigration env d st
  = (after st [Call d DrvOpen; Call d DrvCreateMigrationsTable] [], Done tt).
Proof.
  unfold openDatabaseForMigration.
  rewrite (bind_done _ _ _ _ _ (invoke_calm _ _ _)). cbn [check].
  run_step.
  rewrite (bind_done _ _ _ _ _ (invoke_calm _ _ _)).
  by rewrite after_after.
Qed.

Lemma selectMigrations_calm d limit st :
  selectMigrations env d limit st
  = (after st [Call d (DrvSelectMigrations limit)] [],
     Done (drvMigrations env (trace st) d limit)).
Proof.
  unfold selectMigrations. run_step.
  rewrite (bind_done _ _ _ _ _ (invoke_calm _ _ _)). reflexivity.
Qed.

Lemma sameLatest_differs (v : string) (m : list (string * bool)) st :
  (exists w b, (w, b) ∈ m /\ w <> v) ->
  sameLatest v m st = (st, Fail ErrNoRollbackSlaves).
Proof.
  induction m as [|[k b0] m IH]; intros (w & b & Hin & Hne).
  - by apply elem_of_nil in Hin.
  - cbn [sameLatest]. destruct (String.eqb_spec k v) as [->|Hk]; [|reflexivity].
    cbn [negb]. apply IH. apply elem_of_cons in Hin as [Hin|Hin].
    + injection Hin as -> _. congruence.
    + eauto.
Qed.

Lemma sameLatest_cases (v : string) (m : list (string * bool)) st :
  sameLatest v m st = (st, Done tt) \/
  sameLatest v m st = (st, Fail ErrNoRollbackSlaves).
Proof.
  induction m as [|[k b0] m IH]; [by left|].
  cbn [sameLatest]. destruct (negb (String.eqb k v)); [by right | exact IH].
Qed.

(** Opening the replicas stops with [ErrNoRollbackSlaves] at the latest at
    the replica whose answer holds another version, and until then has only
    opened handles and read ledgers. *)
Lemma openSlaves_refuses (v : string) (slaves : list Driver) (j : nat)
    (slaveJ : Driver) st :
  slaves !! j = Some slaveJ ->
  (forall h, exists w b, (w, b) ∈ drvMigrations env h slaveJ 1 /\ w <> v) ->
  exists evs ds,
    openSlaves env slaves 1 (sameLatest v) st
      = (after st evs ds, Fail ErrNoRollbackSlaves) /\
    Forall (fun e => writes e = false) evs.
Proof.
  intros Hj Hdiff. revert j st Hj.
  induction slaves as [|s rest IH]; intros j st Hj; [discriminate|].
  cbn [openSlaves].
  rewrite (bind_done _ _ _ _ _ (openDatabaseForMigration_calm _ _)).
  run_step.
  rewrite (bind_done _ _ _ _ _ (selectMigrations_calm _ _ _)).
  rewrite !after_after. cbn [app].
  set (evs0 := [Call s DrvOpen; Call s DrvCreateMigrationsTable;
                Call s (DrvSelectMigrations 1)]).
  set (m := drvMigrations env _ s 1).
  assert (Hev : Forall (fun e => writes e = false) evs0) by (repeat constructor).
  destruct j as [|j].
  - injection Hj as ->.
    rewrite (bind_fail _ _ _ _ _ (sameLatest_differs v m _ (Hdiff _))). eauto.
  - destruct (sameLatest_cases v m (after st evs0 [s])) as [Hs|Hs].
    + rewrite (bind_done _ _ _ _ _ Hs).
      destruct (IH j (after st evs0 [s]) Hj) as (evs & ds & Hrun & Hevs).
      rewrite (bind_fail _ _ _ _ _ Hrun). rewrite after_after.
      exists (evs0 ++ evs), (ds ++ [s]). split; [reflexivity | by apply Forall_app].
    + rewrite (bind_fail _ _ _ _ _ Hs). eauto.
Qed.

(** When every call succeeds, the primary's latest version is [v], its file
    is found, and some replica answers with a version other than [v], then
    [Rollback] returns [ErrNoRollbackSlaves] without having executed a block
    or deleted a version anywhere. *)
Lemma Rollback_refuses_other_version (rf : list event -> string -> string + error)
    (db : DB) (fuel : nat) (st : state) (drv : Driver) (slaves : list Driver)
    (v filename : string) (b : bool) (j : nat) (slaveJ : Driver) :
  WaitBefore db = false ->
  GetDriver env db = inl drv ->
  GetSlaveDrivers env db = inl slaves ->
  (forall h, drvMigrations env h drv 1 = [(v, b)]) ->
  v <> "" ->
  (forall h, findMigrationFileIn (osReadDir env h (MigrationsDir db))
               (MigrationsDir db) v = inl filename) ->
  slaves !! j = Some slaveJ ->
  (forall h, exists w b', (w, b') ∈ drvMigrations env h slaveJ 1 /\ w <> v) ->
  exists evs,
    Rollback env rf db fuel st
      = ({| trace := trace st ++ evs; deferred := deferred st |},
         Fail ErrNoRollbackSlaves) /\
    Forall (fun e => writes e = false) evs.
Proof.
  intros Hwait Hdrv Hslaves Hlatest Hv Hfile Hj Hdiff.
  unfold Rollback, function.
  set (st0 := {| trace := trace st; deferred := [] |}).
  rewrite Hdrv, Hslaves, Hwait. cbn [lift].
  do 3 run_step.
  rewrite (bind_done _ _ _ _ _ (openDatabaseForMigration_calm _ _)).
  run_step.
  rewrite (bind_done _ _ _ _ _ (selectMigrations_calm _ _ _)).
  rewrite Hlatest. cbn [fmap list_fmap fst last default from_option id].
  destruct (String.eqb_spec v "") as [|_]; [contradiction|].
  run_step. unfold findMigrationFile.
  do 4 run_step. rewrite Hfile. cbn [lift]. run_step.
  rewrite !after_after. cbn [app].
  match goal with
  | |- context [bind (openSlaves env slaves 1 (sameLatest v)) _ ?s] =>
      destruct (openSlaves_refuses v slaves j slaveJ s Hj Hdiff)
        as (evs & ds & Hrun & Hevs)
  end.
  rewrite (bind_fail _ _ _ _ _ Hrun). rewrite after_after.
  eexists. split.
  - unfold after, st0. cbn [trace deferred].
    rewrite <- !(assoc_L (++)). reflexivity.
  - repeat (apply Forall_app; split); try (repeat constructor); try exact Hevs.
    apply Forall_fmap, Forall_forall. intros d _. reflexivity.
Qed.

End Calm.

End RunFacts.

(* ===================================================================== *)
(** ** migration_test.go, replayed on the model                          *)
(* ===================================================================== *)

Module TestSuite.
Import GoStrings Regexp Parser Store Orchestrator Notions Scenario.

(** The cases of [TestParseMigrationContents]. *)
Example test_typical_use_case :
  observe typicalUseCase =
  (("-- migrate:up
create table users (id serial, name text);",
    "-- migrate:down
drop table users;", "", ""),
   (true, true, true, true), None).
Proof. vm_compute. reflexivity. Qed.

Example test_no_space_after_dashes :
  observe "
--migrate:up
create table users (id serial, name text);

--migrate:down
drop table users;
" =
  (("--migrate:up
create table users (id serial, name text);
",
    "--migrate:down
drop table users;
", "", ""),
   (true, true, true, true), None).
Proof. vm_compute. reflexivity. Qed.

Example test_down_before_up :
  observe "-- migrate:down
drop table users;
-- migrate:up
create table users (id serial, name text);
" =
  (("-- migrate:up
create table users (id serial, name text);
",
    "-- migrate:down
drop table users;", "", ""),
   (true, true, true, true), None).
Proof. vm_compute. reflexivity. Qed.

Example test_transaction_false :
  observe "-- migrate:up transaction:false
ALTER TYPE colors ADD VALUE 'orange' AFTER 'red';
" =
  (("-- migrate:up transaction:false
ALTER TYPE colors ADD VALUE 'orange' AFTER 'red';
", "", "", ""),
   (false, true, true, true), None).
Proof. vm_compute. reflexivity. Qed.

Example test_missing_up :
  (observe "-- migrate:down
drop table users;
").2 = Some ErrParseMissingUp.
Proof. vm_compute. reflexivity. Qed.

Example test_leading_comments :
  observe "
-- This migration creates the users table.
-- It'll drop it in the event of a rollback.

-- migrate:up
create table users (id serial, name text);

-- migrate:down
drop table users;
" =
  (("-- migrate:up
create table users (id serial, name text);
",
    "-- migrate:down
drop table users;
", "", ""),
   (true, true, true, true), None).
Proof. vm_compute. reflexivity. Qed.

Example test_statement_first :
  (observe statementFirst).2 = Some ErrParseUnexpectedStmt.
Proof. vm_compute. reflexivity. Qed.

Example test_no_block_at_all :
  (observe "
ALTER TABLE users
ADD COLUMN status status_type DEFAULT 'active';
").2 = Some ErrParseMissingUp.
Proof. vm_compute. reflexivity. Qed.

Example test_duplicate_blocks :
  (observe "
-- migrate:up
ADD COLUMN status status_type DEFAULT 'active';

-- migrate:up transaction:false
ADD COLUMN status status_type DEFAULT 'active';
").2 = Some ErrParseDuplicateBlock.
Proof. vm_compute. reflexivity. Qed.

Example test_slaves :
  observe "-- migrate:up
create table users (id serial, name text);
-- migrate:up:slave
create table users (id serial, name text);
-- migrate:down
drop table users;
-- migrate:down:slave
drop table users;" =
  (("-- migrate:up
create table users (id serial, name text);",
    "-- migrate:down
drop table users;",
    "-- migrate:up:slave
create table users (id serial, name text);",
    "-- migrate:down:slave
drop table users;"),
   (true, true, true, true), None).
Proof. vm_compute. reflexivity. Qed.

(** [TestParseMigrationContentsReplaced], "Test all wildcards", in two
    visiting orders of the mapping, and with the wildcards disabled. *)
Example test_all_wildcards :
  let m := up (parseMigrationContents allWildcards).1 in
  let expected :=
"-- migrate:up
-- DB_NAME: dbmate_slave
-- DB_USER: replicant
-- DB_PASS: abc123
-- DB_SCHEMA: public
" in
  ContentsReplaced m testWildcards true = expected /\
  ContentsReplaced m (reverse testWildcards) true = expected /\
  ContentsReplaced m testWildcards false = allWildcards.
Proof. vm_compute. repeat split; reflexivity. Qed.

(** The example of the specification for [migrationVersion], and file
    names the store keeps and drops. *)
Example test_store :
  migrationVersion "20240101120000_x.sql" = "20240101120000" /\
  migrationVersion testMigrationName = testVersion /\
  findMigrationFilesIn
    (Some [{| Name := "20200102_b.sql"; IsDir := false |};
           {| Name := "README.md"; IsDir := false |};
           {| Name := "2019_dir.sql"; IsDir := true |};
           {| Name := "x1.sql"; IsDir := false |};
           {| Name := "20200101_a.sql"; IsDir := false |}])
    "./db/migrations" migrationFileRegexp
  = inl ["20200101_a.sql"; "20200102_b.sql"].
Proof. vm_compute. repeat split; reflexivity. Qed.

(** Scenario S6 of the specification: the replica's latest version is
    another one than the primary's.  [Rollback] returns
    [ErrNoRollbackSlaves] and has executed no block and deleted no version
    (an instance of [Rollback_refuses_other_version]). *)
Example test_rollback_refused :
  let ledger := fun d => if bool_decide (d = primary) then appliedTest
                         else [("20141129054053", true)] in
  let r := Rollback (calm ledger) testFiles (newDB [url "slave0"]) 0 start in
  r.2 = Fail ErrNoRollbackSlaves /\
  filter (fun e => writes e = true) (trace r.1) = [] /\
  trace r.1 =
    [Call primary DrvOpen; Call primary DrvCreateMigrationsTable;
     Call primary (DrvSelectMigrations 1); ReadDir "./db/migrations";
     Call replica0 DrvOpen; Call replica0 DrvCreateMigrationsTable;
     Call replica0 (DrvSelectMigrations 1);
     Call replica0 SqlClose; Call primary SqlClose].
Proof. vm_compute. repeat split; reflexivity. Qed.

End TestSuite.

(* ===================================================================== *)
(** ** The claims                                                        *)
(* ===================================================================== *)

Import GoStrings Regexp Parser Store Orchestrator Notions Scenario.
Import StringFacts RegexpFacts ReplaceFacts ParserFacts RunFacts.
Import ReplaceNotions CutFacts.

(** C1 (the code departs from the claim).  [Migrate] with two replicas, of
    which the first has applied the test migration and the second has not,
    and a primary that has not: the list of selected replicas is [[1]], yet
    the [up:slave] block is executed and the version inserted on the first
    replica too. *)
Theorem Migrate_runs_on_applied_replica :
  let ledger := fun d => if bool_decide (d = replica0) then appliedTest else [] in
  let r := Migrate (calm ledger) testFiles (newDB [url "slave0"; url "slave1"]) 0 start in
  r.2 = Done tt /\
  mapGet (ledger replica0) (migrationVersion testMigrationName) = true /\
  slavesWithout 0 [ledger replica0; ledger replica1]
    (migrationVersion testMigrationName) = [1%nat] /\
  callsOn replica0 (trace r.1) =
    [DrvOpen; DrvCreateMigrationsTable; DrvSelectMigrations (-1);
     SqlBegin; SqlExec (Contents (upSlave testParsed));
     DrvInsertMigration testVersion; SqlCommit; SqlClose] /\
  callsOn replica1 (trace r.1) = callsOn replica0 (trace r.1).
Proof. vm_compute. repeat split; reflexivity. Qed.

(** C2 (the code departs from the claim).  [Rollback] when the primary's
    most recent version is that of the test migration and the replica has
    applied nothing: the check of the replica passes, the [down] block is
    executed and the version deleted on the primary, then [down:slave] and
    the deletion on the replica, and [Rollback] returns no error. *)
Theorem Rollback_with_empty_replica :
  let ledger := fun d => if bool_decide (d = primary) then appliedTest else [] in
  let r := Rollback (calm ledger) testFiles (newDB [url "slave0"]) 0 start in
  r.2 = Done tt /\
  ledger replica0 = [] /\
  callsOn primary (trace r.1) =
    [DrvOpen; DrvCreateMigrationsTable; DrvSelectMigrations 1;
     SqlBegin; SqlExec (Contents (down testParsed));
     DrvDeleteMigration testVersion; SqlCommit;
     DrvOpen; DrvCreateMigrationsTable; DrvDumpSchema; SqlClose; SqlClose] /\
  callsOn replica0 (trace r.1) =
    [DrvOpen; DrvCreateMigrationsTable; DrvSelectMigrations 1;
     SqlBegin; SqlExec (Contents (downSlave testParsed));
     DrvDeleteMigration testVersion; SqlCommit; SqlClose].
Proof. vm_compute. repeat split; reflexivity. Qed.

(** C3 (the code departs from the claim).  [Drop] on a primary with two
    replicas where every call succeeds: [DropDatabase] is called on the
    primary, on both replicas, and on both replicas a second time, because
    the replica drivers are appended to a list that holds them already.
    [Create], next to it, calls [CreateDatabase] once on each. *)
Theorem Drop_drops_replicas_twice :
  let db := newDB [url "slave0"; url "slave1"] in
  let dropped := Drop (calm (fun _ => [])) db 0 start in
  let created := Create (calm (fun _ => [])) db 0 start in
  dropped.2 = Done tt /\
  trace dropped.1 =
    [Call primary DrvDropDatabase;
     Call replica0 DrvDropDatabase; Call replica1 DrvDropDatabase;
     Call replica0 DrvDropDatabase; Call replica1 DrvDropDatabase] /\
  created.2 = Done tt /\
  trace created.1 =
    [Call primary DrvCreateDatabase;
     Call replica0 DrvCreateDatabase; Call replica1 DrvCreateDatabase].
Proof. vm_compute. repeat split; reflexivity. Qed.

(** C4 (the code departs from the claim).  [wait] with an interval of one
    second and a timeout of three, on a database whose first [Ping] fails
    and whose later ones succeed: the second [Ping] succeeds, and the loop
    goes on to sleep and [Ping] twice more before [wait] returns. *)
Theorem wait_goes_on_after_success :
  let r := wait (world (fun _ => []) refusedOnce) (newDB []) 10 [primary] start in
  r.2 = Done tt /\
  trace r.1 =
    [Call primary DrvPing; Log "Waiting for database";
     Log "."; Sleep 1000000000; Call primary DrvPing; Log NL;
     Log "."; Sleep 1000000000; Call primary DrvPing; Log NL;
     Log "."; Sleep 1000000000; Call primary DrvPing; Log NL].
Proof. vm_compute. split; reflexivity. Qed.




(** C6, as stated, fails: a text whose first line is a statement, followed
    by a [down] block only, is answered with [ErrParseMissingUp]; followed
    by two [up] blocks, with [ErrParseDuplicateBlock]. *)
Lemma statement_before_directive_other_error :
  let stmt := "CREATE TYPE status_type AS ENUM ('active', 'inactive');" in
  stmt ∈ Split1 LF (slice onlyDown 0 (scanBlocks onlyDown).2) /\
  stmt ∈ Split1 LF (slice twoUps 0 (scanBlocks twoUps).2) /\
  isEmptyLine stmt = false /\ isCommentLine stmt = false /\
  (parseMigrationContents onlyDown).2 = Some ErrParseMissingUp /\
  (parseMigrationContents twoUps).2 = Some ErrParseDuplicateBlock.
Proof.
  vm_compute. repeat split; try reflexivity.
  - apply elem_of_cons. by left.
  - apply elem_of_cons. by left.
Qed.

(** C6, amended.  For every text with a line before the first directive
    that is neither empty (white space only) nor a comment (white space, then
    [--]), [parseMigrationContents] returns an error:
    [ErrParseDuplicateBlock] when a kind of block is found twice, otherwise
    [ErrParseMissingUp] when no [up] block is found, and otherwise
    [ErrParseUnexpectedStmt]. *)
Theorem statement_before_first_directive (contents line : string) :
  line ∈ Split1 LF (slice contents 0 (scanBlocks contents).2) ->
  allBytes space line = false ->
  (forall ws rest, line = ws +:+ "--" +:+ rest -> allBytes space ws = false) ->
  let r := parseMigrationContents contents in
  match classifyAll contents (scanBlocks contents).1 noBlocks with
  | inl _ => r.2 = Some ErrParseDuplicateBlock
  | inr p =>
      if String.eqb (Contents (up p)) "" then r.2 = Some ErrParseMissingUp
      else r = (p, Some ErrParseUnexpectedStmt)
  end.
Proof.
  intros Hline Hne Hnc r. subst r. unfold parseMigrationContents.
  destruct (scanBlocks contents) as [blocks first] eqn:Escan.
  cbn [fst snd] in *.
  assert (Hstmt : statementsPrecedeMigrateBlocks contents first = true).
  { unfold statementsPrecedeMigrateBlocks. apply existsb_exists.
    exists line. split; [by apply list_elem_of_In|].
    apply negb_true_iff, orb_false_iff. split.
    - destruct (isEmptyLine line) eqn:E; [|reflexivity].
      apply isEmptyLine_spec in E. congruence.
    - destruct (isCommentLine line) eqn:E; [|reflexivity].
      apply isCommentLine_spec in E as (ws & rest & Hl & Hws).
      rewrite (Hnc ws rest Hl) in Hws. discriminate. }
  destruct blocks as [|b blocks].
  { exfalso. rewrite scanBlocks_closed in Escan.
    injection Escan as Hb Hf.
    destruct (FindAllIndex scanRegExp contents) as [|m ms]; [|discriminate].
    subst first. change (slice contents 0 (-1)) with "" in Hline.
    apply list_elem_of_singleton in Hline. subst line. discriminate. }
  cbn [length Nat.eqb].
  destruct (classifyAll contents (b :: blocks) noBlocks) as [p|p];
    [reflexivity|].
  destruct (String.eqb (Contents (up p)) ""); [reflexivity|].
  rewrite Hstmt. reflexivity.
Qed.

(** C6 on the input of the test "does *not* allow arbitrary statements
    preceding the migrate blocks". *)
Lemma statement_before_first_directive_witness :
  let line := "CREATE TYPE status_type AS ENUM ('active', 'inactive');" in
  line ∈ Split1 LF (slice statementFirst 0 (scanBlocks statementFirst).2) /\
  allBytes space line = false /\
  (parseMigrationContents statementFirst).2 = Some ErrParseUnexpectedStmt.
Proof.
  cbn zeta.
  assert (H1 : "CREATE TYPE status_type AS ENUM ('active', 'inactive');"
               ∈ Split1 LF (slice statementFirst 0 (scanBlocks statementFirst).2)).
  { vm_compute. do 2 (apply elem_of_cons; right). apply elem_of_cons. by left. }
  assert (H2 : allBytes space
                 "CREATE TYPE status_type AS ENUM ('active', 'inactive');" = false)
    by reflexivity.
  split; [exact H1|]. split; [exact H2|].
  pose proof (statement_before_first_directive statementFirst _ H1 H2) as H.
  cbn zeta in H.
  assert (H3 : forall ws rest,
             "CREATE TYPE status_type AS ENUM ('active', 'inactive');"
             = ws +:+ "--" +:+ rest -> allBytes space ws = false).
  { intros [|c ws] rest E.
    - rewrite str_app_nil_l in E. discriminate.
    - rewrite str_app_cons in E. injection E as <- _. reflexivity. }
  specialize (H H3). vm_compute in H. vm_compute. exact (f_equal snd H).
Defined.

(** C7.  [findMigrationFiles] with [migrationFileRegexp]: when the
    directory cannot be read the result is [ErrMigrationDirNotFound]
    (wrapped with the name of the directory); otherwise it is the names of
    the entries that are not directories and whose name is a digit, then
    bytes other than line feeds, then [.sql], in ascending byte-wise order.
    [migrationVersion] returns the longest prefix of the file name made of
    decimal digits. *)
Theorem store_files_and_versions (env : Env) (dir : string) (st : state) :
  let r := findMigrationFiles env dir migrationFileRegexp st in
  trace r.1 = trace st ++ [ReadDir dir] /\
  match osReadDir env (trace st) dir with
  | None => r.2 = Fail (Wrapped ErrMigrationDirNotFound (" `" +:+ dir +:+ "`"))
  | Some files =>
      exists names,
        r.2 = Done names /\
        Sorted String.le names /\
        names ≡ₚ Name <$> filter (fun f => IsDir f = false /\
                   MatchString migrationFileRegexp (Name f) = true) files /\
        (forall n, n ∈ names <->
           exists f, f ∈ files /\ Name f = n /\ IsDir f = false /\
             exists d mid, n = String d (mid +:+ ".sql") /\
               digit d = true /\ allBytes anyButLF mid = true)
  end /\
  (forall filename,
     exists rest,
       filename = migrationVersion filename +:+ rest /\
       allBytes digit (migrationVersion filename) = true /\
       match rest with String c _ => digit c = false | "" => True end).
Proof.
  cbn zeta. unfold findMigrationFiles, bind, history, emit, lift.
  cbn -[matchingNames migrationFileRegexp sortStrings MatchString filter].
  split; [|split].
  - destruct (findMigrationFilesIn _ _ _); reflexivity.
  - destruct (osReadDir env (trace st) dir) as [files|]; [|reflexivity].
    cbn -[matchingNames migrationFileRegexp sortStrings MatchString filter].
    eexists. split; [reflexivity|].
    assert (Hfilter : matchingNames migrationFileRegexp files
              = Name <$> filter (fun f => IsDir f = false /\
                   MatchString migrationFileRegexp (Name f) = true) files).
    { induction files as [|f files IH]; [reflexivity|].
      cbn [matchingNames]. rewrite filter_cons.
      destruct (IsDir f) eqn:Ed.
      - rewrite decide_False by (intros [? _]; discriminate). exact IH.
      - destruct (MatchString migrationFileRegexp (Name f)) eqn:Em; cbn [negb].
        + rewrite decide_True by auto. rewrite fmap_cons. by rewrite IH.
        + rewrite decide_False by (intros [_ ?]; discriminate). exact IH. }
    split; [apply Sorted_merge_sort, _|].
    split; [unfold sortStrings; by rewrite merge_sort_Permutation, Hfilter|].
    intros n. unfold sortStrings. rewrite merge_sort_Permutation, Hfilter.
    rewrite list_elem_of_fmap. split.
    + intros (f & -> & Hf). apply list_elem_of_filter in Hf as [[Hd Hm] Hf].
      exists f. repeat split; try assumption. by apply migrationFile_spec.
    + intros (f & Hf & <- & Hd & Hm). exists f. split; [reflexivity|].
      apply list_elem_of_filter. split; [|exact Hf].
      split; [exact Hd | by apply migrationFile_spec].
  - intros filename. rewrite migrationVersion_spec.
    apply leadingRun_split.
Qed.

(** C8, as stated, fails: the result is not determined by the contents and
    the mapping.  For the mapping [A -> {{B}}, B -> x] and the contents
    [{{A}}], visiting [A] first gives [x] (the occurrence of [{{A}}] is not
    replaced by [W[A]]), visiting [B] first gives [{{B}}].  The same happens
    without a token on any right-hand side: for [A -> {, B -> y] and the
    contents [{{A}}{B}}] the two orders give [y] and [{{B}}]. *)
Lemma ContentsReplaced_depends_on_order :
  let m1 := {| Contents := "{{A}}"; Options := ∅ |} in
  let m2 := {| Contents := "{{A}}{B}}"; Options := ∅ |} in
  ContentsReplaced m1 [("A", "{{B}}"); ("B", "x")] true = "x" /\
  ContentsReplaced m1 [("B", "x"); ("A", "{{B}}")] true = "{{B}}" /\
  ContentsReplaced m2 [("A", "{"); ("B", "y")] true = "y" /\
  ContentsReplaced m2 [("B", "y"); ("A", "{")] true = "{{B}}".
Proof. vm_compute. repeat split; reflexivity. Qed.

Lemma foldl_replaceWildcard_token (X : string) (w : list (string * string))
    (pre post : string) :
  noBrace X = true ->
  (forall e, e ∈ w -> noBrace e.1 = true /\ e.1 <> X) ->
  foldl replaceWildcard (pre +:+ token X +:+ post) w
  = foldl replaceWildcard pre w +:+ token X +:+ foldl replaceWildcard post w.
Proof.
  intros HX. revert pre post. induction w as [|e w IH]; intros pre post Hw;
    [reflexivity|].
  cbn [foldl]. destruct (Hw e) as [He Hne]; [apply elem_of_cons; by left|].
  assert (Hstep : replaceWildcard (pre +:+ token X +:+ post) e
            = replaceWildcard pre e +:+ token X +:+ replaceWildcard post e).
  { unfold replaceWildcard, ReplaceAll.
    change ("{{" +:+ e.1 +:+ "}}") with (token e.1).
    apply (replaceFrom_token e.1 X He HX Hne). lia. }
  rewrite Hstep. apply IH. intros e' He'. apply Hw, elem_of_cons. by right.
Qed.

(** C8, amended.  With the flag false [ContentsReplaced] returns the
    contents, whatever the mapping.  With the flag true it takes the entries
    of the mapping one after the other, in the order the map is visited, and
    replaces in the text obtained so far the occurrences of [{{k}}] by
    [W[k]]: the text obtained so far is cut at the occurrences of [{{k}}],
    from left to right and without overlap, and going on to the entry
    [k -> v] gives the same pieces with [v] between them instead of
    [{{k}}].  Contents in which the token of no key occurs come back
    unchanged; and when the keys have no braces, an [{{IDENT}}] token of the
    contents whose identifier has no braces and is not a key stays where it
    is, what is before and after it being substituted independently. *)
Theorem ContentsReplaced_spec (m : Migration) (w : list (string * string)) :
  ContentsReplaced m w false = Contents m /\
  ContentsReplaced m w true = foldl replaceWildcard (Contents m) w /\
  ((forall e, e ∈ w -> ~ occurs (token e.1) (Contents m)) ->
   ContentsReplaced m w true = Contents m) /\
  (forall X pre post,
     noBrace X = true ->
     (forall e, e ∈ w -> noBrace e.1 = true /\ e.1 <> X) ->
     Contents m = pre +:+ token X +:+ post ->
     ContentsReplaced m w true
     = ContentsReplaced {| Contents := pre; Options := Options m |} w true
       +:+ token X
       +:+ ContentsReplaced {| Contents := post; Options := Options m |} w true) /\
  ContentsReplaced m [] true = Contents m /\
  (forall k v, exists pieces,
     cutAt (token k) (ContentsReplaced m w true) pieces /\
     ContentsReplaced m w true = joinWith (token k) pieces /\
     ContentsReplaced m (w ++ [(k, v)]) true = joinWith v pieces).
Proof.
  assert (Hfold : forall m' w', ContentsReplaced m' w' true
                    = foldl replaceWildcard (Contents m') w').
  { intros m' w'. unfold ContentsReplaced. by destruct w'. }
  split; [reflexivity|]. split; [apply Hfold|]. split; [|split; [|split]].
  - rewrite Hfold. generalize (Contents m). clear Hfold.
    induction w as [|e w IH]; intros s Hw; [reflexivity|].
    cbn [foldl]. unfold replaceWildcard at 2.
    change ("{{" +:+ e.1 +:+ "}}") with (token e.1).
    rewrite ReplaceAll_absent by (apply Hw, elem_of_cons; by left).
    apply IH. intros e' He'. apply Hw, elem_of_cons. by right.
  - intros X pre post HX Hw Hm. rewrite !Hfold, Hm. cbn [Contents].
    by apply foldl_replaceWildcard_token.
  - reflexivity.
  - intros k v.
    destruct (cut_exists (token k) (token_nonempty k) (ContentsReplaced m w true))
      as [pieces Hcut].
    exists pieces. split; [exact Hcut|]. split; [by apply cutAt_join|].
    rewrite (Hfold m (w ++ [(k, v)])), foldl_app, <- Hfold. cbn [foldl].
    unfold replaceWildcard. cbn [fst snd].
    change ("{{" +:+ k +:+ "}}") with (token k).
    by apply ReplaceAll_cut.
Qed.

(** C8 on the wildcards of the test-suite.  [DB_OWNER] is not a key,
    [DB_USER] is: the token of [DB_OWNER] stays.  And going on from
    [DB_USER] to [DB_NAME] puts [dbmate] where [{{DB_NAME}}] was, twice. *)
Lemma ContentsReplaced_spec_witness :
  let w := [("DB_USER", "replicant"); ("DB_NAME", "dbmate")] in
  let m := {| Contents := "grant {{DB_USER}} to {{DB_OWNER}} on {{DB_NAME}}";
              Options := ∅ |} in
  let m' := {| Contents := "grant {{DB_USER}} on {{DB_NAME}}, {{DB_NAME}}_test";
               Options := ∅ |} in
  ContentsReplaced m w true
  = ContentsReplaced {| Contents := "grant {{DB_USER}} to "; Options := ∅ |} w true
    +:+ token "DB_OWNER"
    +:+ ContentsReplaced {| Contents := " on {{DB_NAME}}"; Options := ∅ |} w true /\
  (exists pieces,
     cutAt "{{DB_NAME}}" "grant replicant on {{DB_NAME}}, {{DB_NAME}}_test" pieces /\
     "grant replicant on {{DB_NAME}}, {{DB_NAME}}_test" = joinWith "{{DB_NAME}}" pieces /\
     "grant replicant on dbmate, dbmate_test" = joinWith "dbmate" pieces).
Proof.
  cbn zeta. split.
  - refine (proj1 (proj2 (proj2 (proj2 (ContentsReplaced_spec _ _)))) "DB_OWNER" _ _ _ _ _).
    + reflexivity.
    + intros e He. repeat (apply elem_of_cons in He as [->|He]; [by split|]).
      by apply elem_of_nil in He.
    + reflexivity.
  - exact (proj2 (proj2 (proj2 (proj2 (proj2
             (ContentsReplaced_spec
                {| Contents := "grant {{DB_USER}} on {{DB_NAME}}, {{DB_NAME}}_test";
                   Options := ∅ |}
                [("DB_USER", "replicant")]))))) "DB_NAME" "dbmate").
Defined.

(** C9.  When every database reports the version [v] as applied, the body
    of the loop of [migrate] does nothing for a file of version [v]: it
    returns before the file is read or parsed.  Consequently the run of
    [Migrate] (its result and everything it does) is the same whatever the
    files of version [v] contain, so that no parse error can come from
    them. *)
Theorem applied_file_is_skipped (env : Env) (db : DB) (fuel : nat) (v : string)
    (rf rf' : list event -> string -> string + error) (st : state) :
  (forall h d, mapGet (drvMigrations env h d (-1)) v = true) ->
  (forall h filename, migrationVersion filename <> v ->
     rf' h (pathJoin env (MigrationsDir db) filename)
     = rf h (pathJoin env (MigrationsDir db) filename)) ->
  (forall drv slavesDrv h (hs : list (list event * Driver)) filename st',
     migrationVersion filename = v ->
     migrateFile env rf db drv slavesDrv (drvMigrations env h drv (-1))
       ((fun x => drvMigrations env x.1 x.2 (-1)) <$> hs) filename st'
     = (st', Done tt)) /\
  Migrate env rf db fuel st = Migrate env rf' db fuel st.
Proof.
  intros Happlied Hrf. split.
  - intros drv slavesDrv h hs filename st' <-.
    rewrite migrateFile_skip; [reflexivity | apply Happlied |].
    apply Forall_fmap, Forall_forall. intros x _. apply Happlied.
  - unfold Migrate.
    apply bind_cong; intros drv st1. apply bind_cong; intros slavesDrv st2.
    unfold migrate. apply function_cong. intros st3.
    do 5 (apply bind_cong; intros ? ?).
    apply bind_post. intros applied s1 Hsel.
    apply bind_post. intros appliedSlaves s2 Hopen.
    apply bind_head.
    apply selectMigrations_post in Hsel as [h ->].
    apply openSlaves_post in Hopen.
    apply (migrateFiles_agree env rf rf' db drv slavesDrv _ _ v);
      [apply Happlied | | exact Hrf].
    eapply Forall_impl; [exact Hopen|].
    intros m (h' & d & ->). apply Happlied.
Qed.

(** C9 on a primary and a replica that have both applied the test
    migration: with the file replaced by a text that does not parse,
    [Migrate] runs as before and returns no error. *)
Lemma applied_file_is_skipped_witness :
  let env := calm (fun _ => appliedTest) in
  let db := newDB [url "slave0"] in
  (parseMigrationContents garbage).2 = Some ErrParseMissingUp /\
  Migrate env testFiles db 0 start = Migrate env brokenFiles db 0 start /\
  (Migrate env brokenFiles db 0 start).2 = Done tt.
Proof.
  cbn zeta. split; [reflexivity|].
  assert (H : Migrate (calm (fun _ => appliedTest)) testFiles (newDB [url "slave0"]) 0 start
              = Migrate (calm (fun _ => appliedTest)) brokenFiles (newDB [url "slave0"]) 0 start).
  { refine (proj2 (applied_file_is_skipped _ _ 0 testVersion testFiles brokenFiles
                     start _ _)).
    - intros h d. reflexivity.
    - intros h filename Hne. unfold brokenFiles.
      destruct (String.eqb_spec
                  (pathJoin (calm (fun _ => appliedTest))
                     (MigrationsDir (newDB [url "slave0"])) filename)
                  ("./db/migrations/" +:+ testMigrationName)) as [E|E];
        [|reflexivity].
      exfalso. apply Hne. vm_compute in E. simplify_eq; reflexivity. }
  split; [exact H|]. rewrite <- H. reflexivity.
Defined.

(** C10.  [Transaction()] answers false exactly when the options map binds
    the key "transaction" to the text "false"; a missing key and any other
    value give true. *)
Theorem Transaction_false_iff (m : gmap string string) :
  Transaction m = false <-> m !! "transaction" = Some "false".
Proof.
  unfold Transaction. rewrite negb_false_iff, String.eqb_eq.
  destruct (m !! "transaction") as [v|] eqn:E; simpl.
  - split; [intros -> | intros [= ->]]; reflexivity.
  - split; discriminate.
Qed.

(* ===================================================================== *)
(** ** Further properties of the code                                    *)
(* ===================================================================== *)

Import Commands Cases.
Import Behaviour WaitNotions DumpNotions CalmNotions StatusNotions StoreNotions
  BlockNotions OptionNotions BlockRunNotions EachNotions HandleNotions
  DriverNotions.

(* ===================================================================== *)
(** ** Facts about what computations do                                  *)
(* ===================================================================== *)

Module BehaviourFacts.
Import Behaviour.

#[export] Hint Extern 1 (any _) => exact I : core.

Lemma after_nil st : after st [] [] = st.
Proof. destruct st. unfold after. cbn. by rewrite app_nil_r. Qed.

Section Does.
Context (P : event -> Prop) (Q : Driver -> Prop).

Lemma does_pure {A} (R : outcome A -> Prop) (c : M A) (o : outcome A) :
  (forall st, c st = (st, o)) -> R o -> does P Q R c.
Proof.
  intros Hc HR st. exists [], []. rewrite Hc, after_nil. cbn. auto.
Qed.

Lemma does_ret {A} (R : outcome A -> Prop) (a : A) : R (Done a) -> does P Q R (ret a).
Proof. intros. by eapply does_pure. Qed.

Lemma does_fail {A} (R : outcome A -> Prop) (e : error) :
  R (Fail e) -> does P Q R (fail e).
Proof. intros. by eapply does_pure. Qed.

Lemma does_diverge {A} (R : outcome A -> Prop) :
  R Diverged -> does P Q R (@diverge A).
Proof. intros. by eapply does_pure. Qed.

Lemma does_emit (R : outcome unit -> Prop) (e : event) :
  P e -> R (Done tt) -> does P Q R (emit e).
Proof.
  intros He HR st. exists [e], []. cbn. repeat split; auto.
Qed.

Lemma does_deferClose (R : outcome unit -> Prop) (d : Driver) :
  Q d -> R (Done tt) -> does P Q R (deferClose d).
Proof.
  intros Hd HR st. exists [], [d]. cbn. unfold after. rewrite app_nil_r.
  repeat split; auto.
Qed.

Lemma does_bind {A B} (R1 : outcome A -> Prop) (R2 : outcome B -> Prop)
    (c : M A) (k : A -> M B) :
  does P Q R1 c ->
  (forall a, R1 (Done a) -> does P Q R2 (k a)) ->
  (forall e, R1 (Fail e) -> R2 (Fail e)) ->
  (R1 Diverged -> R2 Diverged) ->
  does P Q R2 (bind c k).
Proof.
  intros Hc Hk Hf Hd st. destruct (Hc st) as (evs & ds & Hst & Hevs & Hds & HR).
  unfold bind. destruct (c st) as [st' [a|e|]]; cbn in Hst, HR; subst st'.
  - destruct (Hk a HR (after st evs ds)) as (evs' & ds' & Hst' & Hevs' & Hds' & HR').
    exists (evs ++ evs'), (ds' ++ ds). rewrite Hst', after_after.
    repeat split; auto; by apply Forall_app.
  - exists evs, ds. cbn. auto.
  - exists evs, ds. cbn. auto.
Qed.

(** The common case: nothing is asked of the outcome. *)
Lemma does_bind_any {A B} (c : M A) (k : A -> M B) :
  does P Q any c -> (forall a, does P Q any (k a)) -> does P Q any (bind c k).
Proof. intros Hc Hk. eapply does_bind; eauto; intros; exact I. Qed.

Lemma does_invoke env (d : Driver) (c : call) :
  P (Call d c) -> does P Q any (invoke env d c).
Proof.
  intros He st. exists [Call d c], []. cbn. repeat split; auto.
Qed.

Lemma does_check (err : option error) : does P Q any (check err).
Proof. destruct err; [apply does_fail | apply does_ret]; exact I. Qed.

Lemma does_lift {A} (x : A + error) : does P Q any (lift x).
Proof. destruct x; [apply does_ret | apply does_fail]; exact I. Qed.

Lemma does_history : does P Q any history.
Proof. intros st. exists [], []. rewrite after_nil. cbn. repeat split; auto. Qed.

Lemma does_errorOf (c : M unit) : does P Q any c -> does P Q any (errorOf c).
Proof.
  intros Hc st. destruct (Hc st) as (evs & ds & Hst & ? & ? & _).
  exists evs, ds. unfold errorOf. destruct (c st) as [st' [[]|e|]]; cbn in *; auto.
Qed.

Lemma does_function {A} (Q' : Driver -> Prop) (R : outcome A -> Prop) (body : M A) :
  does P Q R body -> (forall d, Q d -> P (Call d SqlClose)) ->
  does P Q' R (function body).
Proof.
  intros Hb Hclose st.
  destruct (Hb {| trace := trace st; deferred := [] |})
    as (evs & ds & Hst & Hevs & Hds & HR).
  unfold function.
  destruct (body {| trace := trace st; deferred := [] |}) as [st' o].
  cbn in Hst, HR. subst st'. cbn [after trace deferred].
  assert (Hc : Forall P ((fun d => Call d SqlClose) <$> (ds ++ []))).
  { rewrite app_nil_r. apply Forall_fmap. eapply Forall_impl; [exact Hds|]. auto. }
  destruct o as [a|e|].
  - exists (evs ++ ((fun d => Call d SqlClose) <$> (ds ++ []))), [].
    unfold after. cbn. rewrite (assoc_L (++)). repeat split; auto.
    by apply Forall_app.
  - exists (evs ++ ((fun d => Call d SqlClose) <$> (ds ++ []))), [].
    unfold after. cbn. rewrite (assoc_L (++)). repeat split; auto.
    by apply Forall_app.
  - exists evs, []. unfold after. cbn. repeat split; auto.
Qed.

End Does.

End BehaviourFacts.

Import BehaviourFacts.

(* ===================================================================== *)
(** ** The reach of the functions of the orchestrator                    *)
(* ===================================================================== *)

Module FootprintFacts.

(** One step of a proof that a computation does only events of [P]. *)
Ltac does_step :=
  lazymatch goal with
  | |- does _ _ _ (bind _ _) => apply does_bind_any; [|intros ?]
  | |- does _ _ _ (ret _) => apply does_ret; exact I
  | |- does _ _ _ (fail _) => apply does_fail; exact I
  | |- does _ _ _ diverge => apply does_diverge; exact I
  | |- does _ _ _ (check _) => apply does_check
  | |- does _ _ _ (lift _) => apply does_lift
  | |- does _ _ _ history => apply does_history
  | |- does _ _ _ (errorOf _) => apply does_errorOf
  | |- does _ _ _ (invoke _ _ _) => apply does_invoke
  | |- does _ _ _ (emit _) => apply does_emit; [|exact I]
  | |- does _ _ _ (deferClose _) => apply does_deferClose; [|exact I]
  | |- does _ _ _ (match ?x with _ => _ end) => destruct x
  end.

Ltac does_steps := repeat does_step.

Section Footprint.
Context (env : Env) (db : DB).
Context (P : event -> Prop).
Context (Plog : forall t, P (Log t)) (Pout : forall t, P (Stdout t)).

Lemma does_logf {Q : Driver -> Prop} t : does P Q any (logf t).
Proof. unfold logf. does_steps. apply Plog. Qed.

Lemma does_printf {Q : Driver -> Prop} t : does P Q any (printf t).
Proof. unfold printf. does_steps. apply Pout. Qed.

Lemma does_waitLoop {Q : Driver -> Prop} fuel drv i err successful :
  P (Call drv DrvPing) -> P (Sleep (WaitInterval db)) ->
  does P Q any (waitLoop env db fuel drv i err successful).
Proof.
  intros Hping Hsleep. revert i err successful.
  induction fuel as [|fuel IH]; intros i err successful; cbn [waitLoop];
    does_steps; auto using does_logf.
Qed.

Lemma does_waitOne {Q : Driver -> Prop} fuel drv :
  P (Call drv DrvPing) -> P (Sleep (WaitInterval db)) ->
  does P Q any (waitOne env db fuel drv).
Proof.
  intros Hping Hsleep. unfold waitOne.
  does_steps; auto using does_logf, does_waitLoop.
Qed.

Lemma does_wait {Q : Driver -> Prop} fuel ds :
  (forall d, d ∈ ds -> P (Call d DrvPing)) -> P (Sleep (WaitInterval db)) ->
  does P Q any (wait env db fuel ds).
Proof.
  intros Hping Hsleep. induction ds as [|d ds IH]; cbn [wait]; does_steps.
  - apply does_waitOne; [apply Hping; left | exact Hsleep].
  - apply IH. intros d' Hd'. apply Hping. by right.
Qed.

Lemma does_open {Q : Driver -> Prop} d :
  P (Call d DrvOpen) -> P (Call d DrvCreateMigrationsTable) -> P (Call d SqlClose) ->
  does P Q any (openDatabaseForMigration env d).
Proof. intros. unfold openDatabaseForMigration. does_steps; auto. Qed.

Lemma does_select {Q : Driver -> Prop} d limit :
  P (Call d (DrvSelectMigrations limit)) ->
  does P Q any (selectMigrations env d limit).
Proof. intros. unfold selectMigrations. does_steps; auto. Qed.

Lemma does_findMigrationFiles {Q : Driver -> Prop} dir re :
  P (ReadDir dir) -> does P Q any (findMigrationFiles env dir re).
Proof. intros. unfold findMigrationFiles. does_steps; auto. Qed.

Lemma does_findMigrationFile {Q : Driver -> Prop} dir ver :
  P (ReadDir dir) -> does P Q any (findMigrationFile env dir ver).
Proof. intros. unfold findMigrationFile. does_steps; auto. Qed.

Lemma does_parseMigration {Q : Driver -> Prop} rf path :
  P (ReadFile path) -> does P Q any (parseMigration rf path).
Proof. intros. unfold parseMigration. does_steps; auto. Qed.

Lemma does_ensureDir {Q : Driver -> Prop} dir : P (MkdirAll dir) -> does P Q any (ensureDir env dir).
Proof. intros. unfold ensureDir. does_steps; auto. Qed.

Lemma does_openSlaves {Q : Driver -> Prop} slaves limit (onEach : list (string * bool) -> M unit) :
  (forall d, d ∈ slaves ->
     P (Call d DrvOpen) /\ P (Call d DrvCreateMigrationsTable) /\
     P (Call d SqlClose) /\ P (Call d (DrvSelectMigrations limit)) /\ Q d) ->
  (forall m, does P Q any (onEach m)) ->
  does P Q any (openSlaves env slaves limit onEach).
Proof.
  intros Hs Hon. induction slaves as [|d slaves IH]; cbn [openSlaves]; does_steps.
  - destruct (Hs d) as (? & ? & ? & ? & ?); [left|]. by apply does_open.
  - destruct (Hs d) as (? & ? & ? & ? & ?); [left|]. done.
  - destruct (Hs d) as (? & ? & ? & ? & ?); [left|]. by apply does_select.
  - apply Hon.
  - apply IH. intros d' Hd'. apply Hs. by right.
Qed.

Lemma does_sameLatest {Q : Driver -> Prop} latest m : does P Q any (sameLatest latest m).
Proof.
  induction m as [|[v b] m IH]; cbn [sameLatest]; does_steps. exact IH.
Qed.

Lemma does_printVerbose {Q : Driver -> Prop} r : does P Q any (printVerbose r).
Proof. unfold printVerbose. does_steps; apply does_logf. Qed.

Lemma does_doTransaction {Q : Driver -> Prop} d (tx : M (option error)) :
  P (Call d SqlBegin) -> P (Call d SqlCommit) -> P (Call d SqlRollback) ->
  does P Q any tx -> does P Q any (doTransaction env d tx).
Proof. intros. unfold doTransaction. does_steps; auto. Qed.

Lemma does_execUp {Q : Driver -> Prop} ver d m :
  P (Call d (SqlExec (Contents m))) -> P (Call d (DrvInsertMigration ver)) ->
  does P Q any (execUp env db ver d m).
Proof. intros. unfold execUp. does_steps; auto using does_printVerbose. Qed.

Lemma does_execDown {Q : Driver -> Prop} ver d m :
  P (Call d (SqlExec (Contents m))) -> P (Call d (DrvDeleteMigration ver)) ->
  does P Q any (execDown env db ver d m).
Proof. intros. unfold execDown. does_steps; auto using does_printVerbose. Qed.

Lemma does_runBlock {Q : Driver -> Prop} d m tx :
  P (Call d SqlBegin) -> P (Call d SqlCommit) -> P (Call d SqlRollback) ->
  does P Q any tx -> does P Q any (runBlock env d m tx).
Proof.
  intros. unfold runBlock. destruct (Transaction _); [by apply does_doTransaction | done].
Qed.

Lemma does_dumpSchema {Q : Driver -> Prop} fuel drv :
  P (Call drv DrvPing) -> P (Sleep (WaitInterval db)) ->
  P (Call drv DrvOpen) -> P (Call drv DrvCreateMigrationsTable) ->
  P (Call drv SqlClose) -> P (Call drv DrvDumpSchema) ->
  P (MkdirAll (pathDir env (SchemaFile db))) ->
  (forall data, P (WriteFile (SchemaFile db) data)) ->
  does P Q any (dumpSchema env db fuel drv).
Proof.
  intros. unfold dumpSchema.
  apply (does_function P (fun d => d = drv)); [|by intros d ->].
  does_steps; auto using does_logf, does_open, does_ensureDir.
  apply does_wait; [|done]. intros d Hd.
  apply list_elem_of_singleton in Hd as ->. done.
Qed.

(** The loops of [migrate] and [Rollback], for a [P] that holds of the
    calls in [allowed] on the databases in [D]. *)
Section Blocks.
Context (D : Driver -> Prop) (allowed : call -> bool).
Context (Pcall : forall d c, D d -> allowed c = true -> P (Call d c)).
Context (Hbegin : allowed SqlBegin = true) (Hcommit : allowed SqlCommit = true).
Context (Hrollback : allowed SqlRollback = true).
Context (Hexec : forall q, allowed (SqlExec q) = true).

Lemma does_applySlaves {Q : Driver -> Prop} ver m idx slaves :
  (forall v, allowed (DrvInsertMigration v) = true) ->
  (forall d, d ∈ slaves -> D d) ->
  does P Q any (applySlaves env db ver m idx slaves).
Proof.
  intros Hins Hs. revert idx.
  induction slaves as [|d slaves IH]; intros idx; cbn [applySlaves]; does_steps;
    auto using does_printf.
  - assert (D d) by (apply Hs; left).
    apply does_runBlock; auto. apply does_execUp; auto.
  - apply IH. intros d' Hd'. apply Hs. by right.
Qed.

Lemma does_rollbackSlaves {Q : Driver -> Prop} ver m idx slaves :
  (forall v, allowed (DrvDeleteMigration v) = true) ->
  (forall d, d ∈ slaves -> D d) ->
  does P Q any (rollbackSlaves env db ver m idx slaves).
Proof.
  intros Hins Hs. revert idx.
  induction slaves as [|d slaves IH]; intros idx; cbn [rollbackSlaves]; does_steps;
    auto using does_printf.
  - assert (D d) by (apply Hs; left).
    apply does_runBlock; auto. apply does_execDown; auto.
  - apply IH. intros d' Hd'. apply Hs. by right.
Qed.

Lemma does_migrateFile {Q : Driver -> Prop} rf drv slaves applied appliedSlaves filename :
  (forall v, allowed (DrvInsertMigration v) = true) ->
  (forall f, P (ReadFile (pathJoin env (MigrationsDir db) f))) ->
  D drv -> (forall d, d ∈ slaves -> D d) ->
  does P Q any (migrateFile env rf db drv slaves applied appliedSlaves filename).
Proof.
  intros Hins Hread Hdrv Hs. unfold migrateFile. does_steps;
    auto using does_logf, does_printf, does_parseMigration, does_applySlaves.
  apply does_runBlock; auto. apply does_execUp; auto.
Qed.

Lemma does_migrateFiles {Q : Driver -> Prop} rf drv slaves applied appliedSlaves files :
  (forall v, allowed (DrvInsertMigration v) = true) ->
  (forall f, P (ReadFile (pathJoin env (MigrationsDir db) f))) ->
  D drv -> (forall d, d ∈ slaves -> D d) ->
  does P Q any (migrateFiles env rf db drv slaves applied appliedSlaves files).
Proof.
  intros Hins Hread Hdrv Hs.
  induction files as [|f files IH]; cbn [migrateFiles]; does_steps;
    auto using does_migrateFile.
Qed.

End Blocks.
End Footprint.

Lemma does_bind_ret {A B} P Q (R : outcome B -> Prop) (a : A) (k : A -> M B) :
  does P Q R (k a) -> does P Q R (bind (ret a) k).
Proof. intros H st. exact (H st). Qed.

Lemma does_bind_fail {A B} P Q (R : outcome B -> Prop) (e : error) (k : A -> M B) :
  R (Fail e) -> does P Q R (bind (fail e) k).
Proof. intros H st. exists [], []. rewrite after_nil. cbn. auto. Qed.

(** A computation that defers nothing extends the trace only. *)
Lemma does_run {A} P (R : outcome A -> Prop) (c : M A) (st : state) :
  does P (fun _ => False) R c ->
  exists evs, (c st).1 = {| trace := trace st ++ evs; deferred := deferred st |} /\
    Forall P evs /\ R (c st).2.
Proof.
  intros H. destruct (H st) as (evs & ds & Hst & Hevs & Hds & HR).
  destruct ds as [|d ds]; [|by inversion Hds].
  exists evs. auto.
Qed.

End FootprintFacts.

Import FootprintFacts.

Lemma allDrivers_eq env db drv slaves :
  GetDriver env db = inl drv -> GetSlaveDrivers env db = inl slaves ->
  allDrivers env db = drv :: slaves.
Proof. intros H1 H2. unfold allDrivers, GetAllDrivers. by rewrite H1, H2. Qed.

Ltac fp_side Hcall :=
  intros;
  lazymatch goal with
  | |- footprint _ _ _ (Call _ _) => apply Hcall; [auto | first [reflexivity | assumption]]
  | |- footprint _ _ _ _ => cbn; eauto
  | |- _ = true => reflexivity
  | |- _ => auto
  end.

(** X1.  [Migrate] stays within its reach, whatever the databases and the file
    system answer and however it ends: every driver call is on the primary
    or a replica of the [DB] and is one of [Ping], [Open],
    [CreateMigrationsTable], [SelectMigrations], [Begin], [Exec],
    [InsertMigration], [Commit], the [Rollback] of a transaction,
    [DumpSchema], [Close]; it never creates or drops a database and never
    deletes a version; it pauses for [WaitInterval] only, reads only the
    migrations directory and files in it, and writes only the schema file
    and its directory.  The handles it leaves deferred are those it
    found. *)
Theorem Migrate_footprint (env : Env)
    (rf : list event -> string -> string + error) (db : DB) (fuel : nat)
    (st : state) :
  exists evs,
    (Migrate env rf db fuel st).1
      = {| trace := trace st ++ evs; deferred := deferred st |} /\
    Forall (footprint env db migrateCalls) evs.
Proof.
  destruct (does_run (footprint env db migrateCalls) any
              (Migrate env rf db fuel) st) as (evs & H1 & H2 & _); [|eauto].
  unfold Migrate.
  destruct (GetDriver env db) as [drv|e] eqn:Hdrv; cbn [lift];
    [apply does_bind_ret | by apply does_bind_fail].
  destruct (GetSlaveDrivers env db) as [slaves|e] eqn:Hsl; cbn [lift];
    [apply does_bind_ret | by apply does_bind_fail].
  pose proof (allDrivers_eq _ _ _ _ Hdrv Hsl) as Hall.
  assert (Hcall : forall d c, d ∈ drv :: slaves -> migrateCalls c = true ->
                    footprint env db migrateCalls (Call d c)).
  { intros d c Hd Hc. split; [by rewrite Hall | exact Hc]. }
  assert (Hd : drv ∈ drv :: slaves) by left.
  assert (Hs : forall d, d ∈ slaves -> d ∈ drv :: slaves) by (intros; by right).
  unfold migrate.
  apply (does_function _ (fun d => d ∈ drv :: slaves)); [|by auto].
  does_steps.
  - apply does_findMigrationFiles; fp_side Hcall.
  - apply does_wait; fp_side Hcall.
    match goal with H : _ ∈ [drv] |- _ => apply list_elem_of_singleton in H as -> end.
    fp_side Hcall.
  - apply does_wait; fp_side Hcall.
  - apply does_open; fp_side Hcall.
  - exact Hd.
  - apply does_select; fp_side Hcall.
  - apply does_openSlaves; fp_side Hcall; [|does_steps].
    repeat (split; [fp_side Hcall|]); fp_side Hcall.
  - apply (does_migrateFiles env db _ (fun _ => I) (fun _ => I)
             (fun d => d ∈ drv :: slaves) migrateCalls); fp_side Hcall.
  - apply does_dumpSchema; fp_side Hcall.
Qed.

(** X2.  [Rollback] stays within its reach in the same way: calls on the
    databases of the [DB] only, none of which creates or drops a database or
    inserts a version; only the migrations directory and files in it are
    read, only the schema file and its directory written. *)
Theorem Rollback_footprint (env : Env)
    (rf : list event -> string -> string + error) (db : DB) (fuel : nat)
    (st : state) :
  exists evs,
    (Rollback env rf db fuel st).1
      = {| trace := trace st ++ evs; deferred := deferred st |} /\
    Forall (footprint env db rollbackCalls) evs.
Proof.
  destruct (does_run (footprint env db rollbackCalls) any
              (Rollback env rf db fuel) st) as (evs & H1 & H2 & _); [|eauto].
  unfold Rollback.
  destruct (GetDriver env db) as [drv|e] eqn:Hdrv; cbn [lift].
  2:{ apply (does_function _ (fun _ => False)); [|done]. by apply does_bind_fail. }
  destruct (GetSlaveDrivers env db) as [slaves|e] eqn:Hsl; cbn [lift].
  2:{ apply (does_function _ (fun _ => False)); [|done].
      apply does_bind_ret. by apply does_bind_fail. }
  pose proof (allDrivers_eq _ _ _ _ Hdrv Hsl) as Hall.
  assert (Hcall : forall d c, d ∈ drv :: slaves -> rollbackCalls c = true ->
                    footprint env db rollbackCalls (Call d c)).
  { intros d c Hd Hc. split; [by rewrite Hall | exact Hc]. }
  assert (Hd : drv ∈ drv :: slaves) by left.
  assert (Hs : forall d, d ∈ slaves -> d ∈ drv :: slaves) by (intros; by right).
  apply (does_function _ (fun d => d ∈ drv :: slaves)); [|by auto].
  do 2 apply does_bind_ret.
  does_steps.
  - apply does_wait; fp_side Hcall.
    match goal with H : _ ∈ [drv] |- _ => apply list_elem_of_singleton in H as -> end.
    fp_side Hcall.
  - apply does_wait; fp_side Hcall.
  - apply does_open; fp_side Hcall.
  - exact Hd.
  - apply does_select; fp_side Hcall.
  - apply does_findMigrationFile; fp_side Hcall.
  - apply does_openSlaves; fp_side Hcall; [|apply does_sameLatest].
    repeat (split; [fp_side Hcall|]); fp_side Hcall.
  - apply does_logf; fp_side Hcall.
  - apply does_parseMigration; fp_side Hcall.
  - apply does_runBlock; fp_side Hcall. apply does_execDown; fp_side Hcall.
  - apply does_printf; fp_side Hcall.
  - apply does_printf; fp_side Hcall.
  - apply (does_rollbackSlaves env db _ (fun _ => I) (fun _ => I)
             (fun d => d ∈ drv :: slaves) rollbackCalls); fp_side Hcall.
  - apply does_dumpSchema; fp_side Hcall.
Qed.

Lemma does_statusLoop P Q quiet results total :
  (forall t, P (Log t)) -> does P Q any (statusLoop quiet results total).
Proof.
  intros Hlog. revert total.
  induction results as [|r results IH]; intros total; cbn [statusLoop]; does_steps;
    auto using does_logf.
Qed.

(** X3.  [Status] only reads: its driver calls are [Open],
    [MigrationsTableExists], [SelectMigrations] and [Close], all on the
    primary (no replica is contacted); besides it reads the migrations
    directory and writes to the log.  It reads no migration file, never
    pauses and writes no file. *)
Theorem Status_reads_only (env : Env)
    (drvTableExists : list event -> Driver -> bool) (db : DB) (quiet : bool)
    (st : state) :
  exists evs,
    (Status env drvTableExists db quiet st).1
      = {| trace := trace st ++ evs; deferred := deferred st |} /\
    Forall (statusMay env db) evs.
Proof.
  destruct (does_run (statusMay env db) any
              (Status env drvTableExists db quiet) st) as (evs & H1 & H2 & _);
    [|eauto].
  unfold Status.
  destruct (GetDriver env db) as [drv|e] eqn:Hdrv; cbn [lift];
    [apply does_bind_ret | by apply does_bind_fail].
  assert (Hcall : forall c, statusCalls c = true -> statusMay env db (Call drv c)).
  { intros c Hc. split; [exact Hdrv | exact Hc]. }
  does_steps; auto using does_statusLoop, does_logf.
  - unfold CheckMigrationsStatus.
    apply (does_function _ (fun d => d = drv)); [|intros d ->; by apply Hcall].
    does_steps; auto.
    + by apply does_findMigrationFiles.
    + by apply does_select; auto.
  - apply does_statusLoop. by intros.
  - by apply does_logf.
  - by apply does_logf.
  - by apply does_logf.
Qed.

(* ===================================================================== *)
(** ** Runs that cannot succeed                                          *)
(* ===================================================================== *)

Module RefusalFacts.

Lemma does_post {A} P Q (R : outcome A -> Prop) (c : M A) :
  does P Q any c -> (forall st, R (c st).2) -> does P Q R c.
Proof.
  intros Hc HR st. destruct (Hc st) as (evs & ds & ? & ? & ? & _).
  exists evs, ds. auto.
Qed.

Lemma does_bind_notDone {A B} P Q (c : M A) (k : A -> M B) :
  does P Q any c -> (forall a, does P Q notDone (k a)) ->
  does P Q notDone (bind c k).
Proof. intros Hc Hk. eapply does_bind; eauto; intros; intros a; discriminate. Qed.

Lemma does_bind_stop {A B} P Q (c : M A) (k : A -> M B) :
  does P Q notDone c -> does P Q notDone (bind c k).
Proof.
  intros Hc. eapply does_bind; [exact Hc | | |].
  - intros a Ha. by destruct (Ha a).
  - intros e _ a. discriminate.
  - intros _ a. discriminate.
Qed.

Section Refusal.
Context (env : Env) (db : DB).
Context (P : event -> Prop) (Q : Driver -> Prop).
Context (Plog : forall t, P (Log t)).
Context (v : string) (slaveJ : Driver).
Context (Hdiff : forall h, exists w b, (w, b) ∈ drvMigrations env h slaveJ 1 /\ w <> v).

Lemma sameLatest_notDone (m : list (string * bool)) :
  (exists w b, (w, b) ∈ m /\ w <> v) -> does P Q notDone (sameLatest v m).
Proof.
  intros Hm. apply does_post; [by apply does_sameLatest|].
  intros st. rewrite (sameLatest_differs v m st Hm). intros a. discriminate.
Qed.

Lemma openSlaves_notDone (slaves : list Driver) :
  slaveJ ∈ slaves ->
  (forall d, d ∈ slaves ->
     P (Call d DrvOpen) /\ P (Call d DrvCreateMigrationsTable) /\
     P (Call d SqlClose) /\ P (Call d (DrvSelectMigrations 1)) /\ Q d) ->
  does P Q notDone (openSlaves env slaves 1 (sameLatest v)).
Proof.
  intros Hin Hs. induction slaves as [|d slaves IH]; [by apply elem_of_nil in Hin|].
  destruct (Hs d) as (? & ? & ? & ? & ?); [left|].
  cbn [openSlaves].
  apply does_bind_notDone; [by apply does_open | intros _].
  apply does_bind_notDone; [by apply does_deferClose | intros _].
  apply (does_bind P Q (fun o => forall m, o = Done m ->
                          exists h, m = drvMigrations env h d 1)).
  - apply does_post; [by apply does_select|].
    intros st m Hm. destruct (selectMigrations env d 1 st) as [st' o] eqn:E.
    cbn in Hm. subst o. by apply selectMigrations_post in E.
  - intros m Hm. destruct (Hm m eq_refl) as [h ->].
    apply elem_of_cons in Hin as [<-|Hin].
    + apply does_bind_stop, sameLatest_notDone, Hdiff.
    + apply does_bind_notDone; [apply does_sameLatest | intros _].
      apply does_bind_stop, IH; [exact Hin|].
      intros d' Hd'. apply Hs. by right.
  - intros e _ a. discriminate.
  - intros _ a. discriminate.
Qed.

End Refusal.
End RefusalFacts.

Import RefusalFacts.

(** X4.  When some replica's answer to [SelectMigrations(1)] always holds a
    version other than the primary's most recent one, [Rollback] never
    returns without error and executes no block and deletes no version, on
    any database, whatever else happens. *)
Theorem Rollback_never_past_a_differing_replica
    (env : Env) (rf : list event -> string -> string + error) (db : DB)
    (fuel : nat) (st : state) (drv slaveJ : Driver) (slaves : list Driver) :
  GetDriver env db = inl drv ->
  GetSlaveDrivers env db = inl slaves ->
  slaveJ ∈ slaves ->
  (forall h h', exists w b,
     (w, b) ∈ drvMigrations env h slaveJ 1 /\
     w <> default "" (last (fst <$> drvMigrations env h' drv 1))) ->
  exists evs,
    (Rollback env rf db fuel st).1
      = {| trace := trace st ++ evs; deferred := deferred st |} /\
    Forall (fun e => writes e = false) evs /\
    forall a, (Rollback env rf db fuel st).2 <> Done a.
Proof.
  intros Hdrv Hsl Hin Hdiff.
  apply (does_run (fun e => writes e = false) notDone).
  unfold Rollback. rewrite Hdrv, Hsl. cbn [lift].
  apply (does_function _ (fun _ => True)); [|done].
  do 2 apply does_bind_ret.
  apply does_bind_notDone; [|intros _].
  { does_steps; apply does_wait; done. }
  apply does_bind_notDone; [by apply does_open | intros _].
  apply does_bind_notDone; [by apply does_deferClose | intros _].
  apply (does_bind _ _ (fun o => forall m, o = Done m ->
                          exists h, m = drvMigrations env h drv 1)).
  - apply does_post; [by apply does_select|].
    intros st' m Hm. destruct (selectMigrations env drv 1 st') as [st'' o] eqn:E.
    cbn in Hm. subst o. by apply selectMigrations_post in E.
  - intros m Hm. destruct (Hm m eq_refl) as [h ->].
    apply does_bind_notDone; [does_steps | intros _].
    apply does_bind_notDone; [by apply does_findMigrationFile | intros filename].
    apply does_bind_stop.
    apply (openSlaves_notDone env _ _ _ slaveJ); [intros h'; apply Hdiff | exact Hin|].
    intros d _. done.
  - intros e _ a. discriminate.
  - intros _ a. discriminate.
Qed.

(** X4 on a primary that has applied the test migration and a replica whose
    ledger holds another version. *)
Lemma Rollback_never_past_a_differing_replica_witness :
  let env := calm otherOnReplica in
  let r := Rollback env testFiles (newDB [url "slave0"]) 0 start in
  exists evs,
    r.1 = {| trace := trace start ++ evs; deferred := deferred start |} /\
    Forall (fun e => writes e = false) evs /\
    forall a, r.2 <> Done a.
Proof.
  cbn zeta.
  apply (Rollback_never_past_a_differing_replica (calm otherOnReplica) testFiles
           (newDB [url "slave0"]) 0 start primary replica0 [replica0]).
  - reflexivity.
  - reflexivity.
  - left.
  - intros h h'. exists "20140101000000", true. split; [left | vm_compute; discriminate].
Defined.

(* ===================================================================== *)
(** ** Facts about the loop of [wait]                                    *)
(* ===================================================================== *)

Module WaitFacts.
Section Wait.
Context (env : Env) (db : DB).
Context (Hpos : 0 < WaitInterval db).
Context (Hmax : WaitTimeout db + WaitInterval db <= 2 ^ 63).

Lemma turnsFrom_done i : WaitTimeout db <= i -> turnsFrom db i = 0%nat.
Proof.
  intros H. unfold turnsFrom.
  assert ((WaitTimeout db - i + WaitInterval db - 1) / WaitInterval db <= 0); [|lia].
  apply Z.lt_succ_r. apply Z.div_lt_upper_bound; lia.
Qed.

Lemma turnsFrom_step i :
  i < WaitTimeout db ->
  turnsFrom db i = S (turnsFrom db (i + WaitInterval db)).
Proof.
  intros H. unfold turnsFrom.
  replace (WaitTimeout db - i + WaitInterval db - 1)
    with ((WaitTimeout db - (i + WaitInterval db) + WaitInterval db - 1)
          + 1 * WaitInterval db) by lia.
  rewrite Z.div_add by lia.
  assert (0 <= (WaitTimeout db - (i + WaitInterval db) + WaitInterval db - 1)
               / WaitInterval db); [|lia].
  apply Z.div_pos; lia.
Qed.

Lemma wrap64_id z : - 2 ^ 63 <= z < 2 ^ 63 -> wrap64 z = z.
Proof.
  intros H. unfold wrap64. rewrite Z.mod_small; lia.
Qed.

(** One turn of the loop, whatever the answer of [Ping]. *)
Lemma waitLoop_turn fuel drv i err successful st :
  i < WaitTimeout db ->
  waitLoop env db (S fuel) drv i err successful st
  = let st1 := after st [Log "."; Sleep (WaitInterval db); Call drv DrvPing] [] in
    let err' := drvError env (trace st ++ [Log "."; Sleep (WaitInterval db)]) drv DrvPing in
    match err' with
    | None =>
        waitLoop env db fuel drv (wrap64 (i + WaitInterval db)) err' true
          (after st1 [Log NL] [])
    | Some _ =>
        waitLoop env db fuel drv (wrap64 (i + WaitInterval db)) err' successful st1
    end.
Proof.
  intros Hi. cbn [waitLoop].
  replace (i <? WaitTimeout db) with true by (symmetry; apply Z.ltb_lt; lia).
  unfold bind at 1, logf at 1, emit at 1. cbn [trace deferred].
  unfold bind at 1, emit at 1. cbn [trace deferred].
  unfold bind at 1, invoke at 1, bind at 1, history at 1.
  unfold bind at 1, emit at 1, ret at 1. cbn [trace deferred].
  rewrite <- !(assoc_L (++)). cbn [app].
  destruct (drvError env _ drv DrvPing) as [e|]; cbn zeta.
  - unfold bind at 1, ret at 1. unfold after. cbn [trace deferred app].
    reflexivity.
  - unfold bind at 1. unfold bind at 1, logf at 1, emit at 1, ret at 1.
    unfold after. cbn [trace deferred app].
    rewrite <- !(assoc_L (++)). reflexivity.
Qed.

Lemma waitLoop_end fuel drv i err successful st :
  WaitTimeout db <= i ->
  waitLoop env db fuel drv i err successful st = (st, Done (err, successful)).
Proof.
  intros Hi. destruct fuel; cbn [waitLoop];
    replace (i <? WaitTimeout db) with false by (symmetry; apply Z.ltb_ge; lia);
    reflexivity.
Qed.

(** With enough fuel the loop ends, after [turnsFrom i] pauses, and more
    fuel does not change the run. *)
Lemma waitLoop_terminates fuel drv i err successful st :
  0 <= i -> (turnsFrom db i <= fuel)%nat ->
  exists evs r,
    waitLoop env db fuel drv i err successful st = (after st evs [], Done r) /\
    waitLoop env db (turnsFrom db i) drv i err successful st
      = (after st evs [], Done r) /\
    length (List.filter isSleep evs) = turnsFrom db i.
Proof.
  revert i err successful st.
  induction fuel as [|fuel IH]; intros i err successful st Hi Hfuel.
  - destruct (Z.lt_ge_cases i (WaitTimeout db)) as [Hlt|Hge].
    + rewrite (turnsFrom_step i Hlt) in Hfuel. lia.
    + exists [], (err, successful). rewrite (turnsFrom_done i Hge).
      rewrite !waitLoop_end, after_nil by done. auto.
  - destruct (Z.lt_ge_cases i (WaitTimeout db)) as [Hlt|Hge].
    + rewrite (turnsFrom_step i Hlt) in *.
      rewrite !waitLoop_turn by done. cbn zeta.
      rewrite wrap64_id by lia.
      destruct (drvError env _ drv DrvPing) as [e|].
      * edestruct (IH (i + WaitInterval db) (Some e) successful) as (evs & r & H1 & H2 & H3);
          [lia | lia |].
        rewrite H1, H2, !after_after. do 2 eexists.
        split; [reflexivity|]. split; [reflexivity|].
        rewrite List.filter_app, length_app, H3. reflexivity.
      * edestruct (IH (i + WaitInterval db) None true) as (evs & r & H1 & H2 & H3);
          [lia | lia |].
        rewrite H1, H2, !after_after. do 2 eexists.
        split; [reflexivity|]. split; [reflexivity|].
        rewrite !List.filter_app, !length_app, H3. reflexivity.
    + exists [], (err, successful). rewrite (turnsFrom_done i Hge).
      rewrite !waitLoop_end, after_nil by done. auto.
Qed.

Lemma waitOne_ping fuel drv st :
  waitOne env db fuel drv st
  = match drvError env (trace st) drv DrvPing with
    | None => (after st [Call drv DrvPing] [], Done tt)
    | Some e =>
        match waitLoop env db fuel drv 0 (Some e) false
                (after st [Call drv DrvPing; Log "Waiting for database"] []) with
        | (st', Done r) =>
            if negb r.2 then
              (after st' [Log NL] [],
               Fail (Wrapped ErrCantConnect
                       (": " +:+ match r.1 with
                                 | Some e => errText e
                                 | None => "%!s(<nil>)"
                                 end)))
            else (st', Done tt)
        | (st', Fail e') => (st', Fail e')
        | (st', Diverged) => (st', Diverged)
        end
    end.
Proof.
  unfold waitOne.
  unfold bind at 1, invoke at 1, bind at 1, history at 1.
  unfold bind at 1, emit at 1, ret at 1. cbn [trace deferred].
  destruct (drvError env (trace st) drv DrvPing) as [e|].
  - unfold bind at 1. unfold bind at 1, logf at 1, emit at 1.
    cbn [trace deferred]. unfold after. cbn [trace deferred app].
    rewrite <- !(assoc_L (++)). cbn [app].
    destruct (waitLoop env db fuel drv 0 (Some e) false _) as [st' [r| |]];
      [|reflexivity|reflexivity].
    destruct (negb r.2); reflexivity.
  - reflexivity.
Qed.

Lemma waitOne_terminates fuel drv st :
  (turns db <= fuel)%nat ->
  exists evs o,
    waitOne env db fuel drv st = (after st evs [], o) /\
    waitOne env db (turns db) drv st = (after st evs [], o) /\
    o <> Diverged /\
    (length (List.filter isSleep evs) <= turns db)%nat.
Proof.
  intros Hfuel. rewrite !waitOne_ping.
  destruct (drvError env (trace st) drv DrvPing) as [e|].
  - edestruct (waitLoop_terminates fuel drv 0 (Some e) false) as (evs & r & H1 & H2 & H3);
      [lia | exact Hfuel |].
    fold (turns db) in H2, H3. rewrite H1, H2.
    destruct (negb r.2); rewrite ?after_after; do 2 eexists;
      (split; [reflexivity|]); (split; [reflexivity|]); (split; [discriminate|]).
    + rewrite !List.filter_app, !length_app, H3. cbn. lia.
    + rewrite !List.filter_app, !length_app, H3. cbn. lia.
  - do 2 eexists. split; [reflexivity|]. split; [reflexivity|].
    split; [discriminate|]. cbn. lia.
Qed.

Lemma wait_terminates_aux fuel ds st :
  (turns db <= fuel)%nat ->
  exists evs o,
    wait env db fuel ds st = (after st evs [], o) /\
    wait env db (turns db) ds st = (after st evs [], o) /\
    o <> Diverged /\
    (length (List.filter isSleep evs) <= turns db * length ds)%nat.
Proof.
  intros Hfuel. revert st. induction ds as [|d ds IH]; intros st.
  - exists [], (Done tt). cbn [wait]. unfold ret. rewrite after_nil.
    repeat split; [discriminate | cbn; lia].
  - cbn [wait]. unfold bind.
    destruct (waitOne_terminates fuel d st Hfuel) as (evs & o & H1 & H2 & H3 & H4).
    rewrite H1, H2. destruct o as [[]|e|]; [| |done].
    + destruct (IH (after st evs [])) as (evs' & o' & H1' & H2' & H3' & H4').
      rewrite H1', H2', after_after. exists (evs ++ evs'), o'.
      repeat split; auto. rewrite List.filter_app, length_app. cbn [length]. lia.
    + exists evs, (Fail e). repeat split; auto. cbn [length]. lia.
Qed.

(** A database that never answers. *)
Section Unreachable.
Context (drv : Driver) (e : error).
Context (Hdown : forall h, drvError env h drv DrvPing = Some e).

Lemma waitLoop_unreachable (n : nat) i st :
  0 <= i -> turnsFrom db i = n ->
  waitLoop env db n drv i (Some e) false st
  = (after st (mjoin (replicate n (failedTurn db drv))) [], Done (Some e, false)).
Proof.
  revert i st. induction n as [|n IH]; intros i st Hi Hn.
  - destruct (Z.lt_ge_cases i (WaitTimeout db)) as [Hlt|Hge].
    + rewrite (turnsFrom_step i Hlt) in Hn. lia.
    + rewrite waitLoop_end, after_nil by done. reflexivity.
  - destruct (Z.lt_ge_cases i (WaitTimeout db)) as [Hlt|Hge].
    + rewrite waitLoop_turn by done. cbn zeta. rewrite Hdown.
      rewrite wrap64_id by lia.
      rewrite (turnsFrom_step i Hlt) in Hn.
      rewrite IH by lia. rewrite after_after. reflexivity.
    + rewrite (turnsFrom_done i Hge) in Hn. lia.
Qed.

Lemma waitOne_unreachable st :
  waitOne env db (turns db) drv st
  = (after st ([Call drv DrvPing; Log "Waiting for database"]
               ++ mjoin (replicate (turns db) (failedTurn db drv)) ++ [Log NL]) [],
     Fail (Wrapped ErrCantConnect (": " +:+ errText e))).
Proof.
  rewrite waitOne_ping, Hdown.
  rewrite (waitLoop_unreachable (turns db) 0) by (reflexivity || lia).
  cbn [negb snd fst]. rewrite !after_after. reflexivity.
Qed.

End Unreachable.
End Wait.

(** An interval of zero: the loop variable never moves. *)
Lemma waitLoop_zero_interval env db fuel drv err successful st :
  WaitInterval db = 0 -> 0 < WaitTimeout db ->
  (waitLoop env db fuel drv 0 err successful st).2 = Diverged.
Proof.
  intros H0 Ht. revert err successful st.
  induction fuel as [|fuel IH]; intros err successful st.
  - cbn [waitLoop].
    replace (0 <? WaitTimeout db) with true by (symmetry; apply Z.ltb_lt; lia).
    reflexivity.
  - rewrite waitLoop_turn by lia. cbn zeta. rewrite H0.
    change (wrap64 (0 + 0)) with 0.
    destruct (drvError env _ drv DrvPing); apply IH.
Qed.

End WaitFacts.

Import WaitFacts.

(** X5.  With a positive [WaitInterval] (and the sum of timeout and interval
    within the range of [time.Duration]) [wait] comes to an end, whatever
    the databases answer: given at least [turns db] loop turns it returns,
    with the result it has with exactly [turns db] turns, and it has paused
    at most [turns db] times the number of databases. *)
Theorem wait_terminates (env : Env) (db : DB) (fuel : nat) (ds : list Driver)
    (st : state) :
  0 < WaitInterval db ->
  WaitTimeout db + WaitInterval db <= 2 ^ 63 ->
  (turns db <= fuel)%nat ->
  exists evs o,
    wait env db fuel ds st = (after st evs [], o) /\
    wait env db (turns db) ds st = (after st evs [], o) /\
    o <> Diverged /\
    (length (List.filter isSleep evs) <= turns db * length ds)%nat.
Proof. intros. by apply wait_terminates_aux. Qed.

(** X5 with a wait of three intervals of one second and five turns given, on
    a database whose first [Ping] fails. *)
Lemma wait_terminates_witness :
  let db := newDB [] in
  exists evs o,
    wait (world (fun _ => []) refusedOnce) db 5 [primary] start = (after start evs [], o) /\
    wait (world (fun _ => []) refusedOnce) db (turns db) [primary] start
      = (after start evs [], o) /\
    o <> Diverged /\
    (length (List.filter isSleep evs) <= turns db * length [primary])%nat.
Proof.
  cbn zeta.
  apply (wait_terminates (world (fun _ => []) refusedOnce) (newDB []) 5 [primary] start).
  - reflexivity.
  - vm_compute. discriminate.
  - vm_compute. lia.
Defined.

(** X6.  With a positive [WaitInterval], on a database whose [Ping] always fails
    with [e], [wait] pings once, logs "Waiting for database", then logs a
    dot, pauses for [WaitInterval] and pings again [turns db] times, logs a
    line feed and returns [ErrCantConnect] wrapping [e]; the databases after
    it in the list are not contacted. *)
Theorem wait_unreachable (env : Env) (db : DB) (fuel : nat) (drv : Driver)
    (rest : list Driver) (e : error) (st : state) :
  0 < WaitInterval db ->
  WaitTimeout db + WaitInterval db <= 2 ^ 63 ->
  (turns db <= fuel)%nat ->
  (forall h, drvError env h drv DrvPing = Some e) ->
  wait env db fuel (drv :: rest) st
  = (after st ([Call drv DrvPing; Log "Waiting for database"]
               ++ mjoin (replicate (turns db) (failedTurn db drv)) ++ [Log NL]) [],
     Fail (Wrapped ErrCantConnect (": " +:+ errText e))).
Proof.
  intros Hpos Hmax Hfuel Hdown.
  destruct (wait_terminates_aux env db Hpos Hmax fuel (drv :: rest) st Hfuel)
    as (evs & o & H1 & H2 & _).
  rewrite H1, <- H2. cbn [wait]. unfold bind.
  by rewrite (waitOne_unreachable env db Hpos Hmax drv e Hdown).
Qed.

(** X6 with a wait of three intervals of one second: three turns. *)
Lemma wait_unreachable_witness :
  let db := newDB [] in
  turns db = 3%nat /\
  wait (world (fun _ => []) unreachable) db 3 [primary] start
  = (after start ([Call primary DrvPing; Log "Waiting for database"]
                  ++ mjoin (replicate (turns db) (failedTurn db primary)) ++ [Log NL]) [],
     Fail (Wrapped ErrCantConnect (": " +:+ errText (External "connection refused")))).
Proof.
  cbn zeta. split; [reflexivity|].
  apply (wait_unreachable (world (fun _ => []) unreachable) (newDB []) 3 primary []
           (External "connection refused") start).
  - reflexivity.
  - vm_compute. discriminate.
  - vm_compute. lia.
  - intros h. reflexivity.
Defined.

(** X7.  With [WaitInterval] zero and a positive [WaitTimeout], [wait] on a
    database whose first [Ping] fails never returns: the loop variable does
    not advance, so no number of turns is enough. *)
Theorem wait_zero_interval_never_returns (env : Env) (db : DB) (drv : Driver)
    (rest : list Driver) (st : state) :
  WaitInterval db = 0 -> 0 < WaitTimeout db ->
  drvError env (trace st) drv DrvPing <> None ->
  forall fuel, (wait env db fuel (drv :: rest) st).2 = Diverged.
Proof.
  intros H0 Ht Hping fuel. cbn [wait]. unfold bind. rewrite waitOne_ping.
  destruct (drvError env (trace st) drv DrvPing) as [e|]; [|done].
  pose proof (waitLoop_zero_interval env db fuel drv (Some e) false
                (after st [Call drv DrvPing; Log "Waiting for database"] []) H0 Ht) as H.
  destruct (waitLoop env db fuel drv 0 (Some e) false _) as [st' o].
  cbn in H. subst o. reflexivity.
Qed.

(** X7 on a database that never answers. *)
Lemma wait_zero_interval_never_returns_witness :
  (wait (world (fun _ => []) unreachable) noPause 1000 [primary] start).2 = Diverged.
Proof.
  apply (wait_zero_interval_never_returns (world (fun _ => []) unreachable) noPause
           primary [] start).
  - reflexivity.
  - reflexivity.
  - vm_compute. discriminate.
Defined.

(* ===================================================================== *)
(** ** Facts about the schema dump                                       *)
(* ===================================================================== *)

Module DumpFacts.
Lemma sameBut_refl {A} (r : state * outcome A) : sameBut [] r r.
Proof. unfold sameBut. by rewrite app_nil_r. Qed.

Lemma bind_sameBut {A B} (c : M A) (k1 k2 : A -> M B) st :
  (forall a st', exists extra, sameBut extra (k1 a st') (k2 a st')) ->
  exists extra, sameBut extra (bind c k1 st) (bind c k2 st).
Proof.
  intros H. unfold bind. destruct (c st) as [st' [a|e|]]; [apply H | |];
    exists []; apply sameBut_refl.
Qed.

Lemma function_sameBut {A} (b1 b2 : M A) st :
  (forall st', exists extra, sameBut extra (b1 st') (b2 st')) ->
  (function b1 st).2 = (function b2 st).2 /\
  exists pre extra closes,
    trace (function b1 st).1 = pre ++ extra ++ closes /\
    trace (function b2 st).1 = pre ++ closes.
Proof.
  intros H. unfold function.
  destruct (H {| trace := trace st; deferred := [] |}) as (extra & Ho & Hd & Ht).
  destruct (b1 _) as [s1 o1], (b2 _) as [s2 o2]. cbn in Ho, Hd, Ht. subst o2.
  destruct o1 as [a|e|]; cbn; (split; [reflexivity|]).
  - exists (trace s2), extra, ((fun d => Call d SqlClose) <$> deferred s2).
    by rewrite Ht, Hd, (assoc_L (++)).
  - exists (trace s2), extra, ((fun d => Call d SqlClose) <$> deferred s2).
    by rewrite Ht, Hd, (assoc_L (++)).
  - exists (trace s2), extra, []. by rewrite Ht, !app_nil_r.
Qed.

Lemma same_run {A} (r : state * outcome A) :
  r.2 = r.2 /\
  exists pre dump closes,
    trace r.1 = pre ++ dump ++ closes /\ trace r.1 = pre ++ closes.
Proof.
  split; [reflexivity|]. exists (trace r.1), [], []. by rewrite !app_nil_r.
Qed.

(** Without [WaitBefore] the schema dump always comes to an end. *)
Lemma dumpSchema_ends env db fuel drv st :
  WaitBefore db = false ->
  exists evs,
    (dumpSchema env db fuel drv st).1
      = {| trace := trace st ++ evs; deferred := deferred st |} /\
    (dumpSchema env db fuel drv st).2 <> Diverged.
Proof.
  intros Hw.
  destruct (does_run (fun _ => True) any (dumpSchema env db fuel drv) st)
    as (evs & Hst & _).
  { apply does_dumpSchema; done. }
  exists evs. split; [exact Hst|].
  unfold dumpSchema, function. rewrite Hw.
  unfold openDatabaseForMigration, ensureDir, logf, invoke, check, deferClose,
    bind, history, emit, ret, fail. cbn.
  repeat (match goal with
          | |- context [match ?x with _ => _ end] =>
              lazymatch x with
              | drvError _ _ _ _ => destruct x
              | osMkdirAll _ _ _ => destruct x
              | osWriteFile _ _ _ _ => destruct x
              end
          end; cbn); discriminate.
Qed.

(** The end of [migrate] and of [Rollback]. *)
Lemma autoDump_sameBut env db fuel drv st :
  WaitBefore db = false ->
  exists extra,
    sameBut extra
      ((if AutoDumpSchema db then errorOf (dumpSchema env db fuel drv) ;; ret tt
        else ret tt) st)
      (ret tt st).
Proof.
  intros Hw. destruct (AutoDumpSchema db); [|exists []; apply sameBut_refl].
  destruct (dumpSchema_ends env db fuel drv st Hw) as (evs & Hst & Hend).
  exists evs. unfold bind, errorOf, ret, sameBut.
  destruct (dumpSchema env db fuel drv st) as [st' [[]|e|]]; cbn in *;
    try done; by rewrite Hst.
Qed.

End DumpFacts.

Import DumpFacts.

(** X8.  The schema dump at the end of [Migrate] and of [Rollback] cannot change
    what they return: with [AutoDumpSchema] set and not set the command
    returns the same (an error of the dump is dropped), and what the run
    with the dump has done is what the other run has done with one block of
    events inserted.  Stated for [WaitBefore] off. *)
Theorem schema_dump_is_silent (env : Env)
    (rf : list event -> string -> string + error) (db : DB) (fuel : nat)
    (st : state) :
  WaitBefore db = false ->
  forall command, command = Migrate \/ command = Rollback ->
    let r := command env rf db fuel st in
    let r' := command env rf (setAutoDumpSchema false db) fuel st in
    r.2 = r'.2 /\
    exists pre dump closes,
      trace r.1 = pre ++ dump ++ closes /\ trace r'.1 = pre ++ closes.
Proof.
  intros Hw command [-> | ->]; cbn zeta.
  - unfold Migrate.
    change (GetDriver env (setAutoDumpSchema false db)) with (GetDriver env db).
    change (GetSlaveDrivers env (setAutoDumpSchema false db))
      with (GetSlaveDrivers env db).
    destruct (GetDriver env db) as [drv|e]; cbn [lift];
      [|exact (same_run (st, Fail e))].
    destruct (GetSlaveDrivers env db) as [slaves|e]; cbn [lift];
      [|exact (same_run (st, Fail e))].
    change (bind (ret drv) ?k st) with (k drv st). cbv beta.
    change (bind (ret slaves) ?k st) with (k slaves st). cbv beta.
    unfold migrate. apply function_sameBut. intros st'.
    do 8 (apply bind_sameBut; intros ? ?).
    cbn [AutoDumpSchema setAutoDumpSchema].
    by apply autoDump_sameBut.
  - unfold Rollback. apply function_sameBut. intros st'.
    change (GetDriver env (setAutoDumpSchema false db)) with (GetDriver env db).
    change (GetSlaveDrivers env (setAutoDumpSchema false db))
      with (GetSlaveDrivers env db).
    do 14 (apply bind_sameBut; intros ? ?).
    cbn [AutoDumpSchema setAutoDumpSchema].
    by apply autoDump_sameBut.
Qed.

(** X8 for [Migrate] of the test migration on a primary and a replica. *)
Lemma schema_dump_is_silent_witness :
  let env := calm (fun _ => []) in
  let db := newDB [url "slave0"] in
  let r := Migrate env testFiles db 0 start in
  let r' := Migrate env testFiles (setAutoDumpSchema false db) 0 start in
  r.2 = r'.2 /\
  exists pre dump closes,
    trace r.1 = pre ++ dump ++ closes /\ trace r'.1 = pre ++ closes.
Proof.
  cbn zeta.
  apply (schema_dump_is_silent (calm (fun _ => [])) testFiles (newDB [url "slave0"])
           0 start eq_refl Migrate (or_introl eq_refl)).
Defined.

(* ===================================================================== *)
(** ** Runs in which every call succeeds                                 *)
(* ===================================================================== *)

Module CalmFacts.
Lemma callsOn_app d l1 l2 : callsOn d (l1 ++ l2) = callsOn d l1 ++ callsOn d l2.
Proof. unfold callsOn. apply omap_app. Qed.

Lemma callsOn_same d c l : callsOn d (Call d c :: l) = c :: callsOn d l.
Proof. unfold callsOn. cbn. by rewrite bool_decide_true. Qed.

Lemma callsOn_apart d e l : apartFrom d e -> callsOn d (e :: l) = callsOn d l.
Proof.
  unfold callsOn. destruct e; cbn; try reflexivity.
  intros H. by rewrite bool_decide_false.
Qed.

Lemma callsOn_all_apart d l : Forall (apartFrom d) l -> callsOn d l = [].
Proof.
  induction 1 as [|e l He _ IH]; [reflexivity|]. by rewrite callsOn_apart.
Qed.

Section Calm.
Context (env : Env).
Context (Hcalm : forall h d c, drvError env h d c = None).
Context (db : DB).

Lemma printVerbose_calm (r : sqlResult) st :
  exists logs, printVerbose r st = (after st logs [], Done tt) /\
    forall d, Forall (apartFrom d) logs.
Proof.
  unfold printVerbose, logf, bind, emit, ret.
  destruct (LastInsertId r), (RowsAffected r); cbn.
  - eexists [_; _]. unfold after. cbn. rewrite <- (assoc_L (++)).
    split; [reflexivity|]. intros d. by repeat constructor.
  - eexists [_]. split; [reflexivity|]. intros d. by repeat constructor.
  - eexists [_]. split; [reflexivity|]. intros d. by repeat constructor.
  - exists []. rewrite after_nil. split; [by destruct st|]. intros d. constructor.
Qed.

(** A block that runs and records its version with [record]. *)
Lemma exec_calm (record : call) (d : Driver) (m : Migration) st
    (exec : M (option error)) :
  exec = (h <- history ;;
          err <- invoke env d (SqlExec (Contents m)) ;;
          match err with
          | Some _ => ret err
          | None =>
              (if Verbose db
               then printVerbose (drvResult env h d (Contents m)) else ret tt) ;;
              invoke env d record
          end) ->
  exists evs,
    runBlock env d m exec st = (after st evs [], Done None) /\
    callsOn d evs = blockCalls m record /\
    forall d', d' <> d -> Forall (apartFrom d') evs.
Proof.
  intros ->.
  assert (Hbody : forall st', exists logs,
    (h <- history ;;
     err <- invoke env d (SqlExec (Contents m)) ;;
     match err with
     | Some _ => ret err
     | None =>
         (if Verbose db
          then printVerbose (drvResult env h d (Contents m)) else ret tt) ;;
         invoke env d record
     end) st'
    = (after st' ([Call d (SqlExec (Contents m))] ++ logs ++ [Call d record]) [],
       Done None) /\ forall d', Forall (apartFrom d') logs).
  { intros st'. run_step.
    rewrite (bind_done _ _ _ _ _ (invoke_calm env Hcalm _ _ _)).
    destruct (Verbose db).
    - destruct (printVerbose_calm (drvResult env (trace st') d (Contents m))
                  (after st' [Call d (SqlExec (Contents m))] [])) as (logs & Hl & Hq).
      exists logs. rewrite (bind_done _ _ _ _ _ Hl).
      rewrite invoke_calm, !after_after by done. auto.
    - exists []. run_step. rewrite invoke_calm, !after_after by done.
      split; [reflexivity | constructor]. }
  unfold runBlock, blockCalls. destruct (Transaction (Options m)).
  - unfold doTransaction.
    rewrite (bind_done _ _ _ _ _ (invoke_calm env Hcalm _ _ _)).
    destruct (Hbody (after st [Call d SqlBegin] [])) as (logs & Hb & Hq).
    rewrite (bind_done _ _ _ _ _ Hb).
    rewrite invoke_calm, !after_after by done.
    eexists. split; [reflexivity|]. split.
    + rewrite ?callsOn_app, (callsOn_all_apart d logs (Hq d)), ?callsOn_same.
      reflexivity.
    + intros d' Hd'. repeat (apply Forall_app; split); try apply Hq;
        by repeat constructor.
  - destruct (Hbody st) as (logs & Hb & Hq). rewrite Hb.
    eexists. split; [reflexivity|]. split.
    + rewrite ?callsOn_app, (callsOn_all_apart d logs (Hq d)), ?callsOn_same.
      reflexivity.
    + intros d' Hd'. repeat (apply Forall_app; split); try apply Hq;
        by repeat constructor.
Qed.

Lemma up_calm ver d m st :
  exists evs,
    runBlock env d m (execUp env db ver d m) st = (after st evs [], Done None) /\
    callsOn d evs = blockCalls m (DrvInsertMigration ver) /\
    forall d', d' <> d -> Forall (apartFrom d') evs.
Proof. by apply exec_calm. Qed.

Lemma down_calm ver d m st :
  exists evs,
    runBlock env d m (execDown env db ver d m) st = (after st evs [], Done None) /\
    callsOn d evs = blockCalls m (DrvDeleteMigration ver) /\
    forall d', d' <> d -> Forall (apartFrom d') evs.
Proof. by apply exec_calm. Qed.

Lemma printf_run text st : printf text st = (after st [Stdout text] [], Done tt).
Proof. reflexivity. Qed.

Lemma logf_run text st : logf text st = (after st [Log text] [], Done tt).
Proof. reflexivity. Qed.

Lemma applySlaves_calm drv ver m idx slaves st :
  drv ∉ slaves ->
  exists evs,
    applySlaves env db ver m idx slaves st = (after st evs [], Done tt) /\
    Forall (apartFrom drv) evs.
Proof.
  revert idx st. induction slaves as [|d slaves IH]; intros idx st Hnot.
  - exists []. cbn [applySlaves]. unfold ret. by rewrite after_nil.
  - apply not_elem_of_cons in Hnot as [Hne Hnot]. cbn [applySlaves].
    destruct (up_calm ver d m st) as (evs & Hrun & _ & Hq).
    rewrite (bind_done _ _ _ _ _ Hrun).
    rewrite (bind_done _ _ _ _ _ (printf_run _ _)).
    match goal with
    | |- context [applySlaves env db ver m (S idx) slaves ?s] =>
        destruct (IH (S idx) s Hnot) as (evs' & Hrun' & Hq')
    end.
    rewrite Hrun', !after_after. eexists. split; [reflexivity|].
    repeat (apply Forall_app; split); auto. by repeat constructor.
Qed.

Lemma openSlaves_calm drv limit (onEach : list (string * bool) -> M unit) slaves st :
  drv ∉ slaves ->
  (forall h d st', d ∈ slaves ->
     onEach (drvMigrations env h d limit) st' = (st', Done tt)) ->
  exists evs ds ms,
    openSlaves env slaves limit onEach st = (after st evs ds, Done ms) /\
    Forall (apartFrom drv) evs /\ Forall (fun d => d <> drv) ds.
Proof.
  revert st. induction slaves as [|d slaves IH]; intros st Hnot Hon.
  - exists [], [], []. cbn [openSlaves]. unfold ret. by rewrite after_nil.
  - apply not_elem_of_cons in Hnot as [Hne Hnot]. cbn [openSlaves].
    rewrite (bind_done _ _ _ _ _ (openDatabaseForMigration_calm env Hcalm _ _)).
    run_step.
    rewrite (bind_done _ _ _ _ _ (selectMigrations_calm env Hcalm _ _ _)).
    rewrite !after_after.
    rewrite (bind_done _ _ _ _ _ (Hon _ d _ ltac:(left))).
    edestruct IH as (evs & ds & ms & Hrun & Hq & Hds); [exact Hnot | | ].
    { intros h d' st' Hd'. apply Hon. by right. }
    rewrite (bind_done _ _ _ _ _ Hrun), after_after.
    do 3 eexists. split; [reflexivity|]. split.
    + apply Forall_app. split; [|exact Hq]. cbn. by repeat constructor.
    + apply Forall_app. split; [exact Hds|]. by repeat constructor.
Qed.

Lemma parseMigration_ok (rf : list event -> string -> string + error)
    (path data : string) (p : Parsed) st :
  rf (trace st) path = inl data ->
  parseMigrationContents data = (p, None) ->
  parseMigration rf path st = (after st [ReadFile path] [], Done p).
Proof.
  intros Hrf Hp. unfold parseMigration. do 2 run_step. cbn [after trace].
  rewrite Hrf, Hp. reflexivity.
Qed.

(** What a function leaves behind when its body ends. *)
Lemma function_done {A} (body : M A) st evs ds (o : outcome A) :
  body {| trace := trace st; deferred := [] |}
    = (after {| trace := trace st; deferred := [] |} evs ds, o) ->
  o <> Diverged ->
  function body st = (after st (evs ++ ((fun d => Call d SqlClose) <$> ds)) [], o).
Proof.
  intros Hb Ho. unfold function. rewrite Hb. unfold after. cbn.
  rewrite app_nil_r, (assoc_L (++)). by destruct o.
Qed.

(** The schema dump, whatever the file system answers. *)
Lemma dumpSchema_calm fuel drv st :
  WaitBefore db = false ->
  exists evs o,
    dumpSchema env db fuel drv st = (after st evs [], o) /\
    o <> Diverged /\
    callsOn drv evs = [DrvOpen; DrvCreateMigrationsTable; DrvDumpSchema; SqlClose].
Proof.
  intros Hw. unfold dumpSchema. rewrite Hw.
  assert (exists evs o,
    (ret tt ;;
     openDatabaseForMigration env drv ;;
     deferClose drv ;;
     h <- history ;;
     err <- invoke env drv DrvDumpSchema ;;
     check err ;;
     logf ("Writing: " +:+ SchemaFile db +:+ NL) ;;
     ensureDir env (pathDir env (SchemaFile db)) ;;
     h0 <- history ;;
     emit (WriteFile (SchemaFile db) (drvSchema env h drv)) ;;
     check (osWriteFile env h0 (SchemaFile db) (drvSchema env h drv)))
      {| trace := trace st; deferred := [] |}
    = (after {| trace := trace st; deferred := [] |} evs [drv], o) /\
    o <> Diverged /\
    callsOn drv evs = [DrvOpen; DrvCreateMigrationsTable; DrvDumpSchema])
    as (evs & o & Hb & Ho & Hc).
  { run_step.
    rewrite (bind_done _ _ _ _ _ (openDatabaseForMigration_calm env Hcalm _ _)).
    do 2 run_step.
    rewrite (bind_done _ _ _ _ _ (invoke_calm env Hcalm _ _ _)).
    cbn [check]. run_step.
    rewrite (bind_done _ _ _ _ _ (logf_run _ _)).
    unfold ensureDir. rewrite bind_assoc. do 2 run_step.
    rewrite !after_after. cbn [app].
    destruct (osMkdirAll env _ _) as [e|].
    - run_step. rewrite !after_after. cbn [app].
      eexists _, (Fail _). split; [reflexivity|]. split; [discriminate|].
      rewrite !callsOn_same. by repeat (rewrite callsOn_apart by done).
    - do 4 run_step. rewrite !after_after. cbn [app]. unfold check.
      destruct (osWriteFile env _ _ _) as [e|];
        [eexists _, (Fail e) | eexists _, (Done tt)];
        (split; [reflexivity|]); (split; [discriminate|]);
        rewrite !callsOn_same; by repeat (rewrite callsOn_apart by done). }
  rewrite (function_done _ _ _ _ _ Hb Ho).
  exists (evs ++ [Call drv SqlClose]), o. split; [reflexivity|].
  split; [exact Ho|]. rewrite callsOn_app, Hc, callsOn_same. reflexivity.
Qed.

Lemma autoDump_calm fuel drv st :
  WaitBefore db = false ->
  exists evs,
    (if AutoDumpSchema db then errorOf (dumpSchema env db fuel drv) ;; ret tt
     else ret tt) st = (after st evs [], Done tt) /\
    callsOn drv evs = dumpCalls db /\
    forall d, d <> drv -> Forall (apartFrom d) evs.
Proof.
  intros Hw.
  assert (exists evs,
    (if AutoDumpSchema db then errorOf (dumpSchema env db fuel drv) ;; ret tt
     else ret tt) st = (after st evs [], Done tt) /\
    callsOn drv evs = dumpCalls db) as (evs & Hrun & Hc).
  { unfold dumpCalls. destruct (AutoDumpSchema db).
    - destruct (dumpSchema_calm fuel drv st Hw) as (evs & o & Hrun & Ho & Hc).
      exists evs. split; [|exact Hc].
      unfold bind, errorOf. rewrite Hrun. by destruct o as [[]| |].
    - exists []. unfold ret. by rewrite after_nil. }
  exists evs. split; [exact Hrun|]. split; [exact Hc|]. intros d Hd.
  destruct (does_run (apartFrom d) any
              (if AutoDumpSchema db
               then errorOf (dumpSchema env db fuel drv) ;; ret tt else ret tt) st)
    as (evs' & Hst & Hq & _).
  { does_steps. apply does_dumpSchema; done. }
  rewrite Hrun in Hst. cbn in Hst. injection Hst as Hst.
  by apply app_inv_head in Hst as ->.
Qed.

Section Files.
Context (rf : list event -> string -> string + error).
Context (contentOf : string -> string).
Context (drv : Driver) (slaves : list Driver) (Hnot : drv ∉ slaves).
Context (applied : list (string * bool)) (ms : list (list (string * bool))).

Lemma migrateFile_calm f st :
  (forall h, rf h (pathJoin env (MigrationsDir db) f) = inl (contentOf f)) ->
  (parseMigrationContents (contentOf f)).2 = None ->
  exists evs,
    migrateFile env rf db drv slaves applied ms f st = (after st evs [], Done tt) /\
    callsOn drv evs
    = if mapGet applied (migrationVersion f) then [] else upCalls contentOf f.
Proof.
  intros Hrf Hparse. unfold migrateFile, upCalls.
  destruct (parseMigrationContents (contentOf f)) as [p o] eqn:Hp.
  cbn in Hparse. subst o. cbn [fst].
  set (ver := migrationVersion f).
  assert (Hrun : forall st', exists evs,
    (logf ("Applying: " +:+ f +:+ " (master: "
           +:+ showBool (negb (mapGet applied ver))
           +:+ ", slaves: " +:+ pretty (length (slavesWithout 0 ms ver))
           +:+ ")" +:+ NL) ;;
     p <- parseMigration rf (pathJoin env (MigrationsDir db) f) ;;
     applySlaves env db ver (upSlave p) 0 slaves ;;
     (if negb (mapGet applied ver)
      then err <- runBlock env drv (up p) (execUp env db ver drv (up p)) ;;
           match err with
           | Some e => printf ("- Failed on master: " +:+ errText e) ;; fail e
           | None => printf ("- Applied to master" +:+ NL)
           end
      else ret tt)) st' = (after st' evs [], Done tt) /\
    callsOn drv evs
    = if mapGet applied ver then [] else blockCalls (up p) (DrvInsertMigration ver)).
  { intros st'.
    rewrite (bind_done _ _ _ _ _ (logf_run _ _)).
    rewrite (bind_done _ _ _ _ _ (parseMigration_ok rf _ _ _ _ (Hrf _) Hp)).
    match goal with
    | |- context [bind (applySlaves env db ver (upSlave p) 0 slaves) _ ?s] =>
        destruct (applySlaves_calm drv ver (upSlave p) 0 slaves s Hnot)
          as (evs1 & Hrun1 & Hq1)
    end.
    rewrite (bind_done _ _ _ _ _ Hrun1), !after_after.
    destruct (mapGet applied ver); cbn [negb].
    - eexists. unfold ret. split; [reflexivity|].
      rewrite !callsOn_app, (callsOn_all_apart _ _ Hq1). reflexivity.
    - match goal with
      | |- context [bind (runBlock env drv (up p) _) _ ?s] =>
          destruct (up_calm ver drv (up p) s) as (evs2 & Hrun2 & Hc2 & _)
      end.
      rewrite (bind_done _ _ _ _ _ Hrun2), printf_run, !after_after.
      eexists. split; [reflexivity|].
      rewrite !callsOn_app, (callsOn_all_apart _ _ Hq1), Hc2.
      cbn [app]. rewrite !callsOn_apart by done. cbn. by rewrite app_nil_r. }
  destruct (mapGet applied ver) eqn:Ha; cbn [negb andb].
  - destruct (length (slavesWithout 0 ms ver) =? 0)%nat.
    + exists []. unfold ret. by rewrite after_nil.
    + apply Hrun.
  - apply Hrun.
Qed.

Lemma migrateFiles_calm files st :
  (forall h f, f ∈ files ->
     rf h (pathJoin env (MigrationsDir db) f) = inl (contentOf f) /\
     (parseMigrationContents (contentOf f)).2 = None) ->
  exists evs,
    migrateFiles env rf db drv slaves applied ms files st
      = (after st evs [], Done tt) /\
    callsOn drv evs = mjoin (upCalls contentOf <$> List.filter (pending applied) files).
Proof.
  revert st. induction files as [|f files IH]; intros st Hfiles.
  - exists []. cbn [migrateFiles]. unfold ret. by rewrite after_nil.
  - cbn [migrateFiles].
    destruct (migrateFile_calm f st) as (evs & Hrun & Hc).
    { intros h. apply (Hfiles h f). left. }
    { apply (Hfiles [] f). left. }
    rewrite (bind_done _ _ _ _ _ Hrun).
    destruct (IH (after st evs [])) as (evs' & Hrun' & Hc').
    { intros h f' Hf'. apply Hfiles. by right. }
    rewrite Hrun', after_after. eexists. split; [reflexivity|].
    rewrite callsOn_app, Hc, Hc'. cbn [List.filter]. unfold pending at 2.
    by destruct (mapGet applied (migrationVersion f)).
Qed.

End Files.
End Calm.
End CalmFacts.

Import CalmFacts.

(** X9.  When every driver call succeeds and every migration file parses,
    [Migrate] returns no error and its calls on the primary are: open,
    create the ledger table, select all versions; then for each migration
    file in sorted order whose version the ledger does not hold, the [up]
    block and [InsertMigration] of its version (inside [Begin] and
    [Commit] unless the block says transaction:false); then the schema
    dump if [AutoDumpSchema] is set; then [Close].  Stated for [WaitBefore]
    off and a primary that is not also a replica. *)
Theorem Migrate_applies_pending (env : Env) (contentOf : string -> string)
    (rf : list event -> string -> string + error) (db : DB) (fuel : nat)
    (st : state) (drv : Driver) (slaves : list Driver) (entries : list DirEntry) :
  (forall h d c, drvError env h d c = None) ->
  WaitBefore db = false ->
  GetDriver env db = inl drv ->
  GetSlaveDrivers env db = inl slaves ->
  drv ∉ slaves ->
  osReadDir env (trace st) (MigrationsDir db) = Some entries ->
  let files := sortStrings (matchingNames migrationFileRegexp entries) in
  files <> [] ->
  (forall h f, f ∈ files ->
     rf h (pathJoin env (MigrationsDir db) f) = inl (contentOf f) /\
     (parseMigrationContents (contentOf f)).2 = None) ->
  let applied :=
    drvMigrations env
      (trace st ++ [ReadDir (MigrationsDir db); Call drv DrvOpen;
                    Call drv DrvCreateMigrationsTable]) drv (-1) in
  exists evs,
    Migrate env rf db fuel st
      = ({| trace := trace st ++ evs; deferred := deferred st |}, Done tt) /\
    callsOn drv evs
    = [DrvOpen; DrvCreateMigrationsTable; DrvSelectMigrations (-1)]
      ++ mjoin (upCalls contentOf <$> List.filter (pending applied) files)
      ++ dumpCalls db ++ [SqlClose].
Proof.
  intros Hcalm Hw Hdrv Hsl Hnot Hdir files Hfiles Hrf applied.
  unfold Migrate. rewrite Hdrv, Hsl. cbn [lift]. do 2 run_step.
  unfold migrate.
  assert (Hlen : (length files =? 0)%nat = false) by (by destruct files).
  assert (exists evs ds,
    (files <- findMigrationFiles env (MigrationsDir db) migrationFileRegexp ;;
     (if (length files =? 0)%nat then fail ErrNoMigrationFiles else ret tt) ;;
     (if WaitBefore db then wait env db fuel [drv] ;; wait env db fuel slaves
      else ret tt) ;;
     openDatabaseForMigration env drv ;;
     deferClose drv ;;
     applied <- selectMigrations env drv (-1) ;;
     appliedSlaves <- openSlaves env slaves (-1) (fun _ => ret tt) ;;
     migrateFiles env rf db drv slaves applied appliedSlaves files ;;
     (if AutoDumpSchema db
      then errorOf (dumpSchema env db fuel drv) ;; ret tt else ret tt))
      {| trace := trace st; deferred := [] |}
    = (after {| trace := trace st; deferred := [] |} evs (ds ++ [drv]), Done tt) /\
    callsOn drv evs
    = [DrvOpen; DrvCreateMigrationsTable; DrvSelectMigrations (-1)]
      ++ mjoin (upCalls contentOf <$> List.filter (pending applied) files)
      ++ dumpCalls db /\
    Forall (fun d => d <> drv) ds) as (evs & ds & Hbody & Hcalls & Hds).
  { unfold findMigrationFiles. repeat run_step.
    cbn [trace]. rewrite Hdir. cbn [findMigrationFilesIn lift]. fold files.
    repeat run_step. rewrite Hlen, Hw. repeat run_step.
    rewrite (bind_done _ _ _ _ _ (openDatabaseForMigration_calm env Hcalm _ _)).
    run_step.
    rewrite (bind_done _ _ _ _ _ (selectMigrations_calm env Hcalm _ _ _)).
    rewrite !after_after. cbn [app trace after]. fold applied.
    match goal with
    | |- context [bind (openSlaves env slaves (-1) _) _ ?s] =>
        destruct (openSlaves_calm env Hcalm drv (-1) (fun _ => ret tt) slaves s Hnot)
          as (evs1 & ds & ms & Hrun1 & Hq1 & Hds); [reflexivity|]
    end.
    rewrite (bind_done _ _ _ _ _ Hrun1).
    match goal with
    | |- context [bind (migrateFiles env rf db drv slaves applied ms files) _ ?s] =>
        destruct (migrateFiles_calm env Hcalm db rf contentOf drv slaves Hnot
                    applied ms files s Hrf) as (evs2 & Hrun2 & Hc2)
    end.
    rewrite (bind_done _ _ _ _ _ Hrun2).
    match goal with
    | |- context [(if AutoDumpSchema db then _ else _) ?s] =>
        destruct (autoDump_calm env Hcalm db fuel drv s Hw) as (evs3 & Hrun3 & Hc3 & _)
    end.
    rewrite Hrun3. unfold after at 1 2 3 4. cbn [trace deferred].
    eexists _, ds. split; [|split; [|exact Hds]].
    - unfold after. cbn [trace deferred]. f_equal. f_equal.
      + rewrite <- !(assoc_L (++)). reflexivity.
      + by rewrite !app_nil_r.
    - rewrite !callsOn_app, Hc2, Hc3, (callsOn_all_apart _ _ Hq1).
      cbn [app]. rewrite callsOn_apart by done. rewrite !callsOn_same.
      reflexivity. }
  rewrite (function_done _ _ _ _ _ Hbody) by discriminate.
  eexists. split; [reflexivity|].
  rewrite callsOn_app, Hcalls, fmap_app, callsOn_app.
  rewrite (callsOn_all_apart drv ((fun d => Call d SqlClose) <$> ds)).
  2:{ apply Forall_fmap. eapply Forall_impl; [exact Hds|]. by intros d Hd. }
  cbn [app fmap list_fmap]. rewrite callsOn_same.
  by rewrite <- !(assoc_L (++)).
Qed.

(** X9 for the test migration on a primary and a replica that have applied
    nothing. *)
Lemma Migrate_applies_pending_witness :
  let env := calm (fun _ => []) in
  exists evs,
    Migrate env testFiles (newDB [url "slave0"]) 0 start
      = ({| trace := trace start ++ evs; deferred := deferred start |}, Done tt) /\
    callsOn primary evs
    = [DrvOpen; DrvCreateMigrationsTable; DrvSelectMigrations (-1);
       SqlBegin; SqlExec (Contents (up testParsed));
       DrvInsertMigration testVersion; SqlCommit;
       DrvOpen; DrvCreateMigrationsTable; DrvDumpSchema; SqlClose; SqlClose].
Proof.
  cbn zeta.
  apply (Migrate_applies_pending (calm (fun _ => [])) (fun _ => testMigration)
           testFiles (newDB [url "slave0"]) 0 start primary [replica0]
           [{| Name := testMigrationName; IsDir := false |}]).
  - intros h d c. reflexivity.
  - reflexivity.
  - reflexivity.
  - reflexivity.
  - intros H. apply list_elem_of_singleton in H. discriminate.
  - reflexivity.
  - vm_compute. discriminate.
  - intros h f _. split; reflexivity.
Defined.

(* ===================================================================== *)
(** ** The calls of [Rollback]                                           *)
(* ===================================================================== *)

Module RollbackFacts.

Ltac calls_step :=
  first [ rewrite callsOn_app
        | rewrite callsOn_same
        | rewrite callsOn_apart by (cbn; first [done | congruence])
        | progress change (callsOn ?d []) with (@nil call) ].

Lemma sameLatest_same (v : string) (m : list (string * bool)) st :
  (forall w b, (w, b) ∈ m -> w = v) -> sameLatest v m st = (st, Done tt).
Proof.
  induction m as [|[w b] m IH]; intros H; [reflexivity|].
  cbn [sameLatest]. pose proof (H w b ltac:(left)) as Hw. rewrite Hw.
  rewrite String.eqb_refl. cbn [negb].
  apply IH. intros w' b' Hin. apply (H w' b'). by right.
Qed.

Lemma if_elem_of_cons_ne {A} (d x : Driver) (l : list Driver) (a b : A) :
  d <> x ->
  (if bool_decide (d ∈ x :: l) then a else b)
  = (if bool_decide (d ∈ l) then a else b).
Proof.
  intros Hne. apply (f_equal (fun c : bool => if c then a else b)).
  apply bool_decide_ext. rewrite elem_of_cons.
  split; [intros [?|?]; [congruence | done] | by right].
Qed.

Lemma callsOn_closes d (l : list Driver) :
  NoDup l ->
  callsOn d ((fun d' => Call d' SqlClose) <$> l)
  = if bool_decide (d ∈ l) then [SqlClose] else [].
Proof.
  induction 1 as [|x l Hx Hl IH]; [reflexivity|].
  rewrite fmap_cons. destruct (decide (x = d)) as [->|Hne].
  - rewrite callsOn_same, IH, (bool_decide_false _ Hx), bool_decide_true by left.
    reflexivity.
  - rewrite callsOn_apart, IH by done. by rewrite if_elem_of_cons_ne.
Qed.

Section Calm.
Context (env : Env).
Context (Hcalm : forall h d c, drvError env h d c = None).
Context (db : DB).

Lemma rollbackSlaves_calls ver m idx slaves st :
  NoDup slaves ->
  exists evs,
    rollbackSlaves env db ver m idx slaves st = (after st evs [], Done tt) /\
    forall d, callsOn d evs
              = if bool_decide (d ∈ slaves)
                then blockCalls m (DrvDeleteMigration ver) else [].
Proof.
  intros Hnd. revert idx st.
  induction Hnd as [|s slaves Hs Hnd IH]; intros idx st.
  - exists []. cbn [rollbackSlaves]. unfold ret. by rewrite after_nil.
  - cbn [rollbackSlaves].
    destruct (down_calm env Hcalm db ver s m st) as (evs & Hrun & Hc & Hq).
    rewrite (bind_done _ _ _ _ _ Hrun).
    rewrite (bind_done _ _ _ _ _ (printf_run _ _)).
    match goal with
    | |- context [rollbackSlaves env db ver m (S idx) slaves ?s'] =>
        destruct (IH (S idx) s') as (evs' & Hrun' & Hc')
    end.
    rewrite Hrun', !after_after. eexists. split; [reflexivity|].
    intros d. rewrite !callsOn_app, Hc'. cbn [app].
    rewrite callsOn_apart by done. change (callsOn d []) with (@nil call).
    destruct (decide (d = s)) as [->|Hne].
    + rewrite Hc, (bool_decide_false _ Hs), bool_decide_true by left.
      by rewrite app_nil_r.
    + rewrite (callsOn_all_apart d evs) by (apply Hq; done).
      cbn [app]. by rewrite if_elem_of_cons_ne.
Qed.

Lemma openSlaves_calls limit (onEach : list (string * bool) -> M unit) slaves st :
  NoDup slaves ->
  (forall h d st', d ∈ slaves ->
     onEach (drvMigrations env h d limit) st' = (st', Done tt)) ->
  exists evs ds ms,
    openSlaves env slaves limit onEach st = (after st evs ds, Done ms) /\
    ds = reverse slaves /\
    forall d, callsOn d evs
              = if bool_decide (d ∈ slaves)
                then [DrvOpen; DrvCreateMigrationsTable; DrvSelectMigrations limit]
                else [].
Proof.
  intros Hnd. revert st.
  induction Hnd as [|s slaves Hs Hnd IH]; intros st Hon.
  - exists [], [], []. cbn [openSlaves]. unfold ret. by rewrite after_nil.
  - cbn [openSlaves].
    rewrite (bind_done _ _ _ _ _ (openDatabaseForMigration_calm env Hcalm _ _)).
    run_step.
    rewrite (bind_done _ _ _ _ _ (selectMigrations_calm env Hcalm _ _ _)).
    rewrite !after_after.
    rewrite (bind_done _ _ _ _ _ (Hon _ s _ ltac:(left))).
    edestruct IH as (evs & ds & ms & Hrun & Hds & Hc).
    { intros h d' st' Hd'. apply Hon. by right. }
    rewrite (bind_done _ _ _ _ _ Hrun), after_after.
    do 3 eexists. split; [reflexivity|]. split.
    + rewrite Hds, reverse_cons. reflexivity.
    + intros d. rewrite callsOn_app, Hc. cbn [app].
      destruct (decide (d = s)) as [->|Hne].
      * rewrite !callsOn_same, (bool_decide_false _ Hs), bool_decide_true by left.
        reflexivity.
      * rewrite !callsOn_apart by (cbn; congruence).
        change (callsOn d []) with (@nil call). cbn [app].
        by rewrite if_elem_of_cons_ne.
Qed.

End Calm.
End RollbackFacts.

Import RollbackFacts.

(** X10.  When every driver call succeeds, the primary's most recent version is
    [v], no replica holds another version, and the file of [v] is found and
    parses, [Rollback] returns no error; on the primary it runs the [down]
    block and [DeleteMigration v], then the schema dump; on each replica it
    runs the [down:slave] block and [DeleteMigration v].  Stated for
    [WaitBefore] off and databases that differ from one another. *)
Theorem Rollback_rolls_back_latest (env : Env)
    (rf : list event -> string -> string + error) (db : DB) (fuel : nat)
    (st : state) (drv : Driver) (slaves : list Driver)
    (v : string) (b : bool) (filename contents : string) :
  (forall h d c, drvError env h d c = None) ->
  WaitBefore db = false ->
  GetDriver env db = inl drv ->
  GetSlaveDrivers env db = inl slaves ->
  NoDup (drv :: slaves) ->
  (forall h, drvMigrations env h drv 1 = [(v, b)]) ->
  v <> "" ->
  (forall h d w b', d ∈ slaves -> (w, b') ∈ drvMigrations env h d 1 -> w = v) ->
  (forall h, findMigrationFileIn (osReadDir env h (MigrationsDir db))
               (MigrationsDir db) v = inl filename) ->
  (forall h, rf h (pathJoin env (MigrationsDir db) filename) = inl contents) ->
  (parseMigrationContents contents).2 = None ->
  let p := (parseMigrationContents contents).1 in
  exists evs,
    Rollback env rf db fuel st
      = ({| trace := trace st ++ evs; deferred := deferred st |}, Done tt) /\
    callsOn drv evs
    = [DrvOpen; DrvCreateMigrationsTable; DrvSelectMigrations 1]
      ++ blockCalls (down p) (DrvDeleteMigration v)
      ++ dumpCalls db ++ [SqlClose] /\
    forall d, d ∈ slaves ->
      callsOn d evs
      = [DrvOpen; DrvCreateMigrationsTable; DrvSelectMigrations 1]
        ++ blockCalls (downSlave p) (DrvDeleteMigration v) ++ [SqlClose].
Proof.
  intros Hcalm Hw Hdrv Hsl Hnd Hlatest Hv Hsame Hfile Hrf Hparse p.
  apply NoDup_cons in Hnd as [Hnot Hnd].
  destruct (parseMigrationContents contents) as [p' o] eqn:Hp.
  cbn in Hparse, p. subst o p.
  unfold Rollback.
  assert (exists evs,
    (drv <- lift (GetDriver env db) ;;
     slavesDrv <- lift (GetSlaveDrivers env db) ;;
     (if WaitBefore db then wait env db fuel [drv] ;; wait env db fuel slavesDrv
      else ret tt) ;;
     openDatabaseForMigration env drv ;;
     deferClose drv ;;
     applied <- selectMigrations env drv 1 ;;
     let latest := default "" (last (fst <$> applied)) in
     (if String.eqb latest "" then fail ErrNoRollback else ret tt) ;;
     filename <- findMigrationFile env (MigrationsDir db) latest ;;
     openSlaves env slavesDrv 1 (sameLatest latest) ;;
     logf ("Rolling back: " +:+ filename +:+ NL) ;;
     p <- parseMigration rf (pathJoin env (MigrationsDir db) filename) ;;
     err <- runBlock env drv (down p) (execDown env db latest drv (down p)) ;;
     match err with
     | Some e => printf ("- Failed on master: " +:+ errText e) ;; fail e
     | None => printf ("- Applied to master" +:+ NL)
     end ;;
     rollbackSlaves env db latest (downSlave p) 0 slavesDrv ;;
     (if AutoDumpSchema db
      then errorOf (dumpSchema env db fuel drv) ;; ret tt else ret tt))
      {| trace := trace st; deferred := [] |}
    = (after {| trace := trace st; deferred := [] |} evs (reverse slaves ++ [drv]),
       Done tt) /\
    callsOn drv evs
    = [DrvOpen; DrvCreateMigrationsTable; DrvSelectMigrations 1]
      ++ blockCalls (down p') (DrvDeleteMigration v) ++ dumpCalls db /\
    forall d, d ∈ slaves ->
      callsOn d evs
      = [DrvOpen; DrvCreateMigrationsTable; DrvSelectMigrations 1]
        ++ blockCalls (downSlave p') (DrvDeleteMigration v))
    as (evs & Hbody & Hcalls & Hreplicas).
  { rewrite Hdrv, Hsl, Hw. cbn [lift]. repeat run_step.
    rewrite (bind_done _ _ _ _ _ (openDatabaseForMigration_calm env Hcalm _ _)).
    run_step.
    rewrite (bind_done _ _ _ _ _ (selectMigrations_calm env Hcalm _ _ _)).
    rewrite Hlatest. cbn [fmap list_fmap fst last default from_option id].
    destruct (String.eqb_spec v "") as [|_]; [contradiction|].
    run_step. unfold findMigrationFile. repeat run_step.
    rewrite Hfile. cbn [lift]. run_step. rewrite !after_after. cbn [app].
    match goal with
    | |- context [bind (openSlaves env slaves 1 (sameLatest v)) _ ?s] =>
        destruct (openSlaves_calls env Hcalm 1 (sameLatest v) slaves s Hnd)
          as (evs1 & ds & ms & Hrun1 & Hds & Hc1)
    end.
    { intros h d st' Hd. apply sameLatest_same. intros w b' Hin.
      by apply (Hsame h d w b'). }
    rewrite (bind_done _ _ _ _ _ Hrun1).
    rewrite (bind_done _ _ _ _ _ (logf_run _ _)).
    rewrite (bind_done _ _ _ _ _ (parseMigration_ok rf _ _ _ _ (Hrf _) Hp)).
    match goal with
    | |- context [bind (runBlock env drv (down p') _) _ ?s] =>
        destruct (down_calm env Hcalm db v drv (down p') s) as (evs2 & Hrun2 & Hc2 & Hq2)
    end.
    rewrite (bind_done _ _ _ _ _ Hrun2).
    rewrite (bind_done _ _ _ _ _ (printf_run _ _)).
    match goal with
    | |- context [bind (rollbackSlaves env db v (downSlave p') 0 slaves) _ ?s] =>
        destruct (rollbackSlaves_calls env Hcalm db v (downSlave p') 0 slaves s Hnd)
          as (evs3 & Hrun3 & Hc3)
    end.
    rewrite (bind_done _ _ _ _ _ Hrun3).
    match goal with
    | |- context [(if AutoDumpSchema db then _ else _) ?s] =>
        destruct (autoDump_calm env Hcalm db fuel drv s Hw) as (evs4 & Hrun4 & Hc4 & Hq4)
    end.
    rewrite Hrun4, !after_after. subst ds.
    eexists. split; [|split].
    - cbn [app]. reflexivity.
    - repeat calls_step. rewrite Hc1, Hc2, Hc3, Hc4.
      rewrite !(bool_decide_false _ Hnot). cbn [app].
      by rewrite ?app_nil_r.
    - intros d Hd.
      assert (Hne : d <> drv) by (intros ->; contradiction).
      repeat calls_step. rewrite Hc1, Hc3, !(bool_decide_true _ Hd).
      rewrite (callsOn_all_apart d evs2) by (by apply Hq2).
      rewrite (callsOn_all_apart d evs4) by (by apply Hq4).
      cbn [app]. by rewrite app_nil_r. }
  pose proof (function_done _ st _ _ _ Hbody ltac:(discriminate)) as Hrun.
  eexists. split; [exact Hrun|].
  assert (Hnd' : NoDup (reverse slaves ++ [drv])).
  { apply NoDup_app. split; [by rewrite reverse_Permutation|].
    split; [|apply NoDup_singleton].
    intros d Hd Hd'. apply list_elem_of_singleton in Hd'. subst d.
    rewrite elem_of_reverse in Hd. contradiction. }
  split.
  - rewrite callsOn_app, Hcalls, (callsOn_closes _ _ Hnd').
    rewrite bool_decide_true by (apply elem_of_app; right; left).
    by rewrite <- !(assoc_L (++)).
  - intros d Hd. rewrite callsOn_app, (Hreplicas d Hd), (callsOn_closes _ _ Hnd').
    rewrite bool_decide_true by (apply elem_of_app; left; by apply elem_of_reverse_2).
    by rewrite <- !(assoc_L (++)).
Qed.

(** X10 on a primary and a replica that have both applied the test
    migration. *)
Lemma Rollback_rolls_back_latest_witness :
  let env := calm (fun _ => appliedTest) in
  exists evs,
    Rollback env testFiles (newDB [url "slave0"]) 0 start
      = ({| trace := trace start ++ evs; deferred := deferred start |}, Done tt) /\
    callsOn primary evs
    = [DrvOpen; DrvCreateMigrationsTable; DrvSelectMigrations 1]
      ++ blockCalls (down testParsed) (DrvDeleteMigration testVersion)
      ++ dumpCalls (newDB [url "slave0"]) ++ [SqlClose] /\
    forall d, d ∈ [replica0] ->
      callsOn d evs
      = [DrvOpen; DrvCreateMigrationsTable; DrvSelectMigrations 1]
        ++ blockCalls (downSlave testParsed) (DrvDeleteMigration testVersion)
        ++ [SqlClose].
Proof.
  cbn zeta.
  apply (Rollback_rolls_back_latest (calm (fun _ => appliedTest)) testFiles
           (newDB [url "slave0"]) 0 start primary [replica0] testVersion true
           testMigrationName testMigration).
  - intros h d c. reflexivity.
  - reflexivity.
  - reflexivity.
  - reflexivity.
  - apply NoDup_cons. split; [|apply NoDup_singleton].
    intros H. apply list_elem_of_singleton in H. discriminate.
  - intros h. reflexivity.
  - discriminate.
  - intros h d w b' _ H. apply list_elem_of_singleton in H. congruence.
  - intros h. reflexivity.
  - intros h. reflexivity.
  - reflexivity.
Defined.

(* ===================================================================== *)
(** ** Facts about [Status]                                              *)
(* ===================================================================== *)

Module StatusFacts.
Lemma statusLoop_run quiet results total st :
  statusLoop quiet results total st
  = (after st (if quiet then [] else Log <$> (statusLine <$> results)) [],
     Done (total + Z.of_nat (length (List.filter Applied results)))).
Proof.
  revert total st. induction results as [|res results IH]; intros total st.
  - cbn [statusLoop]. unfold ret. cbn. rewrite Z.add_0_r.
    by destruct quiet; rewrite after_nil.
  - cbn [statusLoop List.filter]. destruct quiet; cbn [negb].
    + run_step. rewrite IH. f_equal. f_equal.
      destruct (Applied res); cbn [length]; lia.
    + rewrite (bind_done _ _ _ _ _ (logf_run _ _)), IH, after_after.
      rewrite !fmap_cons. f_equal. f_equal.
      destruct (Applied res); cbn [length]; lia.
Qed.

Lemma count_pending applied files :
  (length (List.filter Applied (statusOf applied <$> files))
   + length (List.filter (pending applied) files) = length files)%nat.
Proof.
  induction files as [|f files IH]; [reflexivity|].
  rewrite fmap_cons. cbn [List.filter statusOf Applied]. unfold pending at 1.
  destruct (mapGet applied (migrationVersion f)); cbn [negb length]; lia.
Qed.

Lemma omap_logged_logs (l : list string) : omap logged (Log <$> l) = l.
Proof. induction l as [|x l IH]; [reflexivity|]. cbn. by rewrite IH. Qed.

End StatusFacts.

Import StatusFacts.

(** X11.  When the calls on the primary succeed and the directory holds
    migration files, [Status] returns the number of migration files whose
    version the ledger does not hold (every file when the ledger table does
    not exist, in which case the ledger is not selected); unless [quiet], it
    logs one line for each file in sorted order, marked [X] or [ ], an empty
    line, then the numbers applied and pending. *)
Theorem Status_counts_pending (env : Env)
    (drvTableExists : list event -> Driver -> bool) (db : DB) (quiet : bool)
    (st : state) (drv : Driver) (entries : list DirEntry) :
  GetDriver env db = inl drv ->
  (forall h c, drvError env h drv c = None) ->
  osReadDir env (trace st) (MigrationsDir db) = Some entries ->
  let files := sortStrings (matchingNames migrationFileRegexp entries) in
  files <> [] ->
  let h := trace st ++ [ReadDir (MigrationsDir db); Call drv DrvOpen] in
  let applied :=
    if drvTableExists h drv
    then drvMigrations env (h ++ [Call drv DrvMigrationsTableExists]) drv (-1)
    else [] in
  let results := statusOf applied <$> files in
  let pendingFiles := List.filter (pending applied) files in
  let totalPending := Z.of_nat (length pendingFiles) in
  let totalApplied := Z.of_nat (length files) - totalPending in
  exists evs,
    Status env drvTableExists db quiet st
      = ({| trace := trace st ++ evs; deferred := deferred st |},
         Done totalPending) /\
    callsOn drv evs
    = [DrvOpen; DrvMigrationsTableExists]
      ++ (if drvTableExists h drv then [DrvSelectMigrations (-1)] else [])
      ++ [SqlClose] /\
    omap logged evs
    = if quiet then []
      else (statusLine <$> results)
           ++ [NL; "Applied: " +:+ pretty totalApplied +:+ NL;
               "Pending: " +:+ pretty totalPending +:+ NL].
Proof.
  intros Hdrv Hcalm Hdir files Hfiles h applied results pendingFiles
    totalPending totalApplied.
  assert (Hh : trace st ++ [ReadDir (MigrationsDir db); Call drv DrvOpen] = h)
    by reflexivity.
  assert (Happlied :
    (if drvTableExists h drv
     then drvMigrations env (h ++ [Call drv DrvMigrationsTableExists]) drv (-1)
     else []) = applied) by reflexivity.
  clearbody applied h.
  assert (Hlen : (length files =? 0)%nat = false) by (by destruct files).
  assert (Hinv : forall c st0, invoke env drv c st0 = (after st0 [Call drv c] [], Done None)).
  { intros c st0. unfold invoke, bind, history, emit, ret, after. cbn.
    by rewrite Hcalm. }
  assert (Hcheck : exists evs,
    CheckMigrationsStatus env drvTableExists db drv st
      = (after st evs [], Done results) /\
    callsOn drv evs
    = [DrvOpen; DrvMigrationsTableExists]
      ++ (if drvTableExists h drv then [DrvSelectMigrations (-1)] else [])
      ++ [SqlClose] /\
    omap logged evs = []).
  { unfold CheckMigrationsStatus.
    assert (exists evs,
      (files <- findMigrationFiles env (MigrationsDir db) migrationFileRegexp ;;
       (if (length files =? 0)%nat then fail ErrNoMigrationFiles else ret tt) ;;
       err <- invoke env drv DrvOpen ;;
       check err ;;
       deferClose drv ;;
       h <- history ;;
       err <- invoke env drv DrvMigrationsTableExists ;;
       check err ;;
       applied <- (if drvTableExists h drv then selectMigrations env drv (-1)
                   else ret []) ;;
       ret (statusOf applied <$> files))
        {| trace := trace st; deferred := [] |}
      = (after {| trace := trace st; deferred := [] |} evs [drv], Done results) /\
      callsOn drv evs
      = [DrvOpen; DrvMigrationsTableExists]
        ++ (if drvTableExists h drv then [DrvSelectMigrations (-1)] else []) /\
      omap logged evs = []) as (evs & Hbody & Hc & Hl).
    { unfold findMigrationFiles. repeat run_step. cbn [trace].
      rewrite Hdir. cbn [findMigrationFilesIn lift]. fold files.
      repeat run_step. rewrite Hlen. repeat run_step.
      rewrite (bind_done _ _ _ _ _ (Hinv _ _)). cbn [check]. repeat run_step.
      rewrite (bind_done _ _ _ _ _ (Hinv _ _)). cbn [check]. repeat run_step.
      rewrite !after_after. cbn [app trace after]. rewrite Hh.
      subst results. rewrite <- Happlied.
      destruct (drvTableExists h drv) eqn:Htbl.
      - unfold selectMigrations. repeat run_step.
        rewrite (bind_done _ _ _ _ _ (Hinv _ _)). cbn [check]. repeat run_step.
        rewrite !after_after. cbn [app trace after].
        rewrite <- Hh, <- (assoc_L (++)). cbn [app].
        eexists. split; [reflexivity|]. split; [|reflexivity].
        repeat calls_step. reflexivity.
      - repeat run_step.
        eexists. split; [reflexivity|]. split; [|reflexivity].
        repeat calls_step. reflexivity. }
    pose proof (function_done _ st _ _ _ Hbody ltac:(discriminate)) as Hrun.
    eexists. split; [exact Hrun|]. split.
    - rewrite callsOn_app, Hc. cbn [fmap list_fmap]. rewrite callsOn_same.
      by rewrite <- !(assoc_L (++)).
    - by rewrite omap_app, Hl. }
  destruct Hcheck as (evs & Hrun & Hc & Hl).
  unfold Status. rewrite Hdrv. cbn [lift]. run_step.
  rewrite (bind_done _ _ _ _ _ Hrun).
  rewrite (bind_done _ _ _ _ _ (statusLoop_run _ _ _ _)).
  pose proof (count_pending applied files) as Hcount.
  fold results pendingFiles in Hcount.
  assert (Hp : Z.of_nat (length results)
               - (0 + Z.of_nat (length (List.filter Applied results)))
               = totalPending).
  { subst totalPending. unfold results at 1. rewrite length_fmap. lia. }
  assert (Ha : 0 + Z.of_nat (length (List.filter Applied results)) = totalApplied).
  { subst totalApplied totalPending. lia. }
  cbv zeta. rewrite Hp, Ha.
  destruct quiet; cbn [negb].
  - repeat run_step. rewrite after_after. eexists. split; [reflexivity|].
    rewrite app_nil_r. auto.
  - repeat run_step.
    rewrite (bind_done _ _ _ _ _ (logf_run _ _)).
    repeat run_step.
    rewrite (bind_done _ _ _ _ _ (logf_run _ _)).
    repeat run_step.
    rewrite (bind_done _ _ _ _ _ (logf_run _ _)).
    repeat run_step. rewrite !after_after.
    eexists. split; [reflexivity|]. split.
    + repeat calls_step. rewrite Hc.
      rewrite (callsOn_all_apart drv (Log <$> _)).
      2:{ apply Forall_fmap, Forall_forall. by intros. }
      by rewrite !app_nil_r.
    + rewrite !omap_app, Hl, omap_logged_logs. reflexivity.
Qed.

(** X11 for two migration files and a primary without ledger table. *)
Lemma Status_counts_pending_witness :
  let files := [testMigrationName; "20200101000000_later.sql"] in
  let env := withDir (Some ((fun n => {| Name := n; IsDir := false |}) <$> files)) in
  exists evs,
    Status env (fun _ _ => false) (newDB []) false start
      = ({| trace := trace start ++ evs; deferred := deferred start |}, Done 2) /\
    callsOn primary evs = [DrvOpen; DrvMigrationsTableExists; SqlClose] /\
    omap logged evs
    = ["[ ] " +:+ testMigrationName +:+ NL; "[ ] 20200101000000_later.sql" +:+ NL;
       NL; "Applied: 0" +:+ NL; "Pending: 2" +:+ NL].
Proof.
  cbn zeta.
  assert (Hfiles : sortStrings (matchingNames migrationFileRegexp
            ((fun n => {| Name := n; IsDir := false |})
             <$> [testMigrationName; "20200101000000_later.sql"])) <> [])
    by (vm_compute; discriminate).
  destruct (Status_counts_pending
           (withDir (Some ((fun n => {| Name := n; IsDir := false |})
                           <$> [testMigrationName; "20200101000000_later.sql"])))
           (fun _ _ => false) (newDB []) false start primary
           ((fun n => {| Name := n; IsDir := false |})
            <$> [testMigrationName; "20200101000000_later.sql"])
           eq_refl (fun _ _ => eq_refl) eq_refl Hfiles)
    as (evs & Hrun & Hcalls & Hlog).
  exists evs. split; [exact Hrun|]. split; [exact Hcalls | exact Hlog].
Defined.

(* ===================================================================== *)
(** ** Facts about [CreateAndMigrate] and the drivers                    *)
(* ===================================================================== *)

Module CreateFacts.

Section Create.
Context (env : Env) (drvExists : list event -> Driver -> bool).

(** A database that exists, or of which this cannot be told, is left alone. *)
Lemma createIfMissing_skip d st :
  drvExists (trace st) d = true \/ drvError env (trace st) d DrvDatabaseExists <> None ->
  createIfMissing env drvExists d st = (after st [Call d DrvDatabaseExists] [], Done tt).
Proof.
  intros H. unfold createIfMissing. run_step.
  unfold invoke. repeat run_step.
  destruct (drvError env (trace st) d DrvDatabaseExists) as [e|] eqn:E.
  - reflexivity.
  - destruct H as [-> | H]; [reflexivity | done].
Qed.

Lemma createMissing_skip ds st :
  (forall h d, d ∈ ds ->
     drvExists h d = true \/ drvError env h d DrvDatabaseExists <> None) ->
  createMissing env drvExists ds st
  = (after st ((fun d => Call d DrvDatabaseExists) <$> ds) [], Done tt).
Proof.
  revert st. induction ds as [|d ds IH]; intros st H.
  - cbn [createMissing]. unfold ret. by rewrite after_nil.
  - cbn [createMissing].
    rewrite (bind_done _ _ _ _ _ (createIfMissing_skip d st (H _ d ltac:(left)))).
    rewrite IH, after_after by (intros h d' Hd'; apply H; by right).
    reflexivity.
Qed.

End Create.
End CreateFacts.

Import CreateFacts.

(** X12.  [CreateAndMigrate] asks each database, the primary first, whether it
    exists.  When every database exists or cannot tell (the question
    fails), no database is created and the command goes on as [migrate]
    does.  When the primary answers that it does not exist and creating it
    fails, that error is returned and nothing else is done.  Stated for
    [WaitBefore] off. *)
Theorem CreateAndMigrate_creates_only_missing (env : Env)
    (drvExists : list event -> Driver -> bool)
    (rf : list event -> string -> string + error) (db : DB) (fuel : nat)
    (st : state) (drv : Driver) (slaves : list Driver) :
  WaitBefore db = false ->
  GetDriver env db = inl drv ->
  GetSlaveDrivers env db = inl slaves ->
  ((forall h d, d ∈ drv :: slaves ->
      drvExists h d = true \/ drvError env h d DrvDatabaseExists <> None) ->
   CreateAndMigrate env drvExists rf db fuel st
   = migrate env rf db fuel drv slaves
       (after st ((fun d => Call d DrvDatabaseExists) <$> drv :: slaves) [])) /\
  (forall e,
     drvError env (trace st) drv DrvDatabaseExists = None ->
     drvExists (trace st) drv = false ->
     drvError env (trace st ++ [Call drv DrvDatabaseExists]) drv DrvCreateDatabase
       = Some e ->
     CreateAndMigrate env drvExists rf db fuel st
     = (after st [Call drv DrvDatabaseExists; Call drv DrvCreateDatabase] [],
        Fail e)).
Proof.
  intros Hw Hdrv Hsl. unfold CreateAndMigrate.
  rewrite Hdrv, Hsl, Hw. cbn [lift]. repeat run_step. split.
  - intros H.
    rewrite (bind_done _ _ _ _ _
               (createIfMissing_skip env drvExists drv st (H _ drv ltac:(left)))).
    rewrite (bind_done _ _ _ _ _ (createMissing_skip env drvExists slaves _
               (fun h d Hd => H h d ltac:(by right)))).
    by rewrite after_after.
  - intros e He Hx Hc. unfold createIfMissing. repeat run_step.
    unfold invoke. repeat run_step. rewrite He, Hx.
    cbn [bool_decide decide_rel negb andb]. rewrite bool_decide_true by done.
    cbn [andb]. repeat run_step. cbn [after trace]. rewrite Hc.
    unfold after. cbn. by rewrite <- (assoc_L (++)).
Qed.

(** X12: databases that exist, and a server that refuses to create the
    primary. *)
Lemma CreateAndMigrate_creates_only_missing_witness :
  let db := newDB [url "slave0"] in
  CreateAndMigrate (calm (fun _ => [])) (fun _ _ => true) testFiles db 0 start
  = migrate (calm (fun _ => [])) testFiles db 0 primary [replica0]
      (after start [Call primary DrvDatabaseExists; Call replica0 DrvDatabaseExists] []) /\
  CreateAndMigrate (world (fun _ => []) createDenied) (fun _ _ => false) testFiles db 0 start
  = (after start [Call primary DrvDatabaseExists; Call primary DrvCreateDatabase] [],
     Fail (External "permission denied")).
Proof.
  cbn zeta. split.
  - apply (proj1 (CreateAndMigrate_creates_only_missing (calm (fun _ => []))
                    (fun _ _ => true) testFiles (newDB [url "slave0"]) 0 start
                    primary [replica0] eq_refl eq_refl eq_refl)).
    intros h d _. left. reflexivity.
  - apply (proj2 (CreateAndMigrate_creates_only_missing (world (fun _ => []) createDenied)
                    (fun _ _ => false) testFiles (newDB [url "slave0"]) 0 start
                    primary [replica0] eq_refl eq_refl eq_refl));
      reflexivity.
Defined.

(** X13.  [Migrate] and [Status] look for the migration files before they
    contact any database: when the migrations directory cannot be read they
    return [ErrMigrationDirNotFound] naming the directory, when it holds no
    migration file they return [ErrNoMigrationFiles], and in both cases the
    directory read is all they have done. *)
Theorem files_are_looked_for_first (env : Env)
    (drvTableExists : list event -> Driver -> bool)
    (rf : list event -> string -> string + error) (db : DB) (fuel : nat)
    (quiet : bool) (st : state) (drv : Driver) (slaves : list Driver) :
  GetDriver env db = inl drv ->
  GetSlaveDrivers env db = inl slaves ->
  let dir := MigrationsDir db in
  let unreadable :=
    osReadDir env (trace st) dir = None in
  let empty :=
    exists entries, osReadDir env (trace st) dir = Some entries /\
      matchingNames migrationFileRegexp entries = [] in
  let stopped (e : error) {A} (r : state * outcome A) :=
    r = (after st [ReadDir dir] [], Fail e) in
  (unreadable ->
     stopped (Wrapped ErrMigrationDirNotFound (" `" +:+ dir +:+ "`"))
       (Migrate env rf db fuel st) /\
     stopped (Wrapped ErrMigrationDirNotFound (" `" +:+ dir +:+ "`"))
       (Status env drvTableExists db quiet st)) /\
  (empty ->
     stopped ErrNoMigrationFiles (Migrate env rf db fuel st) /\
     stopped ErrNoMigrationFiles (Status env drvTableExists db quiet st)).
Proof.
  intros Hdrv Hsl dir unreadable empty stopped. subst unreadable empty stopped.
  cbv beta. unfold Migrate, Status, migrate, CheckMigrationsStatus.
  rewrite Hdrv, Hsl. cbn [lift]. repeat run_step.
  unfold function, findMigrationFiles, bind, history, emit, lift, after.
  cbn [trace deferred]. fold dir. split.
  - intros ->. cbn. by rewrite app_nil_r.
  - intros (entries & -> & Hnone). cbn [findMigrationFilesIn]. rewrite Hnone.
    cbn. by rewrite app_nil_r.
Qed.

(** X13 without a migrations directory, and with a directory that holds
    no migration file. *)
Lemma files_are_looked_for_first_witness :
  let db := newDB [] in
  let dir := MigrationsDir db in
  (Migrate (withDir None) testFiles db 0 start
   = (after start [ReadDir dir] [],
      Fail (Wrapped ErrMigrationDirNotFound (" `" +:+ dir +:+ "`"))) /\
   Status (withDir None) (fun _ _ => true) db false start
   = (after start [ReadDir dir] [],
      Fail (Wrapped ErrMigrationDirNotFound (" `" +:+ dir +:+ "`")))) /\
  (Migrate (withDir (Some [{| Name := "README"; IsDir := false |}])) testFiles db 0 start
   = (after start [ReadDir dir] [], Fail ErrNoMigrationFiles) /\
   Status (withDir (Some [{| Name := "README"; IsDir := false |}])) (fun _ _ => true)
     db false start
   = (after start [ReadDir dir] [], Fail ErrNoMigrationFiles)).
Proof.
  cbn zeta. split.
  - apply (proj1 (files_are_looked_for_first (withDir None) (fun _ _ => true) testFiles
                    (newDB []) 0 false start primary [] eq_refl eq_refl)).
    reflexivity.
  - apply (proj2 (files_are_looked_for_first
                    (withDir (Some [{| Name := "README"; IsDir := false |}]))
                    (fun _ _ => true) testFiles
                    (newDB []) 0 false start primary [] eq_refl eq_refl)).
    exists [{| Name := "README"; IsDir := false |}]. split; reflexivity.
Defined.

(** X14.  [Rollback] on a primary whose calls succeed and whose ledger is empty
    opens the primary, creates the ledger table, selects the most recent
    version, closes the handle and returns [ErrNoRollback]; no replica is
    contacted and no directory read.  Stated for [WaitBefore] off. *)
Theorem Rollback_nothing_applied (env : Env)
    (rf : list event -> string -> string + error) (db : DB) (fuel : nat)
    (st : state) (drv : Driver) (slaves : list Driver) :
  WaitBefore db = false ->
  GetDriver env db = inl drv ->
  GetSlaveDrivers env db = inl slaves ->
  (forall h c, drvError env h drv c = None) ->
  drvMigrations env (trace st ++ [Call drv DrvOpen; Call drv DrvCreateMigrationsTable])
    drv 1 = [] ->
  Rollback env rf db fuel st
  = (after st [Call drv DrvOpen; Call drv DrvCreateMigrationsTable;
               Call drv (DrvSelectMigrations 1); Call drv SqlClose] [],
     Fail ErrNoRollback).
Proof.
  intros Hw Hdrv Hsl Hcalm Hnone.
  assert (Hinv : forall c st0, invoke env drv c st0 = (after st0 [Call drv c] [], Done None)).
  { intros c st0. unfold invoke, bind, history, emit, ret, after. cbn.
    by rewrite Hcalm. }
  unfold Rollback. rewrite Hdrv, Hsl, Hw. cbn [lift].
  rewrite (function_done _ st
             [Call drv DrvOpen; Call drv DrvCreateMigrationsTable;
              Call drv (DrvSelectMigrations 1)] [drv] (Fail ErrNoRollback));
    [reflexivity | | discriminate].
  repeat run_step. unfold openDatabaseForMigration, selectMigrations.
  repeat run_step.
  rewrite (bind_done _ _ _ _ _ (Hinv _ _)). cbn [check]. repeat run_step.
  rewrite (bind_done _ _ _ _ _ (Hinv _ _)). repeat run_step.
  rewrite (bind_done _ _ _ _ _ (Hinv _ _)). cbn [check]. repeat run_step.
  rewrite !after_after. cbn [app trace after]. rewrite Hnone.
  reflexivity.
Qed.

(** X14 on a primary and a replica that have applied nothing. *)
Lemma Rollback_nothing_applied_witness :
  Rollback (calm (fun _ => [])) testFiles (newDB [url "slave0"]) 0 start
  = (after start [Call primary DrvOpen; Call primary DrvCreateMigrationsTable;
                  Call primary (DrvSelectMigrations 1); Call primary SqlClose] [],
     Fail ErrNoRollback).
Proof.
  apply (Rollback_nothing_applied (calm (fun _ => [])) testFiles (newDB [url "slave0"])
           0 start primary [replica0]).
  - reflexivity.
  - reflexivity.
  - reflexivity.
  - intros h c. reflexivity.
  - reflexivity.
Defined.

Lemma slaveDrivers_all env db slaves :
  Forall (fun u => drivers env (Scheme u) = true) slaves ->
  slaveDrivers env db slaves = inl (newDriver db <$> slaves).
Proof.
  induction 1 as [|u l Hu _ IH]; [reflexivity|].
  cbn [slaveDrivers]. rewrite Hu, IH. reflexivity.
Qed.

Lemma slaveDrivers_first env db pre u post :
  Forall (fun u => drivers env (Scheme u) = true) pre ->
  drivers env (Scheme u) = false ->
  slaveDrivers env db (pre ++ u :: post)
  = inr (Wrapped ErrUnsupportedDriver (": " +:+ Scheme u)).
Proof.
  intros Hpre Hu. induction Hpre as [|x l Hx _ IH]; cbn [slaveDrivers app].
  - by rewrite Hu.
  - rewrite Hx, IH. reflexivity.
Qed.

(** X15.  [GetSlaveDrivers] gives a driver for each replica URL, in order, when
    the scheme of each is registered; otherwise it gives no driver at all
    but [ErrUnsupportedDriver] naming the first scheme that is not
    registered.  [GetAllDrivers] then gives the primary's driver followed
    by these, or the same error. *)
Theorem GetSlaveDrivers_all_or_nothing (env : Env) (db : DB) (slaves : list URL) :
  SlaveDatabases db = Some slaves ->
  (Forall (fun u => drivers env (Scheme u) = true) slaves ->
   GetSlaveDrivers env db = inl (newDriver db <$> slaves) /\
   forall drv, GetDriver env db = inl drv ->
     GetAllDrivers env db = inl (drv :: (newDriver db <$> slaves))) /\
  (forall pre u post,
     slaves = pre ++ u :: post ->
     Forall (fun u => drivers env (Scheme u) = true) pre ->
     drivers env (Scheme u) = false ->
     GetSlaveDrivers env db
       = inr (Wrapped ErrUnsupportedDriver (": " +:+ Scheme u)) /\
     forall drv, GetDriver env db = inl drv ->
       GetAllDrivers env db
       = inr (Wrapped ErrUnsupportedDriver (": " +:+ Scheme u))).
Proof.
  intros Hs. unfold GetAllDrivers, GetSlaveDrivers. rewrite Hs. split.
  - intros Hall.
    rewrite (slaveDrivers_all _ _ _ Hall). split; [reflexivity|]. by intros drv ->.
  - intros pre u post -> Hpre Hu.
    rewrite (slaveDrivers_first _ _ _ _ _ Hpre Hu). split; [reflexivity|].
    by intros drv ->.
Qed.

(** X15 with only the [postgres] driver registered. *)
Lemma GetSlaveDrivers_all_or_nothing_witness :
  (GetSlaveDrivers onlyPostgres (newDB [url "slave0"; url "slave1"])
   = inl [replica0; replica1] /\
   GetAllDrivers onlyPostgres (newDB [url "slave0"; url "slave1"])
   = inl [primary; replica0; replica1]) /\
  (GetSlaveDrivers onlyPostgres (newDB [url "slave0"; oracle; url "slave2"])
   = inr (Wrapped ErrUnsupportedDriver ": oracle") /\
   GetAllDrivers onlyPostgres (newDB [url "slave0"; oracle; url "slave2"])
   = inr (Wrapped ErrUnsupportedDriver ": oracle")).
Proof.
  split.
  - destruct (proj1 (GetSlaveDrivers_all_or_nothing onlyPostgres
                       (newDB [url "slave0"; url "slave1"]) _ eq_refl)) as [H1 H2].
    + repeat constructor.
    + split; [exact H1 | exact (H2 primary eq_refl)].
  - destruct (proj2 (GetSlaveDrivers_all_or_nothing onlyPostgres
                       (newDB [url "slave0"; oracle; url "slave2"]) _ eq_refl)
                [url "slave0"] oracle [url "slave2"] eq_refl) as [H1 H2].
    + repeat constructor.
    + reflexivity.
    + split; [exact H1 | exact (H2 primary eq_refl)].
Defined.

(* ===================================================================== *)
(** ** Facts about the files of a version                                *)
(* ===================================================================== *)

Module StoreFacts.
Lemma versionFile_spec (ver name : string) :
  MatchString (versionFileRegexp ver) name = true <->
  exists mid, name = ver +:+ mid +:+ ".sql" /\ allBytes anyButLF mid = true.
Proof.
  unfold versionFileRegexp, Seq. cbn [foldr].
  rewrite MatchString_anchored.
  change (matchAt (Cat (Str ver) (Cat (Star anyButLF)
            (Cat (Str ".sql") (Cat EndText Eps)))) None name 0)
    with (rmatch (Str ver)
            (star anyButLF (rmatch (Str ".sql") (rmatch (Cat EndText Eps) accept)))
            None name 0).
  split.
  - intros [e H]. apply rmatch_Str in H as (rest & -> & H).
    apply star_sound in H as (a & b & -> & Ha & Hk).
    apply rmatch_Str in Hk as (rest & -> & Hk).
    cbn [rmatch] in Hk. destruct rest; [|discriminate].
    exists a. auto.
  - intros (mid & -> & Hmid).
    assert (exists e, star anyButLF
              (rmatch (Str ".sql") (rmatch (Cat EndText Eps) accept))
              (prevAfter None ver) (mid +:+ ".sql") (0 + String.length ver)
            = Some e) as [e He].
    { eapply star_complete; [exact Hmid|].
      apply rmatch_Str. exists "". split; reflexivity. }
    exists e. apply rmatch_Str. eauto.
Qed.

Lemma matchingNames_elem (re : regex) (files : list DirEntry) (n : string) :
  n ∈ matchingNames re files <->
  exists f, f ∈ files /\ Name f = n /\ IsDir f = false /\ MatchString re n = true.
Proof.
  induction files as [|f files IH]; cbn [matchingNames].
  - split; [intros H; by apply elem_of_nil in H|].
    intros (f & H & _). by apply elem_of_nil in H.
  - destruct (IsDir f) eqn:Ed; [|destruct (MatchString re (Name f)) eqn:Em; cbn [negb]].
    + rewrite IH. split; intros (g & Hg & Hn & Hd & Hm).
      * exists g. split; [by right | auto].
      * apply elem_of_cons in Hg as [->|Hg]; [congruence|]. eauto.
    + rewrite elem_of_cons, IH. split.
      * intros [->|(g & Hg & Hn & Hd & Hm)].
        -- exists f. split; [left | auto].
        -- exists g. split; [by right | auto].
      * intros (g & Hg & Hn & Hd & Hm).
        apply elem_of_cons in Hg as [->|Hg]; [by left | right; eauto].
    + rewrite IH. split; intros (g & Hg & Hn & Hd & Hm).
      * exists g. split; [by right | auto].
      * apply elem_of_cons in Hg as [->|Hg]; [congruence|]. eauto.
Qed.

(** The first name of a sorted list is the least. *)
Lemma sortStrings_head (l : list string) (x : string) (rest : list string) :
  sortStrings l = x :: rest ->
  x ∈ l /\ forall y, y ∈ l -> String.le x y.
Proof.
  intros H. unfold sortStrings in H.
  pose proof (StronglySorted_merge_sort String.le l) as Hs.
  pose proof (merge_sort_Permutation String.le l) as Hp.
  rewrite H in Hs, Hp. split.
  - rewrite <- Hp. left.
  - intros y Hy. rewrite <- Hp in Hy.
    apply elem_of_cons in Hy as [->|Hy]; [reflexivity|].
    apply StronglySorted_inv in Hs as [_ Hall].
    by apply (proj1 (Forall_forall _ _) Hall).
Qed.

Lemma sortStrings_nil (l : list string) : sortStrings l = [] -> l = [].
Proof.
  intros H. apply Permutation_nil_r. rewrite <- H. unfold sortStrings.
  by rewrite merge_sort_Permutation.
Qed.

Lemma leadingRun_app (p : ascii -> bool) (a b : string) :
  allBytes p a = true -> leadingRun p (a +:+ b) = a +:+ leadingRun p b.
Proof.
  induction a as [|c a IH]; intros Ha; [reflexivity|].
  cbn [allBytes] in Ha. apply andb_true_iff in Ha as [Hc Ha].
  rewrite !str_app_cons. cbn [leadingRun]. by rewrite Hc, IH.
Qed.

Lemma allBytes_app (p : ascii -> bool) (a b : string) :
  allBytes p (a +:+ b) = (allBytes p a && allBytes p b)%bool.
Proof.
  induction a as [|c a IH]; [reflexivity|].
  rewrite str_app_cons. cbn [allBytes]. by rewrite IH, andb_assoc.
Qed.

End StoreFacts.

Import StoreFacts.

(** X16.  [findMigrationFile] reads the directory once.  It fails with
    [ErrMigrationDirNotFound] when the directory cannot be read and with
    [ErrMigrationNotFound] when no file is named [ver], any bytes but line
    feeds, [.sql]; otherwise it returns the least such name in byte order.
    The version of the file returned begins with [ver] but may have more
    digits: the name is not required to continue with a byte that is no
    digit. *)
Theorem findMigrationFile_takes_the_least (env : Env) (dir ver : string)
    (st : state) :
  ver <> "" ->
  let r := findMigrationFile env dir ver st in
  r.1 = after st [ReadDir dir] [] /\
  match osReadDir env (trace st) dir with
  | None => r.2 = Fail (Wrapped ErrMigrationDirNotFound (" `" +:+ dir +:+ "`"))
  | Some files =>
      (forall name, ~ candidate files ver name) /\
      r.2 = Fail (Wrapped ErrMigrationNotFound (": " +:+ QuoteMeta ver +:+ "*.sql"))
      \/
      exists name,
        r.2 = Done name /\ candidate files ver name /\
        (forall other, candidate files ver other -> String.le name other) /\
        (allBytes digit ver = true ->
         exists more, migrationVersion name = ver +:+ more /\
                      allBytes digit more = true)
  end.
Proof.
  intros _. cbn zeta. unfold findMigrationFile, bind, history, emit, lift.
  cbn [trace deferred fst snd]. split.
  { destruct (findMigrationFileIn _ _ _); reflexivity. }
  destruct (osReadDir env (trace st) dir) as [files|]; [|reflexivity].
  unfold findMigrationFileIn, findMigrationFilesIn.
  assert (Hcand : forall name, name ∈ matchingNames (versionFileRegexp ver) files
                               <-> candidate files ver name).
  { intros name. rewrite matchingNames_elem. unfold candidate.
    split; intros (f & Hf & Hn & Hd & Hm); exists f; repeat split; auto;
      by apply versionFile_spec. }
  destruct (sortStrings (matchingNames (versionFileRegexp ver) files))
    as [|name rest] eqn:Hsort.
  - left. split; [|reflexivity]. intros name Hn. apply Hcand in Hn.
    apply sortStrings_nil in Hsort. rewrite Hsort in Hn. by apply elem_of_nil in Hn.
  - right. exists name. apply sortStrings_head in Hsort as [Hin Hleast].
    split; [reflexivity|]. split; [by apply Hcand|].
    split; [intros other Ho; by apply Hleast, Hcand|].
    intros Hdigits. apply Hcand in Hin as (_ & _ & _ & _ & mid & -> & _).
    rewrite migrationVersion_spec, leadingRun_app by done.
    eexists. split; [reflexivity|].
    destruct (leadingRun_split digit (mid +:+ ".sql")) as (? & _ & H & _).
    exact H.
Qed.

(** X16 for the version [2015] in a directory that holds [2015_a.sql] and
    [20151_b.sql]: the file of version [20151] is returned. *)
Lemma findMigrationFile_takes_the_least_witness :
  let r := findMigrationFile (withDir (Some twoFiles)) "db" "2015" start in
  r.2 = Done "20151_b.sql" /\
  r.1 = after start [ReadDir "db"] [] /\
  ((forall name, ~ candidate twoFiles "2015" name) /\
   r.2 = Fail (Wrapped ErrMigrationNotFound (": " +:+ QuoteMeta "2015" +:+ "*.sql"))
   \/
   exists name,
     r.2 = Done name /\ candidate twoFiles "2015" name /\
     (forall other, candidate twoFiles "2015" other -> String.le name other) /\
     (allBytes digit "2015" = true ->
      exists more, migrationVersion name = "2015" +:+ more /\
                   allBytes digit more = true)).
Proof.
  cbn zeta. split; [reflexivity|].
  apply (findMigrationFile_takes_the_least (withDir (Some twoFiles)) "db" "2015" start).
  discriminate.
Defined.

Lemma digits_have_no_LF (s : string) :
  allBytes digit s = true -> allBytes anyButLF s = true.
Proof.
  induction s as [|c s IH]; [reflexivity|]. cbn [allBytes].
  intros H. apply andb_true_iff in H as [Hc Hs]. rewrite IH by done.
  rewrite andb_true_r. unfold anyButLF.
  destruct (Ascii.eqb_spec c LF) as [->|]; [discriminate | reflexivity].
Qed.

(** X17.  When [NewMigration] returns no error, the name was not empty, no file
    was at the path, and it has made the directory, logged the path, looked
    for the file, created it, written the template and closed it, in this
    order.  When the time stamp is made of digits and the name holds no
    line feed, the file name is one [findMigrationFiles] accepts and its
    version is the time stamp; the template parses without error into an
    [up] and a [down] block. *)
Theorem NewMigration_makes_a_migration_file (fs : Files) (db : DB)
    (name : string) (done : list fileEvent) :
  Commands.NewMigration fs db name = (done, None) ->
  let filename := clock fs +:+ "_" +:+ name +:+ ".sql" in
  let path := fsJoin fs (MigrationsDir db) filename in
  name <> "" /\
  fsStat fs path = StatNotExist /\
  done = [FMkdirAll (MigrationsDir db);
          FLog ("Creating migration: " +:+ path +:+ NL);
          FStat path; FCreate path;
          FWriteString path migrationTemplate; FClose path] /\
  (clock fs <> "" -> allBytes digit (clock fs) = true ->
   allBytes anyButLF name = true ->
   MatchString migrationFileRegexp filename = true /\
   migrationVersion filename = clock fs) /\
  parseMigrationContents migrationTemplate
  = ({| up := {| Contents := "-- migrate:up

"; Options := ∅ |};
        down := {| Contents := "-- migrate:down

"; Options := ∅ |};
        upSlave := Parser.NewMigration;
        downSlave := Parser.NewMigration |}, None).
Proof.
  intros H. cbn zeta. unfold Commands.NewMigration in H.
  destruct (String.eqb_spec name "") as [->|Hname]; [discriminate|].
  destruct (fsMkdirAll fs (MigrationsDir db)); [discriminate|].
  destruct (fsStat fs _) eqn:Hstat; try discriminate.
  destruct (fsCreate fs _); [discriminate|].
  injection H as <- _.
  split; [exact Hname|]. split; [reflexivity|]. split; [reflexivity|].
  split; [|vm_compute; reflexivity].
  intros Hclock Hdigits Hlf. split.
  - apply migrationFile_spec.
    destruct (clock fs) as [|d more] eqn:Hc; [done|].
    cbn [allBytes] in Hdigits. apply andb_true_iff in Hdigits as [Hd Hmore].
    exists d, (more +:+ "_" +:+ name).
    split; [by rewrite !str_app_cons, !str_app_assoc|]. split; [exact Hd|].
    rewrite !allBytes_app, Hlf, (digits_have_no_LF _ Hmore). reflexivity.
  - rewrite migrationVersion_spec, leadingRun_app by done.
    by rewrite str_app_nil_r.
Qed.

(** X17 on a file system on which every operation succeeds. *)
Lemma NewMigration_makes_a_migration_file_witness :
  let filename := "20151129054053_create_users.sql" in
  let path := "./db/migrations/20151129054053_create_users.sql" in
  Commands.NewMigration freshFiles (newDB []) "create_users"
  = ([FMkdirAll "./db/migrations"; FLog ("Creating migration: " +:+ path +:+ NL);
      FStat path; FCreate path; FWriteString path migrationTemplate; FClose path],
     None) /\
  MatchString migrationFileRegexp filename = true /\
  migrationVersion filename = "20151129054053".
Proof.
  cbn zeta. split; [reflexivity|].
  destruct (NewMigration_makes_a_migration_file freshFiles (newDB []) "create_users"
              _ eq_refl) as (_ & _ & _ & H & _).
  apply H; [discriminate | reflexivity | reflexivity].
Defined.

(* ===================================================================== *)
(** ** Facts about running one block                                     *)
(* ===================================================================== *)

Module BlockRunFacts.
Section Block.
Context (env : Env) (db : DB).

Lemma invoke_run d c st :
  invoke env d c st = (after st [Call d c] [], Done (drvError env (trace st) d c)).
Proof. reflexivity. Qed.

Lemma answered_app h evs1 evs2 d :
  answered env h (evs1 ++ evs2) d
  = answered env h evs1 d ++ answered env (h ++ evs1) evs2 d.
Proof.
  revert h. induction evs1 as [|e evs1 IH]; intros h; cbn [answered app].
  - by rewrite app_nil_r.
  - rewrite IH, <- !(assoc_L (++)). reflexivity.
Qed.

Lemma answered_call h d c :
  answered env h [Call d c] d = [(c, drvError env h d c)].
Proof. cbn. by rewrite bool_decide_true. Qed.

Lemma printVerbose_logs (r : sqlResult) (d : Driver) st :
  exists logs, printVerbose r st = (after st logs [], Done tt) /\
    Forall (callOrLog d) logs /\ forall h, answered env h logs d = [].
Proof.
  unfold printVerbose, logf, bind, emit, ret.
  destruct (LastInsertId r), (RowsAffected r); cbn.
  - eexists [_; _]. unfold after. cbn. rewrite <- (assoc_L (++)).
    split; [reflexivity|]. split; [by repeat constructor | reflexivity].
  - eexists [_]. split; [reflexivity|]. split; [by repeat constructor | reflexivity].
  - eexists [_]. split; [reflexivity|]. split; [by repeat constructor | reflexivity].
  - exists []. rewrite after_nil. split; [by destruct st|]. split; [constructor | reflexivity].
Qed.

(** The closure of [getExecMigration]: the statement, then the record. *)
Lemma exec_run (record : call) (d : Driver) (m : Migration) st :
  exists evs err,
    (h <- history ;;
     err <- invoke env d (SqlExec (Contents m)) ;;
     match err with
     | Some _ => ret err
     | None =>
         (if Verbose db
          then printVerbose (drvResult env h d (Contents m)) else ret tt) ;;
         invoke env d record
     end) st = (after st evs [], Done err) /\
    Forall (callOrLog d) evs /\
    ((exists e, answered env (trace st) evs d = [(SqlExec (Contents m), Some e)] /\
                err = Some e) \/
     answered env (trace st) evs d = [(SqlExec (Contents m), None); (record, err)]).
Proof.
  run_step. rewrite (bind_done _ _ _ _ _ (invoke_run _ _ _)).
  destruct (drvError env (trace st) d (SqlExec (Contents m))) as [e|] eqn:E.
  - exists [Call d (SqlExec (Contents m))], (Some e).
    split; [reflexivity|]. split; [by repeat constructor|].
    left. exists e. by rewrite answered_call, E.
  - assert (Hv : exists logs,
      (if Verbose db then printVerbose (drvResult env (trace st) d (Contents m))
       else ret tt) (after st [Call d (SqlExec (Contents m))] [])
      = (after (after st [Call d (SqlExec (Contents m))] []) logs [], Done tt) /\
      Forall (callOrLog d) logs /\ forall h, answered env h logs d = []).
    { destruct (Verbose db); [apply printVerbose_logs|].
      exists []. rewrite after_nil. split; [by destruct st|]. split; [constructor | reflexivity]. }
    destruct Hv as (logs & Hl & Hq & Hc).
    rewrite (bind_done _ _ _ _ _ Hl), invoke_run, !after_after.
    eexists _, _. split; [reflexivity|].
    split.
    + apply Forall_app. split; [by repeat constructor|].
      apply Forall_app. split; [exact Hq | by repeat constructor].
    + right. rewrite !answered_app, Hc, !answered_call, E. cbn [app after trace].
      by rewrite <- !(assoc_L (++)).
Qed.

Lemma runBlock_run (record : call) (d : Driver) (m : Migration) st :
  exists evs err,
    runBlock env d m
      (h <- history ;;
       err <- invoke env d (SqlExec (Contents m)) ;;
       match err with
       | Some _ => ret err
       | None =>
           (if Verbose db
            then printVerbose (drvResult env h d (Contents m)) else ret tt) ;;
           invoke env d record
       end) st = (after st evs [], Done err) /\
    Forall (callOrLog d) evs /\
    blockRun m record (answered env (trace st) evs d) err.
Proof.
  unfold runBlock, blockRun. destruct (Transaction (Options m)); [|apply exec_run].
  unfold doTransaction.
  rewrite (bind_done _ _ _ _ _ (invoke_run _ _ _)).
  destruct (drvError env (trace st) d SqlBegin) as [e|] eqn:Eb.
  { exists [Call d SqlBegin], (Some e). split; [reflexivity|].
    split; [by repeat constructor|]. left. exists e. by rewrite answered_call, Eb. }
  destruct (exec_run record d m (after st [Call d SqlBegin] []))
    as (evs & err & Hrun & Hq & Hc).
  rewrite (bind_done _ _ _ _ _ Hrun). cbn [after trace] in Hc.
  assert (Hall : forall c, Forall (callOrLog d) (([Call d SqlBegin] ++ evs) ++ [Call d c])).
  { intros c. apply Forall_app. split; [|by repeat constructor].
    apply Forall_app. split; [by repeat constructor | exact Hq]. }
  assert (Hans : forall c,
    answered env (trace st) (([Call d SqlBegin] ++ evs) ++ [Call d c]) d
    = [(SqlBegin, None)] ++ answered env (trace st ++ [Call d SqlBegin]) evs d
      ++ [(c, drvError env (trace st ++ [Call d SqlBegin] ++ evs) d c)]).
  { intros c. rewrite !answered_app, !answered_call, Eb.
    by rewrite <- !(assoc_L (++)). }
  destruct err as [e|].
  - rewrite (bind_done _ _ _ _ _ (invoke_run _ _ _)), !after_after.
    cbn [after trace].
    destruct Hc as [(e' & Hc & [= <-])|Hc].
    + exists (([Call d SqlBegin] ++ evs) ++ [Call d SqlRollback]),
        (afterRollback e (drvError env (trace st ++ [Call d SqlBegin] ++ evs) d SqlRollback)).
      split; [by destruct (drvError env _ d SqlRollback)|].
      split; [apply Hall|]. right; left. eexists e, _. rewrite Hans, Hc. done.
    + exists (([Call d SqlBegin] ++ evs) ++ [Call d SqlRollback]),
        (afterRollback e (drvError env (trace st ++ [Call d SqlBegin] ++ evs) d SqlRollback)).
      split; [by destruct (drvError env _ d SqlRollback)|].
      split; [apply Hall|]. right; right; left. eexists e, _. rewrite Hans, Hc. done.
  - rewrite invoke_run, !after_after. cbn [after trace].
    destruct Hc as [(e' & _ & [=])|Hc].
    eexists _, _. split; [reflexivity|]. rewrite (assoc_L (++)).
    split; [apply Hall|].
    right; right; right. rewrite Hans, Hc. done.
Qed.

End Block.
End BlockRunFacts.

Import BlockRunFacts.

(** X18.  Running a block of [migrate] or [Rollback] on a database makes calls on
    that database only (and log lines) and always comes back with an error
    or none.  What it does is decided by the answers of its calls.  With
    transactions on: when [Begin] fails its error is returned; when the
    statement fails, or the statement succeeds and the ledger change
    fails, the transaction is rolled back and never committed, and the
    error is returned (that of the [Rollback] if it fails too); only when
    both succeed is the transaction committed, and what [Commit] answers is
    returned.  With transaction:false the statement's error is returned
    and no ledger change made, or the statement succeeds and what the
    ledger change answers is returned. *)
Theorem blocks_commit_or_roll_back (env : Env) (db : DB) (ver : string)
    (d : Driver) (m : Migration) (st : state) :
  (exists evs err,
     runBlock env d m (execUp env db ver d m) st = (after st evs [], Done err) /\
     Forall (callOrLog d) evs /\
     blockRun m (DrvInsertMigration ver) (answered env (trace st) evs d) err) /\
  (exists evs err,
     runBlock env d m (execDown env db ver d m) st = (after st evs [], Done err) /\
     Forall (callOrLog d) evs /\
     blockRun m (DrvDeleteMigration ver) (answered env (trace st) evs d) err).
Proof. split; apply runBlock_run. Qed.

(** X18 on a database on which the statement fails: the transaction is
    rolled back and the error returned. *)
Lemma blocks_commit_or_roll_back_witness :
  let env := world (fun _ => []) execDenied in
  let block := up testParsed in
  exists evs err,
    runBlock env primary block (execUp env (newDB []) testVersion primary block) start
      = (after start evs [], Done err) /\
    blockRun block (DrvInsertMigration testVersion) (answered env [] evs primary) err /\
    answered env [] evs primary
      = [(SqlBegin, None); (SqlExec (Contents block), Some (External "syntax error"));
         (SqlRollback, None)] /\
    err = Some (External "syntax error").
Proof.
  cbn zeta.
  destruct (proj1 (blocks_commit_or_roll_back (world (fun _ => []) execDenied)
                     (newDB []) testVersion primary (up testParsed) start))
    as (evs & err & Hrun & _ & Hblock).
  exists evs, err. split; [exact Hrun|]. split; [exact Hblock|].
  vm_compute in Hrun. injection Hrun as <- <-. split; reflexivity.
Defined.

(* ===================================================================== *)
(** ** Facts about one call on each database                             *)
(* ===================================================================== *)

Module EachFacts.

End EachFacts.

Import EachFacts.



(* ===================================================================== *)
(** ** Facts about the handles a run opens and closes                    *)
(* ===================================================================== *)

Module HandleFacts.
Section Handles.
Context (env : Env).

Lemma opened_app h evs1 evs2 d :
  opened env h (evs1 ++ evs2) d
  = (opened env h evs1 d + opened env (h ++ evs1) evs2 d)%nat.
Proof.
  revert h. induction evs1 as [|e evs1 IH]; intros h; cbn [opened app].
  - by rewrite app_nil_r.
  - rewrite IH, <- (assoc_L (++)). cbn [app]. lia.
Qed.

Lemma closed_app evs1 evs2 d :
  closed (evs1 ++ evs2) d = (closed evs1 d + closed evs2 d)%nat.
Proof. unfold closed. by rewrite List.filter_app, length_app. Qed.

Lemma held_app ds1 ds2 d : held (ds1 ++ ds2) d = (held ds1 d + held ds2 d)%nat.
Proof. unfold held. by rewrite List.filter_app, length_app. Qed.

Lemma quiet_opened h evs d : Forall quiet evs -> opened env h evs d = 0%nat.
Proof.
  intros H. revert h. induction H as [|e evs He _ IH]; intros h; [reflexivity|].
  cbn [opened]. rewrite IH.
  destruct (bool_decide_reflect (e = Call d DrvOpen)) as [->|]; [destruct He | reflexivity].
Qed.

Lemma quiet_closed evs d : Forall quiet evs -> closed evs d = 0%nat.
Proof.
  unfold closed. induction 1 as [|e evs He _ IH]; [reflexivity|]. cbn [List.filter].
  destruct (bool_decide_reflect (e = Call d SqlClose)) as [->|]; [destruct He | exact IH].
Qed.

(** Closing the deferred handles closes each as often as it is held. *)
Lemma closes_closed ds d :
  closed ((fun x => Call x SqlClose) <$> ds) d = held ds d /\
  forall h, opened env h ((fun x => Call x SqlClose) <$> ds) d = 0%nat.
Proof.
  induction ds as [|x ds [IH1 IH2]]; [by split|]. rewrite fmap_cons. split.
  - unfold closed, held in *. cbn [List.filter].
    destruct (decide (x = d)) as [->|Hne].
    + rewrite !bool_decide_true by done. cbn [length]. by rewrite IH1.
    + rewrite !bool_decide_false by congruence. exact IH1.
  - intros h. cbn [opened]. rewrite IH2. by rewrite bool_decide_false.
Qed.

Lemma balanced_does {A} (c : M A) :
  does quiet (fun _ => False) any c -> balanced env c.
Proof.
  intros H st. destruct (H st) as (evs & ds & Hst & Hevs & Hds & _).
  destruct ds as [|x ds]; [|by inversion Hds].
  exists evs, []. split; [exact Hst|]. intros _ d.
  by rewrite quiet_opened, quiet_closed.
Qed.

Lemma balanced_bind {A B} (c : M A) (k : A -> M B) :
  balanced env c -> (forall a, balanced env (k a)) -> balanced env (bind c k).
Proof.
  intros Hc Hk st. destruct (Hc st) as (evs & ds & Hst & Hb).
  unfold bind. destruct (c st) as [st' [a|e|]]; cbn in Hst, Hb; subst st'.
  - destruct (Hk a (after st evs ds)) as (evs' & ds' & Hst' & Hb').
    exists (evs ++ evs'), (ds' ++ ds). rewrite Hst', after_after.
    split; [reflexivity|]. intros Hnd d.
    rewrite opened_app, closed_app, held_app, Hb by discriminate.
    cbn [after trace] in Hb'. rewrite Hb' by done. lia.
  - exists evs, ds. cbn. auto.
  - exists evs, ds. cbn. split; [reflexivity | done].
Qed.

Lemma settled_balanced {A} (c : M A) : settled env c -> balanced env c.
Proof.
  intros H st. destruct (H st) as (evs & Hst & Hb).
  exists evs, []. split; [exact Hst|]. intros Hnd d. rewrite Hb by done.
  unfold held. cbn. lia.
Qed.

Lemma settled_function {A} (body : M A) :
  balanced env body -> settled env (function body).
Proof.
  intros Hb st.
  destruct (Hb {| trace := trace st; deferred := [] |}) as (evs & ds & Hst & Hbal).
  unfold function.
  destruct (body {| trace := trace st; deferred := [] |}) as [st' o].
  cbn in Hst, Hbal. subst st'. cbn [after trace deferred]. rewrite app_nil_r.
  assert (Hdone : o <> Diverged -> forall d,
    opened env (trace st) (evs ++ ((fun x => Call x SqlClose) <$> ds)) d
    = closed (evs ++ ((fun x => Call x SqlClose) <$> ds)) d).
  { intros Hnd d. destruct (closes_closed ds d) as [Hc Ho].
    rewrite opened_app, closed_app, Hc, Ho, Hbal by done. lia. }
  destruct o as [a|e|].
  - exists (evs ++ ((fun x => Call x SqlClose) <$> ds)). unfold after. cbn.
    rewrite (assoc_L (++)). split; [reflexivity | exact Hdone].
  - exists (evs ++ ((fun x => Call x SqlClose) <$> ds)). unfold after. cbn.
    rewrite (assoc_L (++)). split; [reflexivity | exact Hdone].
  - exists evs. unfold after. cbn. split; [reflexivity | done].
Qed.

Lemma balanced_errorOf (c : M unit) : balanced env c -> balanced env (errorOf c).
Proof.
  intros H st. destruct (H st) as (evs & ds & Hst & Hb).
  exists evs, ds. unfold errorOf. destruct (c st) as [st' [a|e|]]; cbn in *.
  - split; [exact Hst|]. intros _. apply Hb. discriminate.
  - split; [exact Hst|]. intros _. apply Hb. discriminate.
  - split; [exact Hst | done].
Qed.

(** Counting on concrete events, once it is known whether the databases
    are the same. *)
Ltac count_handles :=
  cbn [opened closed held List.filter length app];
  repeat match goal with
  | |- context [bool_decide (?a = ?b)] =>
      first [ rewrite (bool_decide_true (a = b)) by congruence
            | rewrite (bool_decide_false (a = b)) by congruence ]
  end;
  cbn [opened closed held List.filter length app].

(** A handle opened by [Open] and at once deferred. *)
Lemma balanced_invoke_open {A} (d : Driver) (k : M A) :
  balanced env k ->
  balanced env (err <- invoke env d DrvOpen ;; check err ;; deferClose d ;; k).
Proof.
  intros Hk st. rewrite (bind_done _ _ _ _ _ (invoke_run env d DrvOpen st)).
  destruct (drvError env (trace st) d DrvOpen) as [e|] eqn:E; cbn [check].
  - exists [Call d DrvOpen], []. split; [reflexivity|]. intros _ d'.
    destruct (decide (d = d')) as [<-|Hne]; count_handles; [by rewrite E | reflexivity].
  - repeat run_step.
    match goal with |- context [k ?s] => destruct (Hk s) as (evs & ds & Hst & Hb) end.
    exists ([Call d DrvOpen] ++ evs), (ds ++ [d]).
    split; [rewrite Hst; unfold after; cbn; by rewrite <- !(assoc_L (++))|].
    intros Hnd d'. cbn [after trace] in Hb. rewrite app_nil_r in Hb.
    rewrite opened_app, closed_app, held_app, Hb by done.
    destruct (decide (d = d')) as [<-|Hne]; count_handles; [rewrite E|]; lia.
Qed.

(** A handle opened by [openDatabaseForMigration] and at once deferred. *)
Lemma balanced_open_defer {A} (d : Driver) (k : M A) :
  balanced env k ->
  balanced env (openDatabaseForMigration env d ;; deferClose d ;; k).
Proof.
  intros Hk st. unfold openDatabaseForMigration. repeat run_step.
  rewrite (bind_done _ _ _ _ _ (invoke_run env d DrvOpen st)).
  destruct (drvError env (trace st) d DrvOpen) as [e|] eqn:E; cbn [check].
  - exists [Call d DrvOpen], []. split; [reflexivity|]. intros _ d'.
    destruct (decide (d = d')) as [<-|Hne]; count_handles; [by rewrite E | reflexivity].
  - repeat run_step.
    rewrite (bind_done _ _ _ _ _ (invoke_run env d DrvCreateMigrationsTable _)).
    cbn [after trace].
    destruct (drvError env (trace st ++ [Call d DrvOpen]) d DrvCreateMigrationsTable)
      as [e|] eqn:E2.
    + repeat run_step.
      exists [Call d DrvOpen; Call d DrvCreateMigrationsTable; Call d SqlClose], [].
      split; [unfold after, fail; cbn; by rewrite <- !(assoc_L (++))|].
      intros _ d'.
      destruct (decide (d = d')) as [<-|Hne]; count_handles; [by rewrite E | reflexivity].
    + repeat run_step.
      match goal with |- context [k ?s] => destruct (Hk s) as (evs & ds & Hst & Hb) end.
      exists ([Call d DrvOpen; Call d DrvCreateMigrationsTable] ++ evs), (ds ++ [d]).
      split; [rewrite Hst; unfold after; cbn; by rewrite <- !(assoc_L (++))|].
      intros Hnd d'. cbn [after trace] in Hb. rewrite app_nil_r in Hb.
      rewrite <- (assoc_L (++)) in Hb. cbn [app] in Hb.
      rewrite opened_app, closed_app, held_app, Hb by done.
      destruct (decide (d = d')) as [<-|Hne]; count_handles; [rewrite E|]; lia.
Qed.

Lemma settled_does {A} (c : M A) :
  does quiet (fun _ => False) any c -> settled env c.
Proof.
  intros H st. destruct (H st) as (evs & ds & Hst & Hevs & Hds & _).
  destruct ds as [|x ds]; [|by inversion Hds].
  exists evs. split; [exact Hst|]. intros _ d.
  by rewrite quiet_opened, quiet_closed.
Qed.

Lemma settled_bind {A B} (c : M A) (k : A -> M B) :
  settled env c -> (forall a, settled env (k a)) -> settled env (bind c k).
Proof.
  intros Hc Hk st. destruct (Hc st) as (evs & Hst & Hb).
  unfold bind. destruct (c st) as [st' [a|e|]]; cbn in Hst, Hb; subst st'.
  - destruct (Hk a (after st evs [])) as (evs' & Hst' & Hb').
    exists (evs ++ evs'). rewrite Hst', after_after.
    split; [reflexivity|]. intros Hnd d.
    rewrite opened_app, closed_app, Hb by discriminate.
    cbn [after trace] in Hb'. by rewrite Hb'.
  - exists evs. cbn. auto.
  - exists evs. cbn. split; [reflexivity | done].
Qed.

End Handles.

#[export] Hint Extern 1 (quiet _) => exact I : core.

(** One step of a proof that a computation is balanced. *)
Ltac bal_step :=
  lazymatch goal with
  | |- balanced _ (bind (openDatabaseForMigration _ _) _) => apply balanced_open_defer
  | |- balanced _ (bind (invoke _ _ DrvOpen) _) => apply balanced_invoke_open
  | |- balanced _ (bind _ _) => apply balanced_bind; [|intros ?]
  | |- balanced _ (match ?x with _ => _ end) => destruct x
  end.

Ltac quiet_steps :=
  does_steps; auto using does_logf, does_printf, does_select, does_findMigrationFiles,
    does_findMigrationFile, does_parseMigration, does_ensureDir, does_sameLatest.

Section Commands.
Context (env : Env) (db : DB).

Lemma quiet_wait fuel ds : does quiet (fun _ => False) any (wait env db fuel ds).
Proof. apply does_wait; intros; exact I. Qed.

Lemma balanced_openSlaves slaves limit (onEach : list (string * bool) -> M unit) :
  (forall m, does quiet (fun _ => False) any (onEach m)) ->
  balanced env (openSlaves env slaves limit onEach).
Proof.
  intros Hon. induction slaves as [|d slaves IH]; cbn [openSlaves].
  - apply balanced_does. quiet_steps.
  - repeat bal_step.
    + apply balanced_does. quiet_steps.
    + apply balanced_does. apply Hon.
    + exact IH.
    + apply balanced_does. quiet_steps.
Qed.

Lemma settled_dumpSchema fuel drv : settled env (dumpSchema env db fuel drv).
Proof.
  unfold dumpSchema. apply settled_function. repeat bal_step;
    try (apply balanced_does; quiet_steps; fail).
  apply balanced_does, quiet_wait.
Qed.

Lemma quiet_migrateFiles rf drv slaves applied appliedSlaves files :
  does quiet (fun _ => False) any
    (migrateFiles env rf db drv slaves applied appliedSlaves files).
Proof.
  apply (does_migrateFiles env db quiet (fun _ => I) (fun _ => I) (fun _ => True)
           (fun c => match c with DrvOpen | SqlClose => false | _ => true end));
    try done.
  intros d c _ Hc. by destruct c.
Qed.

Lemma quiet_rollbackSlaves ver m idx slaves :
  does quiet (fun _ => False) any (rollbackSlaves env db ver m idx slaves).
Proof.
  apply (does_rollbackSlaves env db quiet (fun _ => I) (fun _ => I) (fun _ => True)
           (fun c => match c with DrvOpen | SqlClose => false | _ => true end));
    try done.
  intros d c _ Hc. by destruct c.
Qed.

Lemma quiet_down ver d m :
  does quiet (fun _ => False) any (runBlock env d m (execDown env db ver d m)).
Proof. apply does_runBlock; try exact I. apply does_execDown; intros; exact I. Qed.

End Commands.

(** The leaves of such a proof. *)
Ltac bal_leaf :=
  first [ apply balanced_does, quiet_wait
        | apply balanced_does, quiet_migrateFiles
        | apply balanced_does, quiet_rollbackSlaves
        | apply balanced_does, quiet_down
        | apply balanced_errorOf, settled_balanced, settled_dumpSchema
        | apply balanced_openSlaves; intros; quiet_steps; fail
        | apply balanced_does; quiet_steps; fail ].

Ltac set_step :=
  lazymatch goal with
  | |- settled _ (bind _ _) => apply settled_bind; [|intros ?]
  | |- settled _ (match ?x with _ => _ end) => destruct x
  end.

Ltac set_leaf :=
  first [ apply settled_does, quiet_wait
        | apply settled_does; quiet_steps; fail ].

Lemma settled_migrate env rf db fuel drv slaves :
  settled env (migrate env rf db fuel drv slaves).
Proof. unfold migrate. apply settled_function. repeat bal_step; bal_leaf. Qed.

Lemma settled_CheckMigrationsStatus env drvTableExists db drv :
  settled env (CheckMigrationsStatus env drvTableExists db drv).
Proof.
  unfold CheckMigrationsStatus. apply settled_function. repeat bal_step; bal_leaf.
Qed.

Lemma quiet_statusLoop quiet_ results total :
  does quiet (fun _ => False) any (statusLoop quiet_ results total).
Proof. apply does_statusLoop. intros; exact I. Qed.

Lemma quiet_createMissing env drvExists slaves :
  does quiet (fun _ => False) any (createMissing env drvExists slaves).
Proof.
  induction slaves as [|d slaves IH]; cbn [createMissing]; [quiet_steps|].
  apply does_bind_any; [|intros; exact IH].
  unfold createIfMissing. quiet_steps.
Qed.

End HandleFacts.

Import HandleFacts.

(** X20.  Whatever the databases and the file system answer, [Migrate],
    [Rollback], [DumpSchema], [CreateAndMigrate] and [Status] close every
    handle they open: unless the command goes on for ever in [wait], when
    it returns, with or without error, each database has been closed as
    many times as an [Open] on it has succeeded, and the handles deferred
    by the caller are as they were. *)
Theorem every_handle_is_closed (env : Env)
    (drvExists drvTableExists : list event -> Driver -> bool)
    (rf : list event -> string -> string + error) (db : DB) (fuel : nat)
    (quiet_ : bool) :
  settled env (Migrate env rf db fuel) /\
  settled env (Rollback env rf db fuel) /\
  settled env (DumpSchema env db fuel) /\
  settled env (CreateAndMigrate env drvExists rf db fuel) /\
  settled env (Status env drvTableExists db quiet_).
Proof.
  split; [|split; [|split; [|split]]].
  - unfold Migrate. repeat set_step; try set_leaf. apply settled_migrate.
  - unfold Rollback. apply settled_function. repeat bal_step; bal_leaf.
  - unfold DumpSchema. repeat set_step; try set_leaf. apply settled_dumpSchema.
  - unfold CreateAndMigrate. repeat set_step; try set_leaf.
    + unfold createIfMissing. apply settled_does. quiet_steps.
    + apply settled_does, quiet_createMissing.
    + apply settled_migrate.
  - unfold Status. repeat set_step; try set_leaf.
    + apply settled_CheckMigrationsStatus.
    + apply settled_does, quiet_statusLoop.
Qed.

(** X21.  Every command looks for the drivers before it does anything: without a
    database URL, or with one whose scheme is empty, each of [Wait],
    [DumpSchema], [Status], [Create], [Drop], [Migrate], [Rollback] and
    [CreateAndMigrate] returns [ErrInvalidURL] and has done nothing; with a
    scheme that is not registered each returns [ErrUnsupportedDriver] naming
    the scheme; and when the replicas' drivers cannot be made, the commands
    that use replicas return that error and have done nothing. *)
Theorem commands_check_the_drivers_first (env : Env)
    (drvExists drvTableExists : list event -> Driver -> bool)
    (rf : list event -> string -> string + error) (db : DB) (fuel : nat)
    (quiet : bool) (st : state) :
  let all := commands env drvExists drvTableExists rf db fuel quiet in
  (DatabaseURL db = None \/ (exists u, DatabaseURL db = Some u /\ Scheme u = "") ->
   Forall (fun c => c st = (st, Fail ErrInvalidURL)) all) /\
  (forall u, DatabaseURL db = Some u -> Scheme u <> "" ->
     drivers env (Scheme u) = false ->
     Forall (fun c => c st
                      = (st, Fail (Wrapped ErrUnsupportedDriver (": " +:+ Scheme u))))
       all) /\
  (forall drv e, GetDriver env db = inl drv -> GetSlaveDrivers env db = inr e ->
     Forall (fun c => c st = (st, Fail e)) (replicaCommands env drvExists rf db fuel)).
Proof.
  assert (Hfun : forall (body : M unit) e,
            body {| trace := trace st; deferred := [] |}
            = ({| trace := trace st; deferred := [] |}, Fail e) ->
            function body st = (st, Fail e)).
  { intros body e H. unfold function. rewrite H. cbn. rewrite app_nil_r.
    by destruct st. }
  assert (Hall : forall e, GetDriver env db = inr e ->
            Forall (fun c => c st = (st, Fail e))
              (commands env drvExists drvTableExists rf db fuel quiet)).
  { intros e He. unfold commands. cbn [app].
    repeat (apply Forall_cons; split); try (by constructor).
    + unfold Wait. rewrite He; reflexivity.
    + unfold DumpSchema. rewrite He; reflexivity.
    + unfold Status. rewrite He; reflexivity.
    + unfold Create. rewrite He; reflexivity.
    + unfold Drop, GetAllDrivers. rewrite He; reflexivity.
    + unfold Migrate. rewrite He; reflexivity.
    + unfold Rollback. apply Hfun. rewrite He; reflexivity.
    + unfold CreateAndMigrate. rewrite He; reflexivity. }
  cbn zeta. split; [|split].
  - intros H. apply Hall. unfold GetDriver.
    destruct H as [->|(u & -> & ->)]; reflexivity.
  - intros u Hu Hs Hd. apply Hall. unfold GetDriver. rewrite Hu, Hd.
    apply String.eqb_neq in Hs. by rewrite Hs.
  - intros drv e Hd He. unfold replicaCommands.
    repeat (apply Forall_cons; split); try (by constructor).
    + unfold Create. rewrite Hd, He; reflexivity.
    + unfold Drop, GetAllDrivers. rewrite Hd, He; reflexivity.
    + unfold Migrate. rewrite Hd, He; reflexivity.
    + unfold Rollback. apply Hfun. rewrite Hd, He; reflexivity.
    + unfold CreateAndMigrate. rewrite Hd, He; reflexivity.
Qed.

(** X21 for a [DB] made by [New] without URL. *)
Lemma commands_check_the_drivers_first_witness :
  Forall (fun c => c start = (start, Fail ErrInvalidURL))
    (commands (calm (fun _ => [])) (fun _ _ => true) (fun _ _ => true) testFiles
       (New None None) 0 false) /\
  Forall (fun c => c start
                   = (start, Fail (Wrapped ErrUnsupportedDriver ": oracle")))
    (commands onlyPostgres (fun _ _ => true) (fun _ _ => true) testFiles
       (New (Some oracle) None) 0 false) /\
  Forall (fun c => c start
                   = (start, Fail (Wrapped ErrUnsupportedDriver ": oracle")))
    (replicaCommands onlyPostgres (fun _ _ => true) testFiles
       (New (Some (url "master")) (Some [oracle])) 0).
Proof.
  split; [|split].
  - apply (proj1 (commands_check_the_drivers_first (calm (fun _ => []))
                    (fun _ _ => true) (fun _ _ => true) testFiles (New None None)
                    0 false start)).
    left. reflexivity.
  - apply (proj1 (proj2 (commands_check_the_drivers_first onlyPostgres
                    (fun _ _ => true) (fun _ _ => true) testFiles
                    (New (Some oracle) None) 0 false start)) oracle);
      [reflexivity | discriminate | reflexivity].
  - apply (proj2 (proj2 (commands_check_the_drivers_first onlyPostgres
                    (fun _ _ => true) (fun _ _ => true) testFiles
                    (New (Some (url "master")) (Some [oracle])) 0 false start))
             (newDriver (New (Some (url "master")) (Some [oracle])) (url "master")));
      reflexivity.
Defined.

(* ===================================================================== *)
(** ** Facts about the scan for blocks                                   *)
(* ===================================================================== *)

Module BlockFacts.
(** The scan expression, as the chain of its continuations. *)
Lemma scan_unfold prev rest pos :
  matchAt scanRegExp prev rest pos
  = if atLineStart prev then
      rmatch (Str "--")
        (star space
           (rmatch (Str "migrate:")
              (rmatch (Alt (Str "up") (Str "down"))
                 (rmatch (Opt (Str ":slave"))
                    (rmatch (Alt (Lit " ") (Lit LF)) accept)))))
        prev rest pos
    else None.
Proof. reflexivity. Qed.

Lemma sep_match prev rest pos e :
  rmatch (Alt (Lit " ") (Lit LF)) accept prev rest pos = Some e ->
  exists sep tail, rest = String sep tail /\ (sep = " "%char \/ sep = LF) /\
    e = S pos.
Proof.
  cbn [rmatch]. destruct rest as [|c tail]; [discriminate|].
  destruct (Ascii.eqb_spec c " ") as [->|_].
  - intros [= <-]. exists " "%char, tail. auto.
  - destruct (Ascii.eqb_spec c LF) as [->|_]; [|discriminate].
    intros [= <-]. exists LF, tail. auto.
Qed.

(** What the scan expression matches: a directive, then a space or a line
    feed. *)
Lemma scan_shape prev rest pos e :
  matchAt scanRegExp prev rest pos = Some e ->
  exists d sep tail,
    rest = d +:+ String sep tail /\ directive d /\
    (sep = " "%char \/ sep = LF) /\
    e = (pos + String.length d + 1)%nat.
Proof.
  rewrite scan_unfold. destruct (atLineStart prev); [|discriminate].
  intros H. apply rmatch_Str in H as (r1 & -> & H).
  apply star_sound in H as (ws & r2 & -> & Hws & H).
  apply rmatch_Str in H as (r3 & -> & H).
  assert (Hslave : forall prev' r pos',
    rmatch (Opt (Str ":slave")) (rmatch (Alt (Lit " ") (Lit LF)) accept) prev' r pos'
      = Some e ->
    exists slave sep tail, r = slave +:+ String sep tail /\
      (slave = "" \/ slave = ":slave") /\ (sep = " "%char \/ sep = LF) /\
      e = (pos' + String.length slave + 1)%nat).
  { intros prev' r pos'. unfold Opt.
    change (rmatch (Alt (Str ":slave") Eps) ?k prev' r pos')
      with (match rmatch (Str ":slave") k prev' r pos' with
            | Some e => Some e
            | None => k prev' r pos'
            end).
    destruct (rmatch (Str ":slave") _ prev' r pos') as [e'|] eqn:E.
    - intros [= ->]. apply rmatch_Str in E as (r' & -> & E).
      apply sep_match in E as (sep & tail & -> & Hsep & ->).
      exists ":slave", sep, tail. repeat split; auto; cbn; lia.
    - intros E'. apply sep_match in E' as (sep & tail & -> & Hsep & ->).
      exists "", sep, tail. repeat split; auto; cbn; lia. }
  change (rmatch (Alt (Str "up") (Str "down")) ?k ?p ?r ?n)
    with (match rmatch (Str "up") k p r n with
          | Some e => Some e
          | None => rmatch (Str "down") k p r n
          end) in H.
  assert (exists dir slave sep tail,
    r3 = dir +:+ slave +:+ String sep tail /\ (dir = "up" \/ dir = "down") /\
    (slave = "" \/ slave = ":slave") /\ (sep = " "%char \/ sep = LF) /\
    e = (pos + 2 + String.length ws + 8 + String.length dir
         + String.length slave + 1)%nat)
    as (dir & slave & sep & tail & -> & Hdir & Hsl & Hsep & ->).
  { destruct (rmatch (Str "up") _ _ r3 _) as [e'|] eqn:E.
    - injection H as ->. apply rmatch_Str in E as (r4 & -> & E).
      apply Hslave in E as (slave & sep & tail & -> & ? & ? & ->).
      exists "up", slave, sep, tail. repeat split; auto; cbn; lia.
    - apply rmatch_Str in H as (r4 & -> & E').
      apply Hslave in E' as (slave & sep & tail & -> & ? & ? & ->).
      exists "down", slave, sep, tail. repeat split; auto; cbn; lia. }
  exists ("--" +:+ ws +:+ "migrate:" +:+ dir +:+ slave), sep, tail.
  split; [by rewrite !str_app_assoc|]. split; [by exists ws, dir, slave|].
  split; [exact Hsep|]. rewrite !str_length_app. cbn. lia.
Qed.

End BlockFacts.

Import BlockFacts.

(* ===================================================================== *)
(** ** The shape of the blocks                                           *)
(* ===================================================================== *)

Module BlockShapeFacts.

Lemma str_drop_app (a b : string) : drop (String.length a) (a +:+ b) = b.
Proof.
  induction a as [|c a IH]; [by destruct b|]. rewrite str_app_cons. exact IH.
Qed.

Lemma str_take_app (n : nat) (a b : string) :
  (String.length a <= n)%nat ->
  take n (a +:+ b) = a +:+ take (n - String.length a) b.
Proof.
  revert n. induction a as [|c a IH]; intros n Hn.
  - rewrite !str_app_nil_l. cbn [String.length]. by rewrite Nat.sub_0_r.
  - cbn [String.length] in Hn. destruct n as [|n]; [lia|].
    rewrite !str_app_cons. cbn [take String.length Nat.sub].
    rewrite IH by lia. reflexivity.
Qed.

(** Every match that is reported is a match of the expression at its
    position in the text. *)
Lemma allFrom_matchAt (r : regex) (before rest : string) (skip : nat)
    (prevEnd : option nat) (m : nat * nat) :
  m ∈ allFrom r (lastByte before) rest (String.length before) skip prevEnd ->
  exists prev, matchAt r prev (drop m.1 (before +:+ rest)) m.1 = Some m.2.
Proof.
  revert before skip prevEnd.
  induction rest as [|c rest IH]; intros before skip prevEnd.
  - destruct skip as [|n]; cbn [allFrom]; [|intros H; by apply elem_of_nil in H].
    destruct (matchAt r (lastByte before) "" (String.length before)) as [e|] eqn:E;
      [|intros H; by apply elem_of_nil in H].
    rewrite app_nil_r. destruct (_ && _)%bool; intros H;
      [by apply elem_of_nil in H|].
    apply list_elem_of_singleton in H as ->. cbn [fst snd].
    rewrite str_drop_app. eauto.
  - assert (Hstep : forall n pe,
      m ∈ allFrom r (Some c) rest (S (String.length before)) n pe ->
      exists prev, matchAt r prev (drop m.1 (before +:+ String c rest)) m.1 = Some m.2).
    { intros n pe Hm.
      specialize (IH (before +:+ String c "") n pe).
      rewrite lastByte_snoc, str_length_app, str_app_assoc in IH. cbn in IH.
      rewrite str_app_cons, str_app_nil_l in IH.
      replace (String.length before + 1)%nat with (S (String.length before)) in IH by lia.
      by apply IH. }
    destruct skip as [|n]; cbn [allFrom]; [|apply Hstep].
    destruct (matchAt r (lastByte before) (String c rest) (String.length before))
      as [e|] eqn:E; [|apply Hstep].
    intros H. apply elem_of_app in H as [H|H]; [|by eapply Hstep].
    destruct (_ && _)%bool; [by apply elem_of_nil in H|].
    apply list_elem_of_singleton in H as ->. cbn [fst snd].
    rewrite str_drop_app. eauto.
Qed.

Lemma scan_found (contents : string) :
  Forall (found contents) (allFrom scanRegExp None contents 0 0 None).
Proof.
  apply Forall_forall. intros m Hm.
  apply (allFrom_matchAt scanRegExp "" contents 0 None) in Hm as [prev Hm].
  rewrite str_app_nil_l in Hm.
  apply scan_shape in Hm as (d & sep & tail & H1 & H2 & H3 & H4).
  exists d, sep, tail. auto.
Qed.

(** Every block starts at a match and reaches at least to the separator
    of its directive. *)
Lemma blocksOf_match (s : string) (ms : list (nat * nat)) (m0 : nat * nat)
    (lo : nat) (b : Z * Z) :
  lineMatches s lo (m0 :: ms) ->
  b ∈ blocksOf (len s) (fst <$> (toZ <$> (m0 :: ms))) ->
  exists m, m ∈ m0 :: ms /\ b.1 = Z.of_nat m.1 /\
    Z.of_nat m.2 - 1 <= b.2 <= len s /\
    (m.1 = 0%nat \/ byteAt s (m.1 - 1) = Some LF).
Proof.
  revert m0 lo. induction ms as [|m1 ms IH]; intros m0 lo Hl Hb.
  - destruct Hl as (H1 & H2 & H3 & _).
    cbn in Hb. apply list_elem_of_singleton in Hb as ->.
    exists m0. split; [left|]. cbn [fst snd]. unfold len. repeat split; auto; lia.
  - destruct Hl as (H1 & H2 & H3 & Hl).
    rewrite !fmap_cons in Hb. cbn [blocksOf] in Hb.
    apply elem_of_cons in Hb as [->|Hb].
    + exists m0. split; [left|]. cbn [fst snd toZ].
      pose proof Hl as (H4 & H5 & _). unfold len. repeat split; auto; lia.
    + destruct (IH m1 m0.2 Hl) as (m & Hm & ?); [by rewrite !fmap_cons|].
      exists m. split; [by right | auto].
Qed.

Lemma blocks_shape (contents : string) (b : Z * Z) :
  b ∈ (scanBlocks contents).1 ->
  exists d rest,
    blockText contents b = d +:+ rest /\ directive d /\
    (rest = "" \/ exists r, rest = String " " r \/ rest = String LF r) /\
    (b.1 = 0 \/ slice contents (b.1 - 1) b.1 = NL).
Proof.
  rewrite scanBlocks_closed. cbn [fst]. unfold FindAllIndex.
  pose proof (scan_lineMatches contents) as Hl.
  pose proof (scan_found contents) as Hf.
  destruct (allFrom scanRegExp None contents 0 0 None) as [|m0 ms];
    [intros H; by apply elem_of_nil in H|].
  intros Hb.
  destruct (blocksOf_match contents ms m0 0 b Hl Hb)
    as (m & Hm & Hb1 & Hb2 & Hline).
  apply (proj1 (Forall_forall _ _) Hf) in Hm as (d & sep & tail & Hd & Hdir & Hsep & He).
  exists d, (take (Z.to_nat b.2 - Z.to_nat b.1 - String.length d) (String sep tail)).
  split; [|split; [exact Hdir|split]].
  - unfold blockText, substring.
    replace (b.1 =? -1) with false by (symmetry; apply Z.eqb_neq; lia).
    replace (b.2 =? -1) with false by (symmetry; apply Z.eqb_neq; lia).
    cbn [orb]. unfold slice. rewrite Hb1, Nat2Z.id, Hd.
    apply str_take_app. lia.
  - destruct (Z.to_nat b.2 - Z.to_nat b.1 - String.length d)%nat; [by left|].
    right. cbn [take]. destruct Hsep as [-> | ->]; eauto.
  - destruct (decide (m.1 = 0%nat)) as [Hz|Hnz]; [left; lia|].
    destruct Hline as [Hz|Hlf]; [contradiction|]. right.
    apply byteAt_drop in Hlf. unfold slice. rewrite Hb1.
    replace (Z.to_nat (Z.of_nat m.1 - 1)) with (m.1 - 1)%nat by lia.
    rewrite Nat2Z.id, Hlf.
    replace (m.1 - (m.1 - 1))%nat with 1%nat by lia. reflexivity.
Qed.

Lemma directive_nonempty d rest : directive d -> d +:+ rest <> "".
Proof.
  intros (ws & dir & slave & -> & _). rewrite !str_app_cons. discriminate.
Qed.

Lemma block_nonempty (contents : string) (b : Z * Z) :
  b ∈ (scanBlocks contents).1 -> blockText contents b <> "".
Proof.
  intros Hb. apply blocks_shape in Hb as (d & rest & -> & Hd & _).
  by apply directive_nonempty.
Qed.

End BlockShapeFacts.

Import BlockShapeFacts.

(* ===================================================================== *)
(** ** Facts about the classification of blocks                          *)
(* ===================================================================== *)

Module ClassifyFacts.

(** One block: a result it is recognised for was empty and receives it,
    the others stay. *)
Lemma classify_inr contents b p p' :
  classify contents b p = inr p' ->
  forall k,
    if MatchString (kindRegExp k) (blockText contents b)
    then Contents (slot k p) = "" /\ slot k p' = filled (blockText contents b)
    else slot k p' = slot k p.
Proof.
  unfold classify, blockText, assign, filled.
  set (s := substring contents b.1 b.2).
  destruct (MatchString upRegExp s) eqn:E1;
    [destruct (String.eqb_spec (Contents (up p)) "") as [H1|H1]; cbn [negb andThen];
       [|discriminate]|cbn [andThen]];
  (destruct (MatchString downRegExp s) eqn:E2;
    [cbn [down setUp];
     destruct (String.eqb_spec (Contents (down p)) "") as [H2|H2]; cbn [negb andThen];
       [|discriminate]|cbn [andThen]]);
  (destruct (MatchString upSlaveRegExp s) eqn:E3;
    [cbn [upSlave setUp setDown];
     destruct (String.eqb_spec (Contents (upSlave p)) "") as [H3|H3];
       cbn [negb andThen]; [|discriminate]|cbn [andThen]]);
  (destruct (MatchString downSlaveRegExp s) eqn:E4;
    [cbn [downSlave setUp setDown setUpSlave];
     destruct (String.eqb_spec (Contents (downSlave p)) "") as [H4|H4];
       cbn [negb andThen]; [|discriminate]|cbn [andThen]]);
  intros [= <-]; intros [| | |]; cbn [kindRegExp slot];
    rewrite ?E1, ?E2, ?E3, ?E4; cbn; auto.
Qed.

(** One block that stops the parser: it is recognised for a result that
    is taken. *)
Lemma classify_inl contents b p p' :
  classify contents b p = inl p' ->
  exists k, MatchString (kindRegExp k) (blockText contents b) = true /\
    Contents (slot k p) <> "".
Proof.
  unfold classify, blockText, assign.
  set (s := substring contents b.1 b.2).
  destruct (MatchString upRegExp s) eqn:E1;
    [destruct (String.eqb_spec (Contents (up p)) "") as [H1|H1]; cbn [negb andThen];
       [|intros _; by exists KUp]|cbn [andThen]];
  (destruct (MatchString downRegExp s) eqn:E2;
    [cbn [down setUp];
     destruct (String.eqb_spec (Contents (down p)) "") as [H2|H2]; cbn [negb andThen];
       [|intros _; by exists KDown]|cbn [andThen]]);
  (destruct (MatchString upSlaveRegExp s) eqn:E3;
    [cbn [upSlave setUp setDown];
     destruct (String.eqb_spec (Contents (upSlave p)) "") as [H3|H3];
       cbn [negb andThen]; [|intros _; by exists KUpSlave]|cbn [andThen]]);
  (destruct (MatchString downSlaveRegExp s) eqn:E4;
    [cbn [downSlave setUp setDown setUpSlave];
     destruct (String.eqb_spec (Contents (downSlave p)) "") as [H4|H4];
       cbn [negb andThen]; [|intros _; by exists KDownSlave]|cbn [andThen]]);
  discriminate.
Qed.

Section Blocks.
Context (contents : string).

Lemma classifyAll_inr blocks p p' :
  Forall (fun b => blockText contents b <> "") blocks ->
  classifyAll contents blocks p = inr p' ->
  forall k,
    match blocksOfKind contents k blocks with
    | [] => slot k p' = slot k p
    | [b] => Contents (slot k p) = "" /\ slot k p' = filled (blockText contents b)
    | _ => False
    end.
Proof.
  intros Hne. revert p. induction Hne as [|b blocks Hb _ IH]; intros p.
  - intros [= <-] k. reflexivity.
  - cbn [classifyAll]. destruct (classify contents b p) as [|p1] eqn:E;
      [discriminate|]. cbn [andThen]. intros Hrest k.
    specialize (IH p1 Hrest k).
    pose proof (classify_inr _ _ _ _ E k) as Hk.
    unfold blocksOfKind in *. cbn [List.filter].
    destruct (MatchString (kindRegExp k) (blockText contents b)).
    + destruct Hk as [Hempty Hfill].
      destruct (List.filter _ blocks) as [|b1 [|b2 l]].
      * split; [exact Hempty | congruence].
      * destruct IH as [IH _]. rewrite Hfill in IH. by cbn in IH.
      * exact IH.
    + rewrite Hk in IH. exact IH.
Qed.

Lemma classifyAll_inl blocks p p' :
  Forall (fun b => blockText contents b <> "") blocks ->
  classifyAll contents blocks p = inl p' ->
  exists k,
    (Contents (slot k p) <> "" /\ blocksOfKind contents k blocks <> []) \/
    (2 <= length (blocksOfKind contents k blocks))%nat.
Proof.
  intros Hne. revert p. induction Hne as [|b blocks Hb _ IH]; intros p.
  - discriminate.
  - cbn [classifyAll]. destruct (classify contents b p) as [p1|p1] eqn:E;
      cbn [andThen].
    + intros _. apply classify_inl in E as (k & Hm & Hk).
      exists k. left. split; [exact Hk|].
      unfold blocksOfKind. cbn [List.filter]. by rewrite Hm.
    + intros Hrest. destruct (IH p1 Hrest) as (k & H). exists k.
      pose proof (classify_inr _ _ _ _ E k) as Hk.
      unfold blocksOfKind in *. cbn [List.filter].
      destruct (MatchString (kindRegExp k) (blockText contents b)).
      * right. destruct H as [[_ H]|H].
        -- destruct (List.filter _ blocks); [done | cbn; lia].
        -- cbn [length]. lia.
      * rewrite Hk in H. exact H.
Qed.

(** The options of a result are the options written in its contents. *)
Lemma classify_options b p :
  (forall k, Options (slot k p) = parseMigrationOptions (Contents (slot k p))) ->
  forall k,
    Options (slot k (match classify contents b p with inl q | inr q => q end))
    = parseMigrationOptions
        (Contents (slot k (match classify contents b p with inl q | inr q => q end))).
Proof.
  intros Hp. unfold classify, assign.
  set (s := blockText contents b). fold (blockText contents b). fold s.
  assert (Hup : forall q, (forall k, Options (slot k q)
                  = parseMigrationOptions (Contents (slot k q))) ->
            forall k, Options (slot k (setUp (filled s) q))
                  = parseMigrationOptions (Contents (slot k (setUp (filled s) q))))
    by (intros q Hq [| | |]; [reflexivity | apply (Hq KDown) | apply (Hq KUpSlave)
                              | apply (Hq KDownSlave)]).
  assert (Hdown : forall q, (forall k, Options (slot k q)
                  = parseMigrationOptions (Contents (slot k q))) ->
            forall k, Options (slot k (setDown (filled s) q))
                  = parseMigrationOptions (Contents (slot k (setDown (filled s) q))))
    by (intros q Hq [| | |]; [apply (Hq KUp) | reflexivity | apply (Hq KUpSlave)
                              | apply (Hq KDownSlave)]).
  assert (Hus : forall q, (forall k, Options (slot k q)
                  = parseMigrationOptions (Contents (slot k q))) ->
            forall k, Options (slot k (setUpSlave (filled s) q))
                  = parseMigrationOptions (Contents (slot k (setUpSlave (filled s) q))))
    by (intros q Hq [| | |]; [apply (Hq KUp) | apply (Hq KDown) | reflexivity
                              | apply (Hq KDownSlave)]).
  assert (Hds : forall q, (forall k, Options (slot k q)
                  = parseMigrationOptions (Contents (slot k q))) ->
            forall k, Options (slot k (setDownSlave (filled s) q))
                  = parseMigrationOptions (Contents (slot k (setDownSlave (filled s) q))))
    by (intros q Hq [| | |]; [apply (Hq KUp) | apply (Hq KDown) | apply (Hq KUpSlave)
                              | reflexivity]).
  fold (filled s).
  repeat (match goal with
          | |- context [if ?c then _ else _] => destruct c
          end; cbn [andThen]); auto.
Qed.

Lemma classifyAll_options blocks p :
  (forall k, Options (slot k p) = parseMigrationOptions (Contents (slot k p))) ->
  forall k,
    Options (slot k (match classifyAll contents blocks p with inl q | inr q => q end))
    = parseMigrationOptions
        (Contents (slot k (match classifyAll contents blocks p with
                           | inl q | inr q => q end))).
Proof.
  revert p. induction blocks as [|b blocks IH]; intros p Hp; [exact Hp|].
  cbn [classifyAll]. pose proof (classify_options b p Hp) as Hb.
  destruct (classify contents b p) as [q|q]; cbn [andThen]; [exact Hb|].
  apply IH, Hb.
Qed.

End Blocks.
End ClassifyFacts.

Import ClassifyFacts.

(** X22.  In the result of [parseMigrationContents], whether it comes with an
    error or not, the options of each of the four blocks are the options
    parsed from the contents of that same block. *)
Theorem parse_options_come_from_the_contents (contents : string) (k : kind) :
  let p := (parseMigrationContents contents).1 in
  Options (slot k p) = parseMigrationOptions (Contents (slot k p)).
Proof.
  cbn zeta. unfold parseMigrationContents.
  destruct (scanBlocks contents) as [blocks first].
  assert (H0 : forall k, Options (slot k noBlocks)
                 = parseMigrationOptions (Contents (slot k noBlocks)))
    by (by intros [| | |]).
  destruct (length blocks =? 0)%nat; [apply H0|].
  pose proof (classifyAll_options contents blocks noBlocks H0 k) as H.
  destruct (classifyAll contents blocks noBlocks) as [p|p]; [exact H|].
  destruct (String.eqb _ ""); [exact H|].
  destruct (statementsPrecedeMigrateBlocks _ _); exact H.
Qed.

(** X23.  The error of [parseMigrationContents] is decided by the blocks the scan
    finds: [ErrParseDuplicateBlock] exactly when some kind of block is found
    twice; else [ErrParseMissingUp] exactly when no [up] block is found;
    else [ErrParseUnexpectedStmt] exactly when a statement precedes the
    first block; else no error.  Unless a kind is found twice, each of the
    four results holds the text of the block of its kind, and is the empty
    migration when there is none. *)
Theorem parse_classifies_blocks (contents : string) :
  let r := parseMigrationContents contents in
  let blocks := (scanBlocks contents).1 in
  let twice := exists k, (2 <= length (blocksOfKind contents k blocks))%nat in
  let noUp := blocksOfKind contents KUp blocks = [] in
  let stmt :=
    statementsPrecedeMigrateBlocks contents (scanBlocks contents).2 = true in
  (r.2 = Some ErrParseDuplicateBlock <-> twice) /\
  (r.2 = Some ErrParseMissingUp <-> ~ twice /\ noUp) /\
  (r.2 = Some ErrParseUnexpectedStmt <-> ~ twice /\ ~ noUp /\ stmt) /\
  (r.2 = None <-> ~ twice /\ ~ noUp /\ ~ stmt) /\
  (~ twice ->
   forall k,
     match blocksOfKind contents k blocks with
     | [] => slot k r.1 = Parser.NewMigration
     | b :: _ => slot k r.1 = {| Contents := blockText contents b;
                                 Options := parseMigrationOptions (blockText contents b) |}
     end).
Proof.
  cbn zeta. unfold parseMigrationContents.
  pose proof (fun b => block_nonempty contents b) as Hne.
  destruct (scanBlocks contents) as [blocks first]. cbn [fst snd] in *.
  assert (Hall : Forall (fun b => blockText contents b <> "") blocks)
    by (apply Forall_forall; exact Hne).
  assert (H0 : forall k, slot k noBlocks = Parser.NewMigration) by (by intros [| | |]).
  destruct blocks as [|b0 blocks']; cbn [length Nat.eqb].
  { assert (Hnt : ~ exists k, (2 <= length (blocksOfKind contents k []))%nat).
    { intros (k & Hk). cbn in Hk. lia. }
    cbn [fst snd].
    split; [split; [discriminate | intros Ht; by destruct Hnt]|].
    split; [split; [intros _; split; [exact Hnt | reflexivity] | reflexivity]|].
    split; [split; [discriminate | intros (_ & Hn & _); by destruct Hn]|].
    split; [split; [discriminate | intros (_ & Hn & _); by destruct Hn]|].
    intros _ k. apply H0. }
  set (blocks := b0 :: blocks') in *.
  destruct (classifyAll contents blocks noBlocks) as [p|p] eqn:E.
  - apply classifyAll_inl in E as (k & [[Hk _]|Hk]); [| |exact Hall].
    { rewrite H0 in Hk. by destruct Hk. }
    assert (Htwice : exists k, (2 <= length (blocksOfKind contents k blocks))%nat)
      by eauto.
    cbn [fst snd].
    split; [split; [intros _; exact Htwice | reflexivity]|].
    split; [split; [discriminate | intros (Hn & _); by destruct Hn]|].
    split; [split; [discriminate | intros (Hn & _); by destruct Hn]|].
    split; [split; [discriminate | intros (Hn & _); by destruct Hn]|].
    intros Hn. by destruct Hn.
  - pose proof (classifyAll_inr contents blocks noBlocks p Hall E) as Hk.
    assert (Hno : ~ exists k, (2 <= length (blocksOfKind contents k blocks))%nat).
    { intros (k & H). specialize (Hk k).
      destruct (blocksOfKind contents k blocks) as [|b1 [|b2 l]]; cbn in H; [lia|lia|done]. }
    assert (Hslots : forall k,
      match blocksOfKind contents k blocks with
      | [] => slot k p = Parser.NewMigration
      | b :: _ => slot k p = filled (blockText contents b)
      end).
    { intros k. specialize (Hk k).
      destruct (blocksOfKind contents k blocks) as [|b1 [|b2 l]];
        [by rewrite Hk, H0 | by destruct Hk | done]. }
    assert (Hup : String.eqb (Contents (up p)) "" = true
                  <-> blocksOfKind contents KUp blocks = []).
    { pose proof (Hslots KUp) as H. cbn [slot] in H.
      destruct (blocksOfKind contents KUp blocks) as [|b1 l] eqn:Eb.
      - rewrite H. done.
      - rewrite H. cbn [filled Contents]. split; [|discriminate].
        intros Heq. apply String.eqb_eq in Heq.
        assert (Hin : b1 ∈ blocks).
        { apply list_elem_of_In. unfold blocksOfKind in Eb.
          eapply (proj1 (List.filter_In _ b1 blocks)).
          rewrite Eb. by left. }
        by apply (proj1 (Forall_forall _ _) Hall) in Hin. }
    destruct (String.eqb (Contents (up p)) "") eqn:Eup; cbn [fst snd].
    + assert (Hn : blocksOfKind contents KUp blocks = []) by (by apply Hup).
      split; [split; [discriminate | intros Ht; by destruct Hno]|].
      split; [split; [intros _; by split | reflexivity]|].
      split; [split; [discriminate | intros (_ & Hx & _); by destruct Hx]|].
      split; [split; [discriminate | intros (_ & Hx & _); by destruct Hx]|].
      intros _. exact Hslots.
    + assert (Hn : blocksOfKind contents KUp blocks <> []).
      { intros H. apply Hup in H. discriminate. }
      destruct (statementsPrecedeMigrateBlocks contents first) eqn:Es; cbn [fst snd].
      * split; [split; [discriminate | intros Ht; by destruct Hno]|].
        split; [split; [discriminate | intros (_ & Hx); by destruct Hn]|].
        split; [split; [intros _; by repeat split | reflexivity]|].
        split; [split; [discriminate | intros (_ & _ & Hx); by destruct Hx]|].
        intros _. exact Hslots.
      * split; [split; [discriminate | intros Ht; by destruct Hno]|].
        split; [split; [discriminate | intros (_ & Hx); by destruct Hn]|].
        split; [split; [discriminate | intros (_ & _ & Hx); discriminate]|].
        split; [split; [intros _; repeat split; [exact Hno | exact Hn | discriminate]
                       | reflexivity]|].
        intros _. exact Hslots.
Qed.

(** X24.  Every block the scan finds begins with a directive ([--], white space,
    [migrate:], [up] or [down], [:slave] or nothing) that ends the text or
    is followed by a space or a line feed, and it begins at the start of
    the text or just after a line feed. *)
Theorem blocks_begin_with_a_directive (contents : string) (b : Z * Z) :
  b ∈ (scanBlocks contents).1 ->
  exists d rest,
    blockText contents b = d +:+ rest /\ directive d /\
    (rest = "" \/ exists r, rest = String " " r \/ rest = String LF r) /\
    (b.1 = 0 \/ slice contents (b.1 - 1) b.1 = NL).
Proof. apply blocks_shape. Qed.

(** X24 for the first block of the typical use case. *)
Lemma blocks_begin_with_a_directive_witness :
  exists d rest,
    blockText typicalUseCase (0, 56) = d +:+ rest /\ directive d /\
    (rest = "" \/ exists r, rest = String " " r \/ rest = String LF r) /\
    ((0, 56).1 = 0 \/ slice typicalUseCase ((0, 56).1 - 1) (0, 56).1 = NL).
Proof.
  apply (blocks_begin_with_a_directive typicalUseCase (0, 56)).
  vm_compute. left.
Defined.

(* ===================================================================== *)
(** ** Facts about substrings                                            *)
(* ===================================================================== *)

Module SubstringFacts.
(** *** Pieces of a text *)

Lemma occurs_refl (s : string) : occurs s s.
Proof. exists "", "". by rewrite str_app_nil_l, str_app_nil_r. Qed.

Lemma occurs_drop (x s : string) (n : nat) : occurs x (drop n s) -> occurs x s.
Proof.
  intros (a & b & H). exists (take n s +:+ a), b.
  rewrite str_app_assoc, <- H. symmetry. apply str_take_drop.
Qed.

Lemma occurs_take (x s : string) (n : nat) : occurs x (take n s) -> occurs x s.
Proof.
  intros (a & b & H). exists a, (b +:+ drop n s).
  rewrite <- !str_app_assoc. rewrite (str_app_assoc a x b), <- H.
  symmetry. apply str_take_drop.
Qed.

Lemma occurs_slice (x s : string) (a b : Z) : occurs x (slice s a b) -> occurs x s.
Proof. unfold slice. intros H. by eapply occurs_drop, occurs_take. Qed.

Lemma trimLeft_drop (fuel : nat) (s : string) : exists n, trimLeft fuel s = drop n s.
Proof.
  revert s. induction fuel as [|f IH]; intros s; cbn [trimLeft].
  - exists 0%nat. by rewrite str_drop_0.
  - destruct (spaceWidth s) as [|w].
    + exists 0%nat. by rewrite str_drop_0.
    + destruct (IH (drop (S w) s)) as [n ->]. exists (S w + n)%nat.
      apply str_drop_drop.
Qed.

Lemma trimRight_take (s : string) : exists n, trimRight s = take n s.
Proof.
  induction s as [|c s [n IH]]; [by exists 0%nat|].
  cbn [trimRight]. destruct (allSpace _ _).
  - by exists 0%nat.
  - exists (S n). cbn [take]. by rewrite IH.
Qed.

Lemma occurs_TrimSpace (x s : string) : occurs x (TrimSpace s) -> occurs x s.
Proof.
  unfold TrimSpace. destruct (trimLeft_drop (String.length s) s) as [n ->].
  destruct (trimRight_take (drop n s)) as [m ->].
  intros H. by eapply occurs_drop, occurs_take.
Qed.

(** *** An expression anchored at the start of the text matches once *)

Lemma allFrom_BeginText (r : regex) (c : ascii) (rest : string) (pos skip : nat)
    (prevEnd : option nat) :
  allFrom (Cat BeginText r) (Some c) rest pos skip prevEnd = [].
Proof.
  revert c pos skip prevEnd.
  induction rest as [|x rest IH]; intros c pos skip prevEnd.
  - by destruct skip.
  - destruct skip as [|n]; cbn [allFrom]; [|apply IH].
    unfold matchAt. cbn [rmatch]. apply IH.
Qed.

Lemma FindAllIndex_anchored (r : regex) (s : string) :
  FindAllIndex (Cat BeginText r) s = [] \/
  exists e, FindAllIndex (Cat BeginText r) s = [(0, Z.of_nat e)].
Proof.
  unfold FindAllIndex. destruct s as [|c s]; cbn [allFrom].
  - destruct (matchAt _ None "" 0) as [e|]; [|by left].
    right. exists e. destruct e; reflexivity.
  - destruct (matchAt _ None (String c s) 0) as [e|].
    + right. exists e. rewrite allFrom_BeginText, app_nil_r.
      destruct e; reflexivity.
    + left. by rewrite allFrom_BeginText.
Qed.

Lemma slice_to_end (s : string) (e : nat) :
  slice s (Z.of_nat e) (len s) = drop e s.
Proof.
  unfold slice, len. rewrite !Nat2Z.id. apply str_take_all.
  rewrite str_length_drop. lia.
Qed.

Lemma strip_drop (s : string) :
  exists n, ReplaceAllString blockDirectiveRegExp s "" = drop n s.
Proof.
  unfold ReplaceAllString, blockDirectiveRegExp, Seq. cbn [foldr].
  destruct (FindAllIndex_anchored
              (Cat (Str "--") (Cat (Star space) (Cat (Str "migrate:")
                 (Cat (Alt (Str "up") (Str "down")) (Cat (Opt (Str ":slave")) Eps)))))
              s) as [-> | [e ->]]; cbn [replaceMatches fst snd].
  - exists 0%nat. apply (slice_to_end s 0).
  - exists e. rewrite slice_to_end. unfold slice. cbn.
    by rewrite str_take_0.
Qed.

(** *** The pieces [Split] returns are pieces of the text *)

Lemma between_slices (s : string) (beg : Z) (ms : list (Z * Z)) (x : string) :
  x ∈ between s beg ms -> exists a b, x = slice s a b.
Proof.
  revert beg. induction ms as [|m ms IH]; intros beg; cbn [between].
  - intros H. by apply elem_of_nil in H.
  - intros H. apply elem_of_app in H as [H|H]; [|by eapply IH].
    destruct (m.2 =? 0); [by apply elem_of_nil in H|].
    apply list_elem_of_singleton in H. eauto.
Qed.

Lemma Split_occurs (r : regex) (s x : string) : x ∈ Split r s -> occurs x s.
Proof.
  unfold Split. destruct (len s =? 0).
  - intros H. apply list_elem_of_singleton in H as ->.
    exists "", s. reflexivity.
  - intros H. apply elem_of_app in H as [H|H].
    + apply between_slices in H as (a & b & ->).
      apply (occurs_slice _ s a b), occurs_refl.
    + destruct (_ =? len s); [by apply elem_of_nil in H|].
      apply list_elem_of_singleton in H as ->.
      eapply occurs_slice, occurs_refl.
Qed.

End SubstringFacts.

Import SubstringFacts.

(* ===================================================================== *)
(** ** Facts about [regexp.Split]                                        *)
(* ===================================================================== *)

Module SplitFacts.

Lemma str_drop_app_le (n : nat) (a b : string) :
  (n <= String.length a)%nat -> drop n (a +:+ b) = drop n a +:+ b.
Proof.
  revert a. induction n as [|n IH]; intros a Hn.
  - by rewrite !str_drop_0.
  - destruct a as [|c a]; [cbn in Hn; lia|].
    rewrite str_app_cons. cbn [drop]. apply IH. cbn in Hn. lia.
Qed.

Lemma str_take_length_app (a b : string) : take (String.length a) (a +:+ b) = a.
Proof.
  induction a as [|c a IH]; [by destruct b|].
  rewrite str_app_cons. cbn [String.length take]. by rewrite IH.
Qed.

(** The piece of [before ++ rest] from [beg] to the end of [before]. *)
Lemma slice_before (before rest : string) (beg : nat) :
  (beg <= String.length before)%nat ->
  slice (before +:+ rest) (Z.of_nat beg) (Z.of_nat (String.length before))
  = drop beg before.
Proof.
  intros H. unfold slice. rewrite !Nat2Z.id, str_drop_app_le by done.
  replace (String.length before - beg)%nat with (String.length (drop beg before))
    by (rewrite str_length_drop; lia).
  apply str_take_length_app.
Qed.

Lemma default_last_cons (d x : Z) (l : list Z) :
  default d (last (x :: l)) = default x (last l).
Proof.
  revert d x. induction l as [|y l IHl]; intros d x; [reflexivity|].
  change (last (x :: y :: l)) with (last (y :: l)).
  by rewrite !IHl.
Qed.

Section Lit.
Context (c : ascii).

Lemma matchAt_Lit prev rest pos :
  matchAt (Lit c) prev rest pos
  = match rest with
    | String a _ => if Ascii.eqb a c then Some (S pos) else None
    | "" => None
    end.
Proof. destruct rest; reflexivity. Qed.

Lemma Split1_nonempty (s : string) : Split1 c s <> [].
Proof.
  destruct s as [|a s]; cbn [Split1]; [discriminate|].
  destruct (Ascii.eqb a c); [discriminate|].
  destruct (Split1 c s); discriminate.
Qed.

Lemma pieces_Lit (before rest : string) (beg : nat) (prevEnd : option nat) :
  (beg <= String.length before)%nat ->
  pieces (before +:+ rest) (Z.of_nat beg)
    (toZ <$> allFrom (Lit c) (lastByte before) rest (String.length before) 0 prevEnd)
  = match Split1 c rest with
    | x :: xs => (drop beg before +:+ x) :: xs
    | [] => []
    end.
Proof.
  revert before beg prevEnd.
  induction rest as [|a rest IH]; intros before beg prevEnd Hbeg.
  - cbn [allFrom Split1]. rewrite matchAt_Lit. unfold pieces.
    cbn [fmap list_fmap between last default from_option id app].
    rewrite !str_app_nil_r. f_equal.
    change (len before) with (Z.of_nat (String.length before)).
    rewrite <- (str_app_nil_r before) at 1. by apply slice_before.
  - cbn [allFrom Split1]. rewrite matchAt_Lit.
    assert (Hstep : forall beg' pe, (beg' <= S (String.length before))%nat ->
      pieces (before +:+ String a rest) (Z.of_nat beg')
        (toZ <$> allFrom (Lit c) (Some a) rest (S (String.length before)) 0 pe)
      = match Split1 c rest with
        | x :: xs => (drop beg' (before +:+ String a "") +:+ x) :: xs
        | [] => []
        end).
    { intros beg' pe Hb.
      specialize (IH (before +:+ String a "") beg' pe).
      rewrite lastByte_snoc, str_length_app, str_app_assoc in IH. cbn in IH.
      rewrite str_app_cons, str_app_nil_l in IH.
      replace (String.length before + 1)%nat with (S (String.length before)) in IH by lia.
      apply IH. lia. }
    destruct (Ascii.eqb_spec a c) as [->|Hne].
    + replace (S (String.length before) =? String.length before)%nat with false
        by (symmetry; apply Nat.eqb_neq; lia).
      cbn [andb app]. rewrite fmap_cons.
      replace (S (String.length before) - String.length before - 1)%nat
        with 0%nat by lia.
      unfold pieces. cbn [between toZ fst snd].
      replace (Z.of_nat (S (String.length before)) =? 0) with false
        by (symmetry; apply Z.eqb_neq; lia).
      cbn [app]. rewrite fmap_cons. cbn [snd].
      rewrite default_last_cons.
      specialize (Hstep (S (String.length before))
                    (Some (S (String.length before))) ltac:(lia)).
      change (toZ (String.length before, S (String.length before))).2
        with (Z.of_nat (S (String.length before))).
      unfold pieces in Hstep. rewrite Hstep.
      rewrite (slice_before before (String c rest) beg Hbeg), str_app_nil_r.
      destruct (Split1 c rest) as [|x xs]; [reflexivity|].
      f_equal. f_equal.
      replace (S (String.length before))
        with (String.length (before +:+ String c "")) at 1
        by (rewrite str_length_app; cbn; lia).
      generalize (before +:+ String c ""). intros u.
      assert (H : drop (String.length u) u = "").
      { induction u as [|? ? IHu]; [reflexivity | exact IHu]. }
      by rewrite H.
    + rewrite (Hstep beg prevEnd) by lia.
      pose proof (Split1_nonempty rest) as Hsome.
      destruct (Split1 c rest) as [|x xs]; [done|].
      rewrite str_drop_app_le by done. by rewrite str_app_assoc.
Qed.

(** [regexp.Split] on a one-byte literal is [strings.Split]. *)
Lemma Split_Lit (s : string) : Split (Lit c) s = Split1 c s.
Proof.
  unfold Split. destruct s as [|a s]; [reflexivity|].
  replace (len (String a s) =? 0) with false
    by (symmetry; apply Z.eqb_neq; unfold len; cbn; lia).
  set (t := String a s).
  pose proof (pieces_Lit "" t 0 None ltac:(cbn; lia)) as H.
  rewrite str_app_nil_l in H. cbn [lastByte String.length drop] in H.
  change (toZ <$> allFrom (Lit c) None t 0 0 None) with (FindAllIndex (Lit c) t) in H.
  unfold pieces in H.
  assert (Hend : (default 0 (last (fst <$> FindAllIndex (Lit c) t)) =? len t) = false).
  { apply Z.eqb_neq. unfold FindAllIndex.
    destruct (last (fst <$> (toZ <$> allFrom (Lit c) None t 0 0 None))) as [z|] eqn:E.
    - cbn. apply last_Some_elem_of in E.
      apply list_elem_of_fmap in E as (m' & Hz & Hm').
      apply list_elem_of_fmap in Hm' as (m & Hm' & Hm). subst.
      apply (allFrom_matchAt (Lit c) "" t 0 None) in Hm as [prev Hm].
      rewrite str_app_nil_l, matchAt_Lit in Hm.
      destruct (drop m.1 t) as [|x u] eqn:Ed; [discriminate|].
      pose proof (str_length_drop m.1 t) as Hl. rewrite Ed in Hl.
      unfold toZ, len. cbn in *. lia.
    - cbn. unfold len, t. cbn. lia. }
  change (Z.of_nat 0) with 0 in H.
  cbv zeta. rewrite Hend, H. by destruct (Split1 c t).
Qed.

Lemma Split1_single (t v : string) :
  Split1 c t = [v] -> t = v /\ allBytes (isNot c) v = true.
Proof.
  revert v. induction t as [|a t IH]; intros v; cbn [Split1].
  - intros [= <-]. auto.
  - destruct (Ascii.eqb_spec a c) as [->|Hne].
    + destruct t; cbn [Split1]; [discriminate|].
      destruct (Ascii.eqb _ _); [discriminate|].
      destruct (Split1 c t); discriminate.
    + destruct (Split1 c t) as [|p ps] eqn:E; [intros [= <-]|intros [= <- ->]].
      * by destruct (Split1_nonempty t).
      * destruct (IH p eq_refl) as [-> Hp]. split; [reflexivity|].
        cbn [allBytes]. rewrite Hp. unfold isNot.
        by destruct (Ascii.eqb_spec a c).
Qed.

Lemma Split1_pair (t k v : string) :
  Split1 c t = [k; v] ->
  t = k +:+ String c v /\
  allBytes (isNot c) k = true /\ allBytes (isNot c) v = true.
Proof.
  revert k. induction t as [|a t IH]; intros k; cbn [Split1]; [discriminate|].
  destruct (Ascii.eqb_spec a c) as [->|Hne].
  - intros [= <- H]. apply Split1_single in H as [-> Hv]. auto.
  - destruct (Split1 c t) as [|p ps] eqn:E; [discriminate|].
    intros [= <- ->]. destruct (IH p eq_refl) as (-> & Hp & Hv).
    split; [reflexivity|]. split; [|exact Hv].
    cbn [allBytes]. rewrite Hp. unfold isNot. by destruct (Ascii.eqb_spec a c).
Qed.

End Lit.

(** What the loop over the pairs stores. *)
Lemma foldl_storePair (toks : list string) (acc : gmap string string) (k v : string) :
  foldl storePair acc toks !! k = Some v ->
  acc !! k = Some v \/
  exists tok, tok ∈ toks /\ Split optionSeparatorRegExp tok = [k; v].
Proof.
  revert acc. induction toks as [|tok toks IH]; intros acc; cbn [foldl]; [by left|].
  intros H. apply IH in H as [H|(tok' & Hin & Hs)].
  - unfold storePair in H.
    destruct (Split optionSeparatorRegExp tok) as [|k' [|v' [|? ?]]] eqn:E;
      try (by left).
    apply lookup_insert_Some in H as [[<- <-]|[_ H]]; [|by left].
    right. exists tok. split; [left | exact E].
  - right. exists tok'. split; [by right | exact Hs].
Qed.

End SplitFacts.

Import SplitFacts.

(** X25.  Every option [parseMigrationOptions] gives is written in the text: when
    it binds [key] to [value], the text holds [key:value], and neither the
    key nor the value holds a colon. *)
Theorem options_are_written_in_the_block (contents key value : string) :
  parseMigrationOptions contents !! key = Some value ->
  occurs (key +:+ ":" +:+ value) contents /\
  allBytes (isNot ":") key = true /\ allBytes (isNot ":") value = true.
Proof.
  unfold parseMigrationOptions.
  destruct (String.eqb _ ""); [intros H; by rewrite lookup_empty in H|].
  intros H. apply foldl_storePair in H as [H|(tok & Hin & Hs)];
    [by rewrite lookup_empty in H|].
  unfold optionSeparatorRegExp in Hs. rewrite Split_Lit in Hs.
  apply Split1_pair in Hs as (-> & Hk & Hv).
  split; [|auto].
  apply Split_occurs, occurs_TrimSpace in Hin.
  destruct (strip_drop contents) as [n Hn]. rewrite Hn in Hin.
  by apply occurs_drop in Hin.
Qed.

(** X25 for a block with transaction:false. *)
Lemma options_are_written_in_the_block_witness :
  let block := "-- migrate:up transaction:false
create index concurrently on users (name);" in
  occurs "transaction:false" block /\
  allBytes (isNot ":") "transaction" = true /\ allBytes (isNot ":") "false" = true.
Proof.
  cbn zeta.
  apply (options_are_written_in_the_block _ "transaction" "false").
  vm_compute. reflexivity.
Defined.
